(** * Pair-wise RMSD (Tools/rmsds.cpp of LOOS): model and properties

    The tool reads the selected atoms of every frame of a trajectory into
    a matrix of flattened coordinates, centers every frame at the origin,
    computes the optimal-superposition RMSD of every pair of frames and
    prints the resulting square matrix.

    Conventions of the model:
    - a [double] is a real number: arithmetic is exact, there is no
      rounding, NaN or infinity;
    - [uint] and [int] are 32-bit; every place where the program computes
      with them or converts a size to them has its wrap-around written
      out;
    - reading or writing a [std::vector] outside its bounds, and overflow
      of a signed counter, is the outcome [Undefined];
    - running out of the fuel of a loop is the outcome [Diverge];
    - the LAPACK routine [dgesvj_], the library that loads models,
      trajectories and selections, and the number formatter of the output
      stream are not part of the file under study: the functions that
      call them take them as arguments.

    The 4 x 4 transformation matrices of Matrix44.hpp are modelled in
    the module [Matrix44]. *)

From Stdlib Require Import PrimFloat SpecFloat FloatOps.
From Stdlib Require Import String Ascii.
From Stdlib Require Import ZArith List Permutation Lia Bool.
From Stdlib Require Import Reals Lra Psatz.
Import ListNotations.

Local Open Scope Z_scope.

(** ** Machine integers *)

Definition UINT_MOD : Z := 2 ^ 32.
Definition INT_MAX : Z := 2 ^ 31 - 1.

(** Conversion to, and arithmetic in, [unsigned int]. *)
Definition wrap_uint (z : Z) : Z := z mod UINT_MOD.

(** Conversion of a size to [int] (two's complement). *)
Definition wrap_int (z : Z) : Z := (z + 2 ^ 31) mod UINT_MOD - 2 ^ 31.

(** [int / int] truncates towards zero. *)
Definition int_div (a b : Z) : Z := Z.quot a b.

(** ** Outcomes of a computation *)

(** The exception classes: the specification names [InputError] and
    [NumericalError]; the file under study only ever constructs the
    second. *)
Inductive exn : Type :=
| InputError
| NumericalError (info : Z).

Inductive result (A : Type) : Type :=
| Ok (a : A)
| Throw (e : exn)
| Undefined
| Diverge.

Arguments Ok {A} a.
Arguments Throw {A} e.
Arguments Undefined {A}.
Arguments Diverge {A}.

Definition bind {A B : Type} (r : result A) (f : A -> result B) : result B :=
  match r with
  | Ok a => f a
  | Throw e => Throw e
  | Undefined => Undefined
  | Diverge => Diverge
  end.

Declare Scope result_scope.
Delimit Scope result_scope with result.
Notation "x <- c ;; k" := (bind c (fun x => k))
  (at level 61, c at next level, right associativity) : result_scope.
Notation "' p <- c ;; k" := (bind c (fun x => let 'p := x in k))
  (at level 61, p pattern, c at next level, right associativity) : result_scope.
Open Scope result_scope.

(** A computation that neither reads out of bounds nor loops forever. *)
Definition defined {A : Type} (r : result A) : Prop :=
  match r with
  | Undefined | Diverge => False
  | _ => True
  end.

(** ** Loops

    [for (T i = start; cond(i); i = next(i)) body]. The counter lives in a
    machine type, so [next] may wrap (unsigned) or overflow (signed). The
    fuel is an upper bound of the number of iterations of a loop whose
    counter does not wrap: running out of it means that the counter wraps
    below its bound forever. *)
Fixpoint iterate {S : Type} (fuel : nat) (cond : Z -> bool)
    (next : Z -> result Z) (body : Z -> S -> result S) (i : Z) (s : S)
  : result S :=
  match fuel with
  | O => Diverge
  | Datatypes.S fuel' =>
      if cond i then
        s' <- body i s ;;
        i' <- next i ;;
        iterate fuel' cond next body i' s'
      else Ok s
  end.

(** [i += step] on an [unsigned int]. *)
Definition uint_step (step : Z) (i : Z) : result Z := Ok (wrap_uint (i + step)).

(** [j += step] on an [int]: overflow is undefined behaviour. *)
Definition int_step (step : Z) (j : Z) : result Z :=
  if j + step <=? INT_MAX then Ok (j + step) else Undefined.

(** [for (uint i = start; i < bound; i += step)]. *)
Definition for_uint {S : Type} (start bound step : Z)
    (body : Z -> S -> result S) (s : S) : result S :=
  iterate (Datatypes.S (Z.to_nat bound)) (fun i => i <? bound) (uint_step step)
    body start s.

(** [for (int j = start; j < bound; j += step)]. *)
Definition for_int {S : Type} (start bound step : Z)
    (body : Z -> S -> result S) (s : S) : result S :=
  iterate (Datatypes.S (Z.to_nat bound)) (fun j => j <? bound) (int_step step)
    body start s.

(** ** Vectors of doubles *)

(** [double]: a real number. *)
Notation double := R (only parsing).
Definition vDouble : Type := list double.
Definition vMatrix : Type := list vDouble.

(** [v.size()], a [size_t]. *)
Definition vsize {A : Type} (v : list A) : Z := Z.of_nat (length v).

(** [v[i]] as an rvalue. *)
Definition vget {A : Type} (v : list A) (i : Z) : result A :=
  if (0 <=? i) && (i <? vsize v) then
    match nth_error v (Z.to_nat i) with
    | Some x => Ok x
    | None => Undefined
    end
  else Undefined.

Fixpoint upd {A : Type} (v : list A) (k : nat) (x : A) : list A :=
  match v, k with
  | [], _ => []
  | _ :: t, O => x :: t
  | h :: t, Datatypes.S k' => h :: upd t k' x
  end.

(** [v[i] = x]. *)
Definition vset {A : Type} (v : list A) (i : Z) (x : A) : result (list A) :=
  if (0 <=? i) && (i <? vsize v) then Ok (upd v (Z.to_nat i) x) else Undefined.

(** ** Centering (rmsds.cpp, lines 216-240) *)

Definition vec3 : Type := (double * double * double)%type.

(** The first loop of [centerAtOrigin]: the per-axis sums. *)
Definition axis_totals (v : vDouble) : result vec3 :=
  for_uint 0 (vsize v) 3
    (fun i (c : vec3) =>
       let '(c0, c1, c2) := c in
       x <- vget v i ;;
       y <- vget v (wrap_uint (i + 1)) ;;
       z <- vget v (wrap_uint (i + 2)) ;;
       Ok (c0 + x, c1 + y, c2 + z)%R)
    (0, 0, 0)%R.

(** [c[i] = 3*c[i]/v.size()]. *)
Definition centroid_of (v : vDouble) (c : double) : double :=
  (3 * c / IZR (vsize v))%R.

(** The last loop of [centerAtOrigin]: [v[i] -= c[0]; ...]. *)
Definition subtract_centroid (c : vec3) (v : vDouble) : result vDouble :=
  let '(c0, c1, c2) := c in
  for_uint 0 (vsize v) 3
    (fun i (w : vDouble) =>
       x <- vget w i ;;
       w <- vset w i (x - c0)%R ;;
       y <- vget w (wrap_uint (i + 1)) ;;
       w <- vset w (wrap_uint (i + 1)) (y - c1)%R ;;
       z <- vget w (wrap_uint (i + 2)) ;;
       vset w (wrap_uint (i + 2)) (z - c2)%R)
    v.

Definition centerAtOrigin (v : vDouble) : result vDouble :=
  '(c0, c1, c2) <- axis_totals v ;;
  subtract_centroid (centroid_of v c0, centroid_of v c1, centroid_of v c2) v.

Definition centerTrajectory (M : vMatrix) : result vMatrix :=
  for_uint 0 (vsize M) 1
    (fun i (M : vMatrix) =>
       v <- vget M i ;;
       v' <- centerAtOrigin v ;;
       vset M i v')
    M.

(** ** Superposition RMSD (rmsds.cpp, lines 244-296) *)

(** The sums of squares [ssu], [ssv] of the first loop of [calcRMSD]. *)
Definition squared_norms (n : Z) (u v : vDouble) : result (vec3 * vec3) :=
  for_int 0 n 3
    (fun j (acc : vec3 * vec3) =>
       let '((su0, su1, su2), (sv0, sv1, sv2)) := acc in
       a0 <- vget u (wrap_uint (j + 0)) ;;
       b0 <- vget v (wrap_uint (j + 0)) ;;
       a1 <- vget u (wrap_uint (j + 1)) ;;
       b1 <- vget v (wrap_uint (j + 1)) ;;
       a2 <- vget u (wrap_uint (j + 2)) ;;
       b2 <- vget v (wrap_uint (j + 2)) ;;
       Ok ((su0 + a0 * a0, su1 + a1 * a1, su2 + a2 * a2),
           (sv0 + b0 * b0, sv1 + b1 * b1, sv2 + b2 * b2))%R)
    ((0, 0, 0), (0, 0, 0))%R.

(** One entry of the product computed by BLAS [dgemm] with
    [transa = 'N'], [transb = 'T'], [m = n = 3], [lda = ldb = 3],
    [alpha = 1], [beta = 0]: the entry in row [a] and column [b] of
    [A * B^T], where [A] and [B] are the 3 x k column-major matrices
    stored in [u] and [v]. *)
Fixpoint gemm_entry (u v : vDouble) (a b : Z) (k : nat) : result double :=
  match k with
  | O => Ok 0%R
  | Datatypes.S k' =>
      acc <- gemm_entry u v a b k' ;;
      x <- vget u (a + 3 * Z.of_nat k') ;;
      y <- vget v (b + 3 * Z.of_nat k') ;;
      Ok (acc + x * y)%R
  end.

(** The 3 x 3 result of [dgemm], column-major: entry [a + 3*b] is the one
    in row [a] and column [b]. A negative inner dimension is outside the
    contract of the routine. *)
Definition dgemm (k : Z) (u v : vDouble) : result (list double) :=
  if k <? 0 then Undefined
  else
    let e := fun a b => gemm_entry u v a b (Z.to_nat k) in
    r00 <- e 0 0 ;; r10 <- e 1 0 ;; r20 <- e 2 0 ;;
    r01 <- e 0 1 ;; r11 <- e 1 1 ;; r21 <- e 2 1 ;;
    r02 <- e 0 2 ;; r12 <- e 1 2 ;; r22 <- e 2 2 ;;
    Ok [r00; r10; r20; r01; r11; r21; r02; r12; r22].

(** What [dgesvj_] hands back to [calcRMSD]: the array [S] and [info]. *)
Definition svd_routine : Type := list double -> vec3 * Z.

Definition E0_of (ss : vec3 * vec3) : double :=
  let '((su0, su1, su2), (sv0, sv1, sv2)) := ss in
  (su0 + su1 + su2 + sv0 + sv1 + sv2)%R.

(** [abs] is [std::abs(double)]: the file is compiled with
    [using namespace std]. *)
Definition calcRMSD (dgesvj : svd_routine) (u v : vDouble) : result double :=
  let n := wrap_int (vsize u) in
  ss <- squared_norms n u v ;;
  let n := int_div n 3 in
  let E0 := E0_of ss in
  R <- dgemm n u v ;;
  let '((S0, S1, S2), info) := dgesvj R in
  if negb (info =? 0) then Throw (NumericalError info)
  else
    let ss := (S0 + S1 + S2)%R in
    let rmsd := sqrt (Rabs (E0 - 2 * ss) / IZR n) in
    Ok rmsd.

(** ** The result matrix and the progress counter *)

(** Modelled from the spec: [RealMatrix], the matrix class of the library,
    is not part of the file under study. A matrix built as [R(n, n)] has
    [n] rows and [n] columns and all its cells are zero ("leaving the
    diagonal at zero"); [R(j, i)] designates the cell in row [j] and
    column [i]. *)
Record RealMatrix : Type := mkMatrix {
  rows : Z;
  cols : Z;
  cell : Z -> Z -> double
}.

Definition new_matrix (r c : Z) : RealMatrix :=
  mkMatrix r c (fun _ _ => 0%R).

Definition in_matrix (m : RealMatrix) (j i : Z) : bool :=
  (0 <=? j) && (j <? rows m) && (0 <=? i) && (i <? cols m).

Definition mget (m : RealMatrix) (j i : Z) : result double :=
  if in_matrix m j i then Ok (cell m j i) else Undefined.

Definition mset (m : RealMatrix) (j i : Z) (x : double) : result RealMatrix :=
  if in_matrix m j i then
    Ok (mkMatrix (rows m) (cols m)
          (fun j' i' => if (j' =? j) && (i' =? i) then x else cell m j' i'))
  else Undefined.

(** Modelled from the spec: the progress classes of the library
    ([PercentProgressWithTime], [PercentTrigger], [EstimatingCounter],
    [ProgressCounter]) are not part of the file under study. The state is
    a counter of completed units, the expected total, and the fraction of
    completion between two status lines; [update] advances the counter by
    one unit. *)
Record ProgressCounter : Type := mkProgress {
  pc_fraction : double;
  pc_total : Z;
  pc_count : Z
}.

Definition pc_start (p : ProgressCounter) : ProgressCounter :=
  mkProgress (pc_fraction p) (pc_total p) 0.

Definition pc_update (p : ProgressCounter) : ProgressCounter :=
  mkProgress (pc_fraction p) (pc_total p) (pc_count p + 1).

Definition pc_finish (p : ProgressCounter) : ProgressCounter := p.

(** ** What a run does, in order *)

Inductive event : Type :=
| EvReadFrame (j : Z)             (* traj->readFrame(j) *)
| EvRMSD (a b : Z)                (* calcRMSD(M[a], M[b]) *)
| EvStore (r c : Z)               (* R(r, c) = ... *)
| EvUpdate                        (* slayer.update() *)
| EvStdout (s : String.string)    (* cout << s *)
| EvResourceWarning.              (* the memory warning of the spec *)

(** ** The pair loop (rmsds.cpp, lines 300-320) *)

Record rmsds_state : Type := mkState {
  st_R : RealMatrix;
  st_slayer : ProgressCounter;
  st_log : list event
}.

(** [uint total = floor(n * (n-1) / 2.0)]: the product is computed in
    [unsigned int], then halved as a [double]; the floor of the exact half
    of a non-negative integer is its integer quotient by two. *)
Definition rmsds_total (n : Z) : Z :=
  wrap_uint (wrap_uint (n * wrap_uint (n - 1)) / 2).

(** [PercentTrigger trigger(0.1)]. *)
Definition trigger_fraction : double := (1 / 10)%R.

Definition rmsds_pair (dgesvj : svd_routine) (M : vMatrix) (j i : Z)
    (st : rmsds_state) : result rmsds_state :=
  mj <- vget M j ;;
  mi <- vget M i ;;
  d <- calcRMSD dgesvj mj mi ;;
  R <- mset (st_R st) j i d ;;
  x <- mget R j i ;;
  R <- mset R i j x ;;
  Ok (mkState R (pc_update (st_slayer st))
        (st_log st ++ [EvRMSD j i; EvStore j i; EvStore i j; EvUpdate])).

(** The function with its local objects made visible: the final state
    holds the matrix, the progress counter and the log. *)
Definition rmsds_run (dgesvj : svd_routine) (M : vMatrix) (log : list event)
  : result rmsds_state :=
  let n := wrap_uint (vsize M) in
  let R := new_matrix n n in
  let total := rmsds_total n in
  let slayer := pc_start (mkProgress trigger_fraction total 0) in
  st <- for_uint 1 n 1
          (fun j st => for_uint 0 j 1 (rmsds_pair dgesvj M j) st)
          (mkState R slayer log) ;;
  Ok (mkState (st_R st) (pc_finish (st_slayer st)) (st_log st)).

Definition rmsds (dgesvj : svd_routine) (M : vMatrix) : result RealMatrix :=
  st <- rmsds_run dgesvj M [] ;;
  Ok (st_R st).

(** ** The coordinate cache (rmsds.cpp, lines 196-213) *)

(** The collaborators of the library that the tool calls: a model is
    loaded from a file, a trajectory is opened on it, a selection picks a
    group of atoms, and reading frame [j] gives every atom of a group its
    coordinates in that frame. *)
Record Library : Type := mkLibrary {
  AtomicGroup : Type;
  pTraj : Type;
  createSystem : String.string -> result AtomicGroup;
  createTrajectory : String.string -> AtomicGroup -> result pTraj;
  selectAtoms : AtomicGroup -> String.string -> result AtomicGroup;
  nframes : pTraj -> Z;
  group_size : AtomicGroup -> Z;
  frame_coords : pTraj -> Z -> AtomicGroup -> Z -> vec3
}.

Section Cache.
Variable lib : Library.

(** The body of the inner loop: atom [i] of frame [j] is stored at
    [M[j][i*3]], [M[j][i*3+1]], [M[j][i*3+2]]. *)
Definition store_atom (model : AtomicGroup lib) (traj : pTraj lib)
    (j i : Z) (M : vMatrix) : result vMatrix :=
  let '(x, y, z) := frame_coords lib traj j model i in
  row <- vget M j ;;
  row <- vset row (wrap_uint (i * 3)) x ;;
  row <- vset row (wrap_uint (wrap_uint (i * 3) + 1)) y ;;
  row <- vset row (wrap_uint (wrap_uint (i * 3) + 2)) z ;;
  vset M j row.

Definition readCoords (model : AtomicGroup lib) (traj : pTraj lib)
    (log : list event) : result (vMatrix * list event) :=
  let l := wrap_uint (nframes lib traj) in
  let n := wrap_uint (group_size lib model) in
  let M := repeat (repeat 0%R (Z.to_nat (wrap_uint (3 * n)))) (Z.to_nat l) in
  for_uint 0 l 1
    (fun j (st : vMatrix * list event) =>
       let '(M, log) := st in
       let log := log ++ [EvReadFrame j] in
       M <- for_uint 0 n 1 (store_atom model traj j) M ;;
       Ok (M, log))
    (M, log).
End Cache.

(** ** The tool (rmsds.cpp, lines 42-58, 121-187 and 324-350) *)

(** Controls precision in output matrix. *)
Definition matrix_precision : Z := 2.

(** The warning threshold that the file declares. *)
Definition cache_memory_fraction_warning : double := (66 / 100)%R.

Record ToolOptions : Type := mkOptions {
  noop : bool;
  skip1 : Z;
  skip2 : Z;
  range1 : String.string;
  range2 : String.string;
  model1 : String.string;
  traj1 : String.string;
  model2 : String.string;
  traj2 : String.string;
  sel1 : String.string;
  sel2 : String.string
}.

Definition newline : String.string :=
  String.String (Ascii.ascii_of_nat 10) String.EmptyString.

(** The indices [0 .. n-1] of a loop over a dimension of the matrix. *)
Definition indices (n : Z) : list Z := map Z.of_nat (seq 0 (Z.to_nat n)).

Section Output.
(** How the output stream prints one [double] at a given precision. *)
Variable fmt : Z -> double -> String.string.

(** Modelled from the spec: the stream operator of [RealMatrix] is not
    part of the file under study. It writes one row per line, the
    values of a row separated by one blank and formatted at the
    precision of the stream. *)
Definition write_row (p : Z) (M : RealMatrix) (j : Z) : String.string :=
  String.append
    (String.concat " "%string
       (map (fun i => fmt p (cell M j i)) (indices (cols M))))
    newline.

Definition write_matrix (p : Z) (M : RealMatrix) : String.string :=
  String.concat ""%string (map (write_row p M) (indices (rows M))).
End Output.

Section Tool.
Variable lib : Library.
Variable dgesvj : svd_routine.
Variable fmt : Z -> double -> String.string.

(** [main], after the command line has been turned into the header text
    ([invocationHeader]) and the options ([options.parse]). The result
    is the matrix and the log of the run. *)
Definition main (header : String.string) (topts : ToolOptions)
  : result (RealMatrix * list event) :=
  model <- createSystem lib (model1 topts) ;;
  traj <- createTrajectory lib (traj1 topts) model ;;
  subset <- selectAtoms lib model (sel1 topts) ;;
  '(T, log) <- readCoords lib subset traj [] ;;
  T <- centerTrajectory T ;;
  st <- rmsds_run dgesvj T log ;;
  let M := st_R st in
  let log := st_log st in
  if negb (noop topts) then
    Ok (M, log ++ [EvStdout (String.append "# " (String.append header newline));
                   EvStdout (write_matrix fmt matrix_precision M)])
  else Ok (M, log).
End Tool.


(** ** Quantities of the specification *)

(** The sum of the coordinates of all atoms along axis [a] (0, 1 or 2). *)
Fixpoint axis_sum (a : nat) (v : vDouble) : double :=
  match v with
  | x :: y :: z :: rest => (nth a [x; y; z] 0 + axis_sum a rest)%R
  | _ => 0%R
  end.

(** Every atom moved by [-c]. *)
Fixpoint translate (c : vec3) (v : vDouble) : vDouble :=
  match v with
  | x :: y :: z :: rest =>
      let '(c0, c1, c2) := c in
      (x - c0)%R :: (y - c1)%R :: (z - c2)%R :: translate c rest
  | _ => v
  end.

(** The value that [centerAtOrigin] subtracts along each axis:
    three times the sum of the axis over the length of the vector. *)
Definition centroid (v : vDouble) : vec3 :=
  (3 * axis_sum 0 v / IZR (vsize v),
   3 * axis_sum 1 v / IZR (vsize v),
   3 * axis_sum 2 v / IZR (vsize v))%R.

(** A frame of [n] atoms, as the cache builds it: a vector of [3*n]
    doubles whose length was computed in [unsigned int]. *)
Definition is_frame (n : Z) (v : vDouble) : Prop :=
  vsize v = 3 * n /\ 0 < n /\ vsize v < UINT_MOD.

(** Coordinate [a] of atom [k] of a flattened frame. *)
Definition coord (v : vDouble) (k a : nat) : double := nth (3 * k + a) v 0%R.

(** The sum of [f k] over the atoms [k = 0 .. n-1]. *)
Fixpoint atom_sum (f : nat -> double) (n : nat) : double :=
  match n with
  | O => 0%R
  | Datatypes.S k => (atom_sum f k + f k)%R
  end.

(** The squared norm of atom [k]. *)
Definition sq_norm (v : vDouble) (k : nat) : double :=
  (coord v k 0 * coord v k 0 + coord v k 1 * coord v k 1
   + coord v k 2 * coord v k 2)%R.

(** E0: the sum of the squared norms of both point sets. *)
Definition E0_spec (u v : vDouble) (n : nat) : double :=
  (atom_sum (sq_norm u) n + atom_sum (sq_norm v) n)%R.

(** R[a][b]: the sum over the atoms [k] of [u_k[a] * v_k[b]]. *)
Definition cross_cov (u v : vDouble) (n : nat) (a b : nat) : double :=
  atom_sum (fun k => coord u k a * coord v k b)%R n.

(** The cross-covariance matrix as [dgemm] lays it out (column-major). *)
Definition cov_matrix (u v : vDouble) (n : nat) : list double :=
  let r := cross_cov u v n in
  [r 0 0; r 1 0; r 2 0; r 0 1; r 1 1; r 2 1; r 0 2; r 1 2; r 2 2]%nat.


(** Entry in row [a] and column [b] of a column-major 3 x 3 matrix. *)
Definition entry (m : list double) (a b : nat) : double := nth (a + 3 * b) m 0%R.

Definition transpose3 (m : list double) : list double :=
  [entry m 0 0; entry m 0 1; entry m 0 2;
   entry m 1 0; entry m 1 1; entry m 1 2;
   entry m 2 0; entry m 2 1; entry m 2 2]%nat.

(** Entry [(a, b)] of the Gram matrix [m^T m]. *)
Definition gram (m : list double) (a b : nat) : double :=
  (entry m 0 a * entry m 0 b + entry m 1 a * entry m 1 b
   + entry m 2 a * entry m 2 b)%R.

(** The coefficients of the characteristic polynomial of the Gram matrix:
    its trace, the sum of its principal 2 x 2 minors, its determinant. *)
Definition gram_trace (m : list double) : double :=
  (gram m 0 0 + gram m 1 1 + gram m 2 2)%R.

Definition gram_minors (m : list double) : double :=
  (gram m 0 0 * gram m 1 1 - gram m 0 1 * gram m 1 0
   + (gram m 0 0 * gram m 2 2 - gram m 0 2 * gram m 2 0)
   + (gram m 1 1 * gram m 2 2 - gram m 1 2 * gram m 2 1))%R.

Definition gram_det (m : list double) : double :=
  (gram m 0 0 * (gram m 1 1 * gram m 2 2 - gram m 1 2 * gram m 2 1)
   - gram m 0 1 * (gram m 1 0 * gram m 2 2 - gram m 1 2 * gram m 2 0)
   + gram m 0 2 * (gram m 1 0 * gram m 2 1 - gram m 1 1 * gram m 2 0))%R.

(** [s0 >= s1 >= s2 >= 0] are the singular values of [m]: their squares
    are the eigenvalues of [m^T m], that is, the roots of its
    characteristic polynomial, counted with multiplicity. *)
Definition singular_values (m : list double) (s : vec3) : Prop :=
  let '(s0, s1, s2) := s in
  (0 <= s2 /\ s2 <= s1 /\ s1 <= s0 /\
   s0 * s0 + s1 * s1 + s2 * s2 = gram_trace m /\
   s0 * s0 * (s1 * s1) + s0 * s0 * (s2 * s2) + s1 * s1 * (s2 * s2)
     = gram_minors m /\
   s0 * s0 * (s1 * s1) * (s2 * s2) = gram_det m)%R.

(** The routine succeeds on [m] and stores its singular values. *)
Definition svd_exact (dgesvj : svd_routine) (m : list double) : Prop :=
  snd (dgesvj m) = 0 /\ singular_values m (fst (dgesvj m)).

(** ** The pair loop as a traversal *)

(** Running a body over a list of indices, in order, until it fails. *)
Fixpoint foldM {S I : Type} (f : I -> S -> result S) (l : list I) (s : S)
  : result S :=
  match l with
  | [] => Ok s
  | i :: l' => s' <- f i s ;; foldM f l' s'
  end.

(** The pairs [(j, i)], [i = 0 .. k-1], of row [j]. *)
Definition row_prefix (j k : nat) : list (Z * Z) :=
  map (fun i => (Z.of_nat j, Z.of_nat i)) (seq 0 k).

(** The pairs that the two nested loops of [rmsds] visit, in order, for
    [n] frames: [(1,0); (2,0); (2,1); (3,0); ...]. *)
Definition schedule (n : nat) : list (Z * Z) :=
  flat_map (fun j => row_prefix j j) (seq 0 n).

(** What one iteration of the inner loop appends to the log. *)
Definition pair_events (p : Z * Z) : list event :=
  let '(j, i) := p in [EvRMSD j i; EvStore j i; EvStore i j; EvUpdate].

(** [calcRMSD(M[j], M[i])]. *)
Definition pair_rmsd (dgesvj : svd_routine) (M : vMatrix) (j i : Z)
  : result double :=
  mj <- vget M j ;;
  mi <- vget M i ;;
  calcRMSD dgesvj mj mi.

(** The number of [slayer.update()] in a log. *)
Fixpoint updates (log : list event) : Z :=
  match log with
  | [] => 0
  | EvUpdate :: rest => 1 + updates rest
  | _ :: rest => updates rest
  end.

(** The counter of [for (uint i = start; i < bound; i += step)] after [k]
    iterations, as long as it has not wrapped. *)
Definition counter (start step : Z) (k : nat) : Z := start + step * Z.of_nat k.

(** The sum over the atoms of the square of coordinate [a]. *)
Definition axis_squares (v : vDouble) (a : nat) (n : nat) : R :=
  atom_sum (fun k => coord v k a * coord v k a)%R n.

(** What [calcRMSD] returns on vectors of [m] atoms. *)
Definition rmsd_outcome (dgesvj : svd_routine) (u v : vDouble) (m : nat)
  : result double :=
  let '((S0, S1, S2), info) := dgesvj (cov_matrix u v m) in
  if negb (info =? 0) then Throw (NumericalError info)
  else Ok (sqrt (Rabs (E0_spec u v m - 2 * (S0 + S1 + S2)) / INR m)).


(** A computation that raises no exception. *)
Definition no_throw {A : Type} (r : result A) : Prop := forall e, r <> Throw e.


(** ** Invariants, inputs of the examples and auxiliary quantities *)

Definition rmsds_init (n : Z) (log : list event) : rmsds_state :=
  mkState (new_matrix n n)
    (pc_start (mkProgress trigger_fraction (rmsds_total n) 0)) log.

Definition rmsds_step (dgesvj : svd_routine) (M : vMatrix) (p : Z * Z)
    (st : rmsds_state) : result rmsds_state :=
  rmsds_pair dgesvj M (fst p) (snd p) st.

(** After the pairs [done]: the matrix is square, the log and the counter
    have one entry per pair, both cells of every pair hold its RMSD, and
    every other cell is still zero. *)
Definition rmsds_inv (dgesvj : svd_routine) (M : vMatrix) (log0 : list event)
    (done : list (Z * Z)) (st : rmsds_state) : Prop :=
  rows (st_R st) = vsize M /\
  cols (st_R st) = vsize M /\
  st_log st = log0 ++ flat_map pair_events done /\
  st_slayer st
  = mkProgress trigger_fraction (rmsds_total (vsize M)) (Z.of_nat (length done)) /\
  (forall j i, In (j, i) done ->
     pair_rmsd dgesvj M j i = Ok (cell (st_R st) j i) /\
     cell (st_R st) i j = cell (st_R st) j i) /\
  (forall a b, ~ In (a, b) done -> ~ In (b, a) done -> cell (st_R st) a b = 0%R).

(** Three centered frames: two atoms at [(-1/2,0,0)] and [(1/2,0,0)],
    the same turned by half a turn around the z axis, and the first
    again. *)
Definition three_frames : vMatrix :=
  [[-1 / 2; 0; 0; 1 / 2; 0; 0]; [1 / 2; 0; 0; -1 / 2; 0; 0];
   [-1 / 2; 0; 0; 1 / 2; 0; 0]]%R.

(** A routine that succeeds and stores the singular values of the
    cross-covariance matrix of any two of these frames. *)
Definition dgesvj_half : svd_routine := fun _ => ((1 / 2, 0, 0)%R, 0).

(** 65537 frames without atoms. *)
Definition many_frames : vMatrix := repeat [] (Z.to_nat 65537).

(** The shape of the cache: [l] rows of [3*n] doubles. *)
Definition cache_shape (l n : Z) (M : vMatrix) : Prop :=
  vsize M = l /\ Forall (fun v => vsize v = 3 * n) M.


(** The first line of the output. *)
Definition header_line (header : string) : string :=
  String.append "# " (String.append header newline).

(** What a run prints once the matrix is complete. *)
Definition report (fmt : Z -> R -> string) (header : string) (quiet : bool)
    (R : RealMatrix) : list event :=
  if quiet then []
  else [EvStdout (header_line header);
        EvStdout (write_matrix fmt matrix_precision R)].



(** A small library: a model of two atoms and a trajectory
    of three frames, the second being the first turned by half a turn
    around the z axis through its centroid, the third the first moved by
    [(5, 5, 5)]. *)
Definition demo_frames : list (list vec3) :=
  [[(0, 0, 0); (1, 0, 0)]; [(1, 0, 0); (0, 0, 0)]; [(5, 5, 5); (6, 5, 5)]]%R.

Definition demo_lib : Library :=
  mkLibrary (list nat) (list (list vec3))
    (fun _ => Ok [0; 1]%nat)
    (fun _ _ => Ok demo_frames)
    (fun model _ => Ok model)
    (fun traj => Z.of_nat (length traj))
    (fun group => Z.of_nat (length group))
    (fun traj j group i =>
       nth (nth (Z.to_nat i) group 0%nat) (nth (Z.to_nat j) traj []) (0, 0, 0)%R).

Definition demo_fmt : Z -> R -> string := fun _ _ => "0.00"%string.

Definition demo_options : ToolOptions :=
  mkOptions false 0 0 "" "" "model.pdb" "traj.dcd" "" ""
    "name == 'CA'" "name == 'CA'".


(** Modelled from the spec: the estimate of the memory that the cache
    takes, [frames x atoms x 3 x 8] bytes. The file under study computes
    no such quantity. *)
Definition cache_bytes (frames atoms : Z) : Z := frames * atoms * 3 * 8.

(** A trajectory of 1000 frames and a selection of 500 atoms, all at the
    origin. *)
Definition big_lib : Library :=
  mkLibrary unit unit
    (fun _ => Ok tt) (fun _ _ => Ok tt) (fun _ _ => Ok tt)
    (fun _ => 1000) (fun _ => 500)
    (fun _ _ _ _ => (0, 0, 0)%R).

(** ** Loops over a vector, read as traversals *)

(** A fallible function applied to the elements of a list from first to
    last; the first element on which it fails ends the traversal. *)
Fixpoint mapM {A B : Type} (f : A -> result B) (l : list A) : result (list B) :=
  match l with
  | [] => Ok []
  | a :: l' => b <- f a ;; bs <- mapM f l' ;; Ok (b :: bs)
  end.


(** ** The contents of the coordinate cache *)

Section CacheContents.
Variable lib : Library.
Variable model : AtomicGroup lib.
Variable traj : pTraj lib.

(** The three coordinates of atom [i] of the selection in frame [j]. *)
Definition atom_coords (j i : Z) : vDouble :=
  let '(x, y, z) := frame_coords lib traj j model i in [x; y; z].

(** The coordinates of the first [k] atoms of frame [j], atom by atom. *)
Definition atoms_upto (j : Z) (k : nat) : vDouble :=
  flat_map (atom_coords j) (map Z.of_nat (seq 0 k)).

(** The flattened frames [0 .. l-1] of [n] atoms each. *)
Definition cache_rows (l n : nat) : vMatrix :=
  map (fun j => atoms_upto j n) (map Z.of_nat (seq 0 l)).
End CacheContents.

(** ** The frames that reach the pair loop *)

(** Frame [j] of the selection as [main] hands it to [rmsds]: read by
    [readCoords], then centered by [centerTrajectory]. *)
Definition centered_frame (lib : Library) (subset : AtomicGroup lib)
    (traj : pTraj lib) (j : Z) : vDouble :=
  let atoms :=
    atoms_upto lib subset traj j (Z.to_nat (wrap_uint (group_size lib subset))) in
  translate (centroid atoms) atoms.


(** A routine that always reports failure, with code 7. *)
Definition dgesvj_fails : svd_routine := fun _ => ((0, 0, 0)%R, 7).

(** ** Frames given atom by atom *)



(** Every coordinate multiplied by [c] (a change of unit). *)
Definition scale (c : double) (v : vDouble) : vDouble := map (Rmult c) v.


(** ** The command line (rmsds.cpp, lines 153-155) *)

(** The parsed command line: the options that were given, with their
    values ([po::variables_map], a map from names to values). *)
Definition variables_map : Type := list (String.string * String.string).

(** [m.count(key)]: 1 when the option was given, 0 otherwise. *)
Definition vm_count (m : variables_map) (key : String.string) : Z :=
  if existsb (fun e => String.eqb (fst e) key) m then 1 else 0.

(** The conversion of a [size_t] to [bool]. *)
Definition to_bool (z : Z) : bool := negb (z =? 0).

(** [ToolOptions::check]: [true] tells the options framework that the
    command line is not acceptable. *)
Definition check (m : variables_map) : bool :=
  negb ((to_bool (vm_count m "model1") && to_bool (vm_count m "traj1"))
        && negb (to_bool (Z.lxor (vm_count m "model2") (vm_count m "traj2")))).

(** The option [key] was given. *)
Definition given (m : variables_map) (key : String.string) : Prop :=
  exists value, In (key, value) m.

(** A library whose selection has 1431655766 atoms, in one frame. *)
Definition huge_lib : Library :=
  mkLibrary unit unit
    (fun _ => Ok tt) (fun _ _ => Ok tt) (fun _ _ => Ok tt)
    (fun _ => 1) (fun _ => 1431655766)
    (fun _ _ _ _ => (0, 0, 0)%R).

(** ** 4 x 4 matrices for coordinate transforms (Matrix44.hpp)

    [Matrix44<T>] is modelled at [T = double], a double being a real
    number as everywhere in this file. *)

Module Matrix44.

(** [T matrix[16]]: the sixteen elements, row by row. *)
Record t : Type := Build {
  e0 : double;
  e1 : double;
  e2 : double;
  e3 : double;
  e4 : double;
  e5 : double;
  e6 : double;
  e7 : double;
  e8 : double;
  e9 : double;
  e10 : double;
  e11 : double;
  e12 : double;
  e13 : double;
  e14 : double;
  e15 : double
}.

(** [matrix[i]] for an index that is in the array. *)
Definition matrix (M : t) (i : Z) : double :=
  match i with
  | 0 => e0 M
  | 1 => e1 M
  | 2 => e2 M
  | 3 => e3 M
  | 4 => e4 M
  | 5 => e5 M
  | 6 => e6 M
  | 7 => e7 M
  | 8 => e8 M
  | 9 => e9 M
  | 10 => e10 M
  | 11 => e11 M
  | 12 => e12 M
  | 13 => e13 M
  | 14 => e14 M
  | _ => e15 M
  end.

(** The array after a loop [for (i = 0; i < 16; i++) matrix[i] = f(i)]. *)
Definition of_array (f : Z -> double) : t :=
  Build (f 0) (f 1) (f 2) (f 3) (f 4) (f 5) (f 6) (f 7)
        (f 8) (f 9) (f 10) (f 11) (f 12) (f 13) (f 14) (f 15).

(** [matrix[i] = x]. *)
Definition store (M : t) (i : Z) (x : double) : t :=
  of_array (fun k => if k =? i then x else matrix M k).

(** What an accessor gives: a value, or the exception [range_error]
    with its message. *)
Inductive checked (A : Type) : Type :=
| Value (a : A)
| range_error (what : String.string).
Arguments Value {A} a.
Arguments range_error {A} what.

(** [Matrix44(const T v)]: all elements set to [v]. *)
Definition constant (v : double) : t := of_array (fun _ => v).

(** [zero()]. *)
Definition zero : t := of_array (fun _ => 0%R).

(** [identity()]: [zero(); matrix[0] = 1; matrix[5] = 1; matrix[10] = 1;
    matrix[15] = 1]. The default constructor calls it. *)
Definition identity : t :=
  store (store (store (store zero 0 1%R) 5 1%R) 10 1%R) 15 1%R.

(** [operator()(j, i)]: the element at row [j] and column [i]. *)
Definition at_ (M : t) (j i : Z) : checked double :=
  if (j <? 0) || (i <? 0) || (i >? 3) || (j >? 3)
  then range_error "Indices into matrix are out of range"
  else Value (matrix M (j * 4 + i)).

(** [operator[](i)]: the linear array of elements. *)
Definition index (M : t) (i : Z) : checked double :=
  if (i <? 0) || (i >? 15)
  then range_error "Index into matrix is out of range"
  else Value (matrix M i).

(** [operator+=] and [operator+] on two matrices. *)
Definition add_assign (this rhs : t) : t :=
  of_array (fun i => matrix this i + matrix rhs i)%R.

Definition add (this rhs : t) : t := add_assign this rhs.

(** [operator+(const T lhs, const Matrix44<T>& rhs)]: [res(rhs);
    res += lhs], where [lhs] becomes a matrix by the constructor from
    a constant. *)
Definition add_const (lhs : double) (rhs : t) : t :=
  add_assign rhs (constant lhs).

(** [operator-=] and [operator-] on two matrices. *)
Definition sub_assign (this rhs : t) : t :=
  of_array (fun i => matrix this i - matrix rhs i)%R.

Definition sub (this rhs : t) : t := sub_assign this rhs.

(** [operator-(const T lhs, const Matrix44<T>& rhs)]: [res(rhs);
    res -= lhs]. *)
Definition sub_const (lhs : double) (rhs : t) : t :=
  sub_assign rhs (constant lhs).

(** [operator*=] on two matrices: the product is built in [tmp], then
    copied back. *)
Definition mul_assign (this rhs : t) : t :=
  Build
    (matrix this 0 * matrix rhs 0 + matrix this 1 * matrix rhs 4
     + matrix this 2 * matrix rhs 8 + matrix this 3 * matrix rhs 12)%R
    (matrix this 0 * matrix rhs 1 + matrix this 1 * matrix rhs 5
     + matrix this 2 * matrix rhs 9 + matrix this 3 * matrix rhs 13)%R
    (matrix this 0 * matrix rhs 2 + matrix this 1 * matrix rhs 6
     + matrix this 2 * matrix rhs 10 + matrix this 3 * matrix rhs 14)%R
    (matrix this 0 * matrix rhs 3 + matrix this 1 * matrix rhs 7
     + matrix this 2 * matrix rhs 11 + matrix this 3 * matrix rhs 15)%R
    (matrix this 4 * matrix rhs 0 + matrix this 5 * matrix rhs 4
     + matrix this 6 * matrix rhs 8 + matrix this 7 * matrix rhs 12)%R
    (matrix this 4 * matrix rhs 1 + matrix this 5 * matrix rhs 5
     + matrix this 6 * matrix rhs 9 + matrix this 7 * matrix rhs 13)%R
    (matrix this 4 * matrix rhs 2 + matrix this 5 * matrix rhs 6
     + matrix this 6 * matrix rhs 10 + matrix this 7 * matrix rhs 14)%R
    (matrix this 4 * matrix rhs 3 + matrix this 5 * matrix rhs 7
     + matrix this 6 * matrix rhs 11 + matrix this 7 * matrix rhs 15)%R
    (matrix this 8 * matrix rhs 0 + matrix this 9 * matrix rhs 4
     + matrix this 10 * matrix rhs 8 + matrix this 11 * matrix rhs 12)%R
    (matrix this 8 * matrix rhs 1 + matrix this 9 * matrix rhs 5
     + matrix this 10 * matrix rhs 9 + matrix this 11 * matrix rhs 13)%R
    (matrix this 8 * matrix rhs 2 + matrix this 9 * matrix rhs 6
     + matrix this 10 * matrix rhs 10 + matrix this 11 * matrix rhs 14)%R
    (matrix this 8 * matrix rhs 3 + matrix this 9 * matrix rhs 7
     + matrix this 10 * matrix rhs 11 + matrix this 11 * matrix rhs 15)%R
    (matrix this 12 * matrix rhs 0 + matrix this 13 * matrix rhs 4
     + matrix this 14 * matrix rhs 8 + matrix this 15 * matrix rhs 12)%R
    (matrix this 12 * matrix rhs 1 + matrix this 13 * matrix rhs 5
     + matrix this 14 * matrix rhs 9 + matrix this 15 * matrix rhs 13)%R
    (matrix this 12 * matrix rhs 2 + matrix this 13 * matrix rhs 6
     + matrix this 14 * matrix rhs 10 + matrix this 15 * matrix rhs 14)%R
    (matrix this 12 * matrix rhs 3 + matrix this 13 * matrix rhs 7
     + matrix this 14 * matrix rhs 11 + matrix this 15 * matrix rhs 15)%R.

Definition mul (this rhs : t) : t := mul_assign this rhs.

(** [operator*=(const T x)], [operator*(const T x)] and
    [operator*(const T x, const Matrix44<T>& rhs)]. *)
Definition scale_assign (this : t) (x : double) : t :=
  of_array (fun i => matrix this i * x)%R.

Definition scale (this : t) (x : double) : t := scale_assign this x.

Definition const_mul (x : double) (rhs : t) : t := scale_assign rhs x.

(** The four components [v[0] .. v[3]] of a [Coord<T>], which is all
    that this file reads and writes of it. *)
Definition Coord : Type := (double * double * double * double)%type.

Definition coord_v (v : Coord) (i : Z) : double :=
  let '(v0, v1, v2, v3) := v in
  match i with 0 => v0 | 1 => v1 | 2 => v2 | _ => v3 end.

(** [operator*(const Matrix44<T>& M, const Coord<T>& v)]. *)
Definition mul_vec (M : t) (v : Coord) : Coord :=
  (coord_v v 0 * matrix M 0 + coord_v v 1 * matrix M 1
   + coord_v v 2 * matrix M 2 + coord_v v 3 * matrix M 3,
   coord_v v 0 * matrix M 4 + coord_v v 1 * matrix M 5
    + coord_v v 2 * matrix M 6 + coord_v v 3 * matrix M 7,
   coord_v v 0 * matrix M 8 + coord_v v 1 * matrix M 9
    + coord_v v 2 * matrix M 10 + coord_v v 3 * matrix M 11,
   coord_v v 0 * matrix M 12 + coord_v v 1 * matrix M 13
    + coord_v v 2 * matrix M 14 + coord_v v 3 * matrix M 15)%R.

End Matrix44.

(** ** Rigid rotations of a frame *)

(** A 3 x 3 matrix, by row and column. *)
Definition mat3 : Type := nat -> nat -> double.

(** Entry [(d, e)] of [Q^T Q]. *)
Definition gram3 (Q : mat3) (d e : nat) : double :=
  (Q 0%nat d * Q 0%nat e + Q 1%nat d * Q 1%nat e + Q 2%nat d * Q 2%nat e)%R.

(** [Q^T Q] is the identity: [Q] is a rotation or a reflection. *)
Definition orthogonal (Q : mat3) : Prop :=
  (gram3 Q 0 0 = 1 /\ gram3 Q 1 1 = 1 /\ gram3 Q 2 2 = 1 /\
   gram3 Q 0 1 = 0 /\ gram3 Q 0 2 = 0 /\ gram3 Q 1 2 = 0)%R.

(** Every atom of a frame multiplied by [Q]. *)
Fixpoint rotate (Q : mat3) (v : vDouble) : vDouble :=
  match v with
  | x :: y :: z :: rest =>
      (Q 0%nat 0%nat * x + Q 0%nat 1%nat * y + Q 0%nat 2%nat * z)%R
      :: (Q 1%nat 0%nat * x + Q 1%nat 1%nat * y + Q 1%nat 2%nat * z)%R
      :: (Q 2%nat 0%nat * x + Q 2%nat 1%nat * y + Q 2%nat 2%nat * z)%R
      :: rotate Q rest
  | _ => v
  end.

(** The half turn around the z axis. *)
Definition half_turn_z : mat3 :=
  fun a b =>
    match a, b with
    | O, O => (-1)%R
    | Datatypes.S O, Datatypes.S O => (-1)%R
    | Datatypes.S (Datatypes.S O), Datatypes.S (Datatypes.S O) => 1%R
    | _, _ => 0%R
    end.

(** ** Atoms inside a density blob (Packages/DensityTools/contained.cpp,
    lines 71-85) *)

(** What the tool uses of a [DensityGrid<int>] of the library: the grid
    point of a position, whether a grid point is inside the grid, and
    the value stored at a grid point. What [grid(point)] does for a
    point outside the grid is the library's business: [value_at] is
    whatever it does. *)
Record DensityGrid : Type := mkGrid {
  DensityGridpoint : Type;
  gridpoint : vec3 -> DensityGridpoint;
  inRange : DensityGridpoint -> bool;
  value_at : DensityGridpoint -> result Z
}.

(** The largest [long] (LP64). *)
Definition LONG_MAX : Z := 2 ^ 63 - 1.

Section Contained.
Variable lib : Library.
Variable grid : DensityGrid.
(** How the output stream prints an integer. *)
Variable show : Z -> String.string.

(** The body of the loop over the atoms: [continue] when the grid point
    of the atom is out of range, [++n] when the grid holds a non-zero
    value there. *)
Definition count_atom (c : vec3) (n : Z) : result Z :=
  let point := gridpoint grid c in
  if negb (inRange grid point) then Ok n
  else
    x <- value_at grid point ;;
    if negb (x =? 0)
    then (if n + 1 <=? LONG_MAX then Ok (n + 1) else Undefined)
    else Ok n.

(** [long n = 0; for (j = subset.begin(); j != subset.end(); ++j) ...]
    on the coordinates of frame [i]. *)
Definition count_frame (subset : AtomicGroup lib) (traj : pTraj lib) (i : Z)
  : result Z :=
  foldM (fun j n => count_atom (frame_coords lib traj i subset j) n)
        (indices (group_size lib subset)) 0.

(** The loop over the frames: every frame is read, its atoms are
    counted, and the line [i n] is written. *)
Definition contained_loop (subset : AtomicGroup lib) (traj : pTraj lib)
    (frames : list Z) (log : list event) : result (list event) :=
  foldM (fun i log =>
           let log := log ++ [EvReadFrame i] in
           n <- count_frame subset traj i ;;
           Ok (log ++ [EvStdout (String.append (show i)
                          (String.append " " (String.append (show n) newline)))]))
        frames log.

(** Atom [j] of the selection is, in frame [i], at a point of the grid
    that holds a non-zero value. *)
Definition contained (subset : AtomicGroup lib) (traj : pTraj lib) (i j : Z)
  : bool :=
  let point := gridpoint grid (frame_coords lib traj i subset j) in
  inRange grid point
  && match value_at grid point with Ok x => negb (x =? 0) | _ => false end.

(** The number of atoms of the selection inside the blob in frame [i]. *)
Definition contained_atoms (subset : AtomicGroup lib) (traj : pTraj lib)
    (i : Z) : Z :=
  Z.of_nat (length (filter (contained subset traj i)
                      (indices (group_size lib subset)))).
End Contained.

(** A grid that holds 1 on the half space [x >= 1] and nothing else. *)
Definition half_space_grid : DensityGrid :=
  mkGrid bool
    (fun c => let '(x, _, _) := c in if Rle_dec 1 x then true else false)
    (fun p => p)
    (fun p => if p then Ok 1 else Undefined).

(** ** The same program in binary64

    Everywhere above a [double] is a real number. The module [B64] holds
    the functions of rmsds.cpp once more, with a [double] as the IEEE 754
    binary64 number of the kernel and every operation rounded to nearest
    (ties to even), one operation at a time: no fused multiply-add and no
    extended precision. The BLAS routine accumulates each entry of the
    product from the first atom to the last, as the reference [dgemm]
    does. The integers, the vectors, the loops and the outcomes are the
    ones of the exact model. *)

Module B64.

Notation double := PrimFloat.float (only parsing).
Definition vDouble : Type := list double.
Definition vMatrix : Type := list vDouble.
Definition vec3 : Type := (double * double * double)%type.

(** The conversion of an [int] or of a size to [double]; exact below
    [2^53]. *)
Definition of_int (z : Z) : double :=
  if z <? 0 then PrimFloat.opp (PrimFloat.of_uint63 (Uint63Axioms.of_Z (- z)))
  else PrimFloat.of_uint63 (Uint63Axioms.of_Z z).

(** *** Centering (rmsds.cpp, lines 216-240) *)

Definition axis_totals (v : vDouble) : result vec3 :=
  for_uint 0 (vsize v) 3
    (fun i (c : vec3) =>
       let '(c0, c1, c2) := c in
       x <- vget v i ;;
       y <- vget v (wrap_uint (i + 1)) ;;
       z <- vget v (wrap_uint (i + 2)) ;;
       Ok (c0 + x, c1 + y, c2 + z)%float)
    (0, 0, 0)%float.

(** [c[i] = 3*c[i]/v.size()]. *)
Definition centroid_of (v : vDouble) (c : double) : double :=
  (3 * c / of_int (vsize v))%float.

Definition subtract_centroid (c : vec3) (v : vDouble) : result vDouble :=
  let '(c0, c1, c2) := c in
  for_uint 0 (vsize v) 3
    (fun i (w : vDouble) =>
       x <- vget w i ;;
       w <- vset w i (x - c0)%float ;;
       y <- vget w (wrap_uint (i + 1)) ;;
       w <- vset w (wrap_uint (i + 1)) (y - c1)%float ;;
       z <- vget w (wrap_uint (i + 2)) ;;
       vset w (wrap_uint (i + 2)) (z - c2)%float)
    v.

Definition centerAtOrigin (v : vDouble) : result vDouble :=
  '(c0, c1, c2) <- axis_totals v ;;
  subtract_centroid (centroid_of v c0, centroid_of v c1, centroid_of v c2) v.

Definition centerTrajectory (M : vMatrix) : result vMatrix :=
  for_uint 0 (vsize M) 1
    (fun i (M : vMatrix) =>
       v <- vget M i ;;
       v' <- centerAtOrigin v ;;
       vset M i v')
    M.

(** *** Superposition RMSD (rmsds.cpp, lines 244-296) *)

Definition squared_norms (n : Z) (u v : vDouble) : result (vec3 * vec3) :=
  for_int 0 n 3
    (fun j (acc : vec3 * vec3) =>
       let '((su0, su1, su2), (sv0, sv1, sv2)) := acc in
       a0 <- vget u (wrap_uint (j + 0)) ;;
       b0 <- vget v (wrap_uint (j + 0)) ;;
       a1 <- vget u (wrap_uint (j + 1)) ;;
       b1 <- vget v (wrap_uint (j + 1)) ;;
       a2 <- vget u (wrap_uint (j + 2)) ;;
       b2 <- vget v (wrap_uint (j + 2)) ;;
       Ok ((su0 + a0 * a0, su1 + a1 * a1, su2 + a2 * a2),
           (sv0 + b0 * b0, sv1 + b1 * b1, sv2 + b2 * b2))%float)
    ((0, 0, 0), (0, 0, 0))%float.

(** Entry in row [a] and column [b] of [A * B^T] as the reference
    [dgemm] accumulates it: [temp = alpha * B(b, l)], then
    [C(a, b) += temp * A(a, l)], for [l] from the first atom on. *)
Fixpoint gemm_entry (u v : vDouble) (a b : Z) (k : nat) : result double :=
  match k with
  | O => Ok 0%float
  | Datatypes.S k' =>
      acc <- gemm_entry u v a b k' ;;
      x <- vget u (a + 3 * Z.of_nat k') ;;
      y <- vget v (b + 3 * Z.of_nat k') ;;
      Ok (acc + (1 * y) * x)%float
  end.

Definition dgemm (k : Z) (u v : vDouble) : result (list double) :=
  if k <? 0 then Undefined
  else
    let e := fun a b => gemm_entry u v a b (Z.to_nat k) in
    r00 <- e 0 0 ;; r10 <- e 1 0 ;; r20 <- e 2 0 ;;
    r01 <- e 0 1 ;; r11 <- e 1 1 ;; r21 <- e 2 1 ;;
    r02 <- e 0 2 ;; r12 <- e 1 2 ;; r22 <- e 2 2 ;;
    Ok [r00; r10; r20; r01; r11; r21; r02; r12; r22].

(** What [dgesvj_] hands back to [calcRMSD]: the array [S] and [info]. *)
Definition svd_routine : Type := list double -> vec3 * Z.

Definition E0_of (ss : vec3 * vec3) : double :=
  let '((su0, su1, su2), (sv0, sv1, sv2)) := ss in
  (su0 + su1 + su2 + sv0 + sv1 + sv2)%float.

Definition calcRMSD (dgesvj : svd_routine) (u v : vDouble) : result double :=
  let n := wrap_int (vsize u) in
  ss <- squared_norms n u v ;;
  let n := int_div n 3 in
  let E0 := E0_of ss in
  R <- dgemm n u v ;;
  let '((S0, S1, S2), info) := dgesvj R in
  if negb (info =? 0) then Throw (NumericalError info)
  else
    let ss := (S0 + S1 + S2)%float in
    let rmsd := PrimFloat.sqrt (PrimFloat.abs (E0 - 2 * ss) / of_int n)%float in
    Ok rmsd.

(** The value that a clamp at zero would give where the program takes
    the absolute value: [sqrt(max(0, d) / n)]. *)
Definition clamped (E0 ss : double) (n : Z) : double :=
  let d := (E0 - 2 * ss)%float in
  PrimFloat.sqrt ((if PrimFloat.ltb d 0 then 0 else d) / of_int n)%float.

(** The number that a [double] is (zero for an infinity or a NaN). *)
Definition to_R (x : double) : R :=
  match Prim2SF x with
  | S754_finite s m e =>
      ((if s then -1 else 1) * IZR (Z.pos m) * powerRZ 2 e)%R
  | _ => 0%R
  end.

(** *** The result matrix and the pair loop (rmsds.cpp, lines 300-320) *)

(** Modelled from the spec: [RealMatrix], as in the exact model. *)
Record RealMatrix : Type := mkMatrix {
  rows : Z;
  cols : Z;
  cell : Z -> Z -> double
}.

Definition new_matrix (r c : Z) : RealMatrix :=
  mkMatrix r c (fun _ _ => 0%float).

Definition in_matrix (m : RealMatrix) (j i : Z) : bool :=
  (0 <=? j) && (j <? rows m) && (0 <=? i) && (i <? cols m).

Definition mget (m : RealMatrix) (j i : Z) : result double :=
  if in_matrix m j i then Ok (cell m j i) else Undefined.

Definition mset (m : RealMatrix) (j i : Z) (x : double) : result RealMatrix :=
  if in_matrix m j i then
    Ok (mkMatrix (rows m) (cols m)
          (fun j' i' => if (j' =? j) && (i' =? i) then x else cell m j' i'))
  else Undefined.

(** The counter of completed pairs and its total, as in the exact
    model. *)
Record rmsds_state : Type := mkState {
  st_R : RealMatrix;
  st_total : Z;
  st_count : Z;
  st_log : list event
}.

Definition rmsds_pair (dgesvj : svd_routine) (M : vMatrix) (j i : Z)
    (st : rmsds_state) : result rmsds_state :=
  mj <- vget M j ;;
  mi <- vget M i ;;
  d <- calcRMSD dgesvj mj mi ;;
  R <- mset (st_R st) j i d ;;
  x <- mget R j i ;;
  R <- mset R i j x ;;
  Ok (mkState R (st_total st) (st_count st + 1)
        (st_log st ++ [EvRMSD j i; EvStore j i; EvStore i j; EvUpdate])).

Definition rmsds_run (dgesvj : svd_routine) (M : vMatrix) (log : list event)
  : result rmsds_state :=
  let n := wrap_uint (vsize M) in
  for_uint 1 n 1
    (fun j st => for_uint 0 j 1 (rmsds_pair dgesvj M j) st)
    (mkState (new_matrix n n) (rmsds_total n) 0 log).

Definition rmsds (dgesvj : svd_routine) (M : vMatrix) : result RealMatrix :=
  st <- rmsds_run dgesvj M [] ;;
  Ok (st_R st).

(** *** The coordinate cache (rmsds.cpp, lines 196-213) *)

(** The collaborators of the library, as in the exact model, with the
    coordinates of an atom as three binary64 numbers. *)
Record Library : Type := mkLibrary {
  AtomicGroup : Type;
  pTraj : Type;
  createSystem : String.string -> result AtomicGroup;
  createTrajectory : String.string -> AtomicGroup -> result pTraj;
  selectAtoms : AtomicGroup -> String.string -> result AtomicGroup;
  nframes : pTraj -> Z;
  group_size : AtomicGroup -> Z;
  frame_coords : pTraj -> Z -> AtomicGroup -> Z -> vec3
}.

Section Cache.
Variable lib : Library.

Definition store_atom (model : AtomicGroup lib) (traj : pTraj lib)
    (j i : Z) (M : vMatrix) : result vMatrix :=
  let '(x, y, z) := frame_coords lib traj j model i in
  row <- vget M j ;;
  row <- vset row (wrap_uint (i * 3)) x ;;
  row <- vset row (wrap_uint (wrap_uint (i * 3) + 1)) y ;;
  row <- vset row (wrap_uint (wrap_uint (i * 3) + 2)) z ;;
  vset M j row.

Definition readCoords (model : AtomicGroup lib) (traj : pTraj lib)
    (log : list event) : result (vMatrix * list event) :=
  let l := wrap_uint (nframes lib traj) in
  let n := wrap_uint (group_size lib model) in
  let M := repeat (repeat 0%float (Z.to_nat (wrap_uint (3 * n)))) (Z.to_nat l) in
  for_uint 0 l 1
    (fun j (st : vMatrix * list event) =>
       let '(M, log) := st in
       let log := log ++ [EvReadFrame j] in
       M <- for_uint 0 n 1 (store_atom model traj j) M ;;
       Ok (M, log))
    (M, log).
End Cache.

(** *** The output stream *)

(** The decimal digits of a natural number. *)
Fixpoint digits_of (fuel : nat) (n : Z) (acc : String.string) : String.string :=
  match fuel with
  | O => acc
  | Datatypes.S f =>
      let acc :=
        String.String (Ascii.ascii_of_nat (48 + Z.to_nat (n mod 10))) acc in
      if n / 10 =? 0 then acc else digits_of f (n / 10) acc
  end.

Definition decimal (n : Z) : String.string :=
  digits_of (Datatypes.S (Z.to_nat (Z.log2 (Z.max n 1)))) n String.EmptyString.

(** [10^k * den <= num], for any integer [k]: [10^k <= num / den]. *)
Definition pow10_le (k num den : Z) : bool :=
  if 0 <=? k then 10 ^ k * den <=? num else den <=? num * 10 ^ (- k).

(** The decimal exponent [X] of [num / den > 0]: [10^X <= num / den
    < 10^(X+1)]. *)
Fixpoint decimal_exponent (fuel : nat) (X num den : Z) : Z :=
  match fuel with
  | O => X
  | Datatypes.S f =>
      if pow10_le (X + 1) num den then decimal_exponent f (X + 1) num den
      else X
  end.

(** The quotient [num / den] rounded to the nearest integer, ties to
    even. *)
Definition round_quotient (num den : Z) : Z :=
  let q := num / den in
  let r := num mod den in
  if 2 * r <? den then q
  else if den <? 2 * r then q + 1
  else if Z.even q then q else q + 1.

(** [num / den] rounded to [P] significant decimal digits: the integer of
    the digits and the decimal exponent of the first one. *)
Definition significant (P num den : Z) : Z * Z :=
  let X := decimal_exponent 800 (-400) num den in
  let shift := X - P + 1 in
  let D :=
    if 0 <=? shift then round_quotient num (den * 10 ^ shift)
    else round_quotient (num * 10 ^ (- shift)) den in
  if D =? 10 ^ P then (10 ^ (P - 1), X + 1) else (D, X).

(** A string without the zeros at its end. *)
Fixpoint strip_zeros (s : String.string) : String.string :=
  match s with
  | String.EmptyString => String.EmptyString
  | String.String c rest =>
      match strip_zeros rest with
      | String.EmptyString =>
          if Ascii.eqb c "0" then String.EmptyString
          else String.String c String.EmptyString
      | rest' => String.String c rest'
      end
  end.

Definition zeros (k : Z) : String.string :=
  String.concat "" (repeat "0"%string (Z.to_nat k)).

Definition with_fraction (int_part frac : String.string) : String.string :=
  match strip_zeros frac with
  | String.EmptyString => int_part
  | frac' => String.append int_part (String.append "." frac')
  end.

(** The conversion [%g] of a positive number at precision [P >= 1]
    (ISO C, 7.21.6.1): with [X] the decimal exponent after rounding to [P]
    significant digits, fixed notation when [-4 <= X < P] and
    scientific notation otherwise, and in both the zeros at the end of
    the fraction removed. *)
Definition general_notation (P num den : Z) : String.string :=
  let '(D, X) := significant P num den in
  let ds := decimal D in
  if (-4 <=? X) && (X <? P) then
    if 0 <=? X then
      with_fraction (String.substring 0 (Z.to_nat (X + 1)) ds)
        (String.substring (Z.to_nat (X + 1)) (Z.to_nat (P - 1 - X)) ds)
    else with_fraction "0" (String.append (zeros (- X - 1)) ds)
  else
    String.append
      (with_fraction (String.substring 0 1 ds)
         (String.substring 1 (Z.to_nat (P - 1)) ds))
      (String.append (if X <? 0 then "e-" else "e+")
         (String.append (if Z.abs X <? 10 then "0" else "")
            (decimal (Z.abs X)))).

(** [os << x] for a [double] on a stream whose notation was never set
    to [fixed] or [scientific]: the stream converts with [%g] at its
    precision (ISO C++, [facet.num.put.virtuals]); a precision of zero
    counts as one. *)
Definition put_double (precision : Z) (x : double) : String.string :=
  let P := if precision =? 0 then 1 else precision in
  match Prim2SF x with
  | S754_zero s => if s then "-0"%string else "0"%string
  | S754_infinity s => if s then "-inf"%string else "inf"%string
  | S754_nan => "nan"%string
  | S754_finite s m e =>
      String.append (if s then "-"%string else ""%string)
        (if 0 <=? e then general_notation P (Z.pos m * 2 ^ e) 1
         else general_notation P (Z.pos m) (2 ^ (- e)))
  end.

(** Modelled from the spec: the stream operator of [RealMatrix], as in
    the exact model: one row per line, the values of a row separated by
    one blank, each written by the stream at its precision. *)
Definition write_row (p : Z) (M : RealMatrix) (j : Z) : String.string :=
  String.append
    (String.concat " "%string
       (map (fun i => put_double p (cell M j i)) (indices (cols M))))
    newline.

Definition write_matrix (p : Z) (M : RealMatrix) : String.string :=
  String.concat ""%string (map (write_row p M) (indices (rows M))).

(** *** The tool (rmsds.cpp, lines 335-348) *)

Section Tool.
Variable lib : Library.
Variable dgesvj : svd_routine.

Definition main (header : String.string) (topts : ToolOptions)
  : result (RealMatrix * list event) :=
  model <- createSystem lib (model1 topts) ;;
  traj <- createTrajectory lib (traj1 topts) model ;;
  subset <- selectAtoms lib model (sel1 topts) ;;
  '(T, log) <- readCoords lib subset traj [] ;;
  T <- centerTrajectory T ;;
  st <- rmsds_run dgesvj T log ;;
  let M := st_R st in
  let log := st_log st in
  if negb (noop topts) then
    Ok (M, log ++ [EvStdout (String.append "# " (String.append header newline));
                   EvStdout (write_matrix matrix_precision M)])
  else Ok (M, log).
End Tool.
End B64.

(** * Properties *)

(** ** Machine integers *)

Lemma wrap_uint_small (z : Z) : 0 <= z < UINT_MOD -> wrap_uint z = z.
Proof. intros H. unfold wrap_uint. now apply Z.mod_small. Qed.

Lemma wrap_uint_range (z : Z) : 0 <= wrap_uint z < UINT_MOD.
Proof. unfold wrap_uint, UINT_MOD. apply Z.mod_pos_bound. lia. Qed.

Lemma wrap_int_small (z : Z) : 0 <= z <= INT_MAX -> wrap_int z = z.
Proof.
  intros H. unfold wrap_int, INT_MAX, UINT_MOD in *.
  rewrite Z.mod_small; lia.
Qed.

Lemma vsize_nonneg {A : Type} (v : list A) : 0 <= vsize v.
Proof. unfold vsize. lia. Qed.

(** ** Outcomes *)

Lemma bind_Ok_inv {A B : Type} (r : result A) (f : A -> result B) (b : B) :
  bind r f = Ok b -> exists a, r = Ok a /\ f a = Ok b.
Proof. destruct r; simpl; intros H; try discriminate. now exists a. Qed.

Ltac bind_inv H :=
  let a := fresh "a" in
  let Ha := fresh "Ha" in
  apply bind_Ok_inv in H; destruct H as (a & Ha & H).

(** ** Loops *)

Section LoopRules.
Context {S : Type}.
Variable cond : Z -> bool.
Variable next : Z -> result Z.
Variable body : Z -> S -> result S.
(** The value of the counter at the start of each iteration. *)
Variable idx : nat -> Z.
(** The number of iterations. *)
Variable m : nat.

Hypothesis cond_true : forall k, (k < m)%nat -> cond (idx k) = true.
Hypothesis next_idx :
  forall k, (k < m)%nat -> next (idx k) = Ok (idx (Datatypes.S k)).

(** A loop that runs [m] times and keeps an invariant returns a state
    that satisfies it. *)
Lemma iterate_invariant (Inv : nat -> S -> Prop) :
  cond (idx m) = false ->
  (forall k s, (k < m)%nat -> Inv k s ->
               exists s', body (idx k) s = Ok s' /\ Inv (Datatypes.S k) s') ->
  forall fuel k s, (k <= m)%nat -> (m - k < fuel)%nat -> Inv k s ->
  exists s', iterate fuel cond next body (idx k) s = Ok s' /\ Inv m s'.
Proof.
  intros Hexit Hbody fuel.
  induction fuel as [|fuel IH]; intros k s Hk Hfuel Hinv; [lia|].
  destruct (Nat.eq_dec k m) as [->|Hne].
  - simpl. rewrite Hexit. now exists s.
  - assert (Hlt : (k < m)%nat) by lia.
    destruct (Hbody k s Hlt Hinv) as (s' & Hb & Hinv').
    simpl. rewrite (cond_true k Hlt), Hb. simpl.
    rewrite (next_idx k Hlt). simpl.
    apply IH; [lia | lia | exact Hinv'].
Qed.

(** A loop whose body is undefined at iteration [m], whatever the state,
    is undefined. *)
Lemma iterate_undefined (Inv : nat -> S -> Prop) :
  cond (idx m) = true ->
  (forall s, body (idx m) s = Undefined) ->
  (forall k s, (k < m)%nat -> Inv k s ->
               exists s', body (idx k) s = Ok s' /\ Inv (Datatypes.S k) s') ->
  forall fuel k s, (k <= m)%nat -> (m - k < fuel)%nat -> Inv k s ->
  iterate fuel cond next body (idx k) s = Undefined.
Proof.
  intros Hlast Hundef Hbody fuel.
  induction fuel as [|fuel IH]; intros k s Hk Hfuel Hinv; [lia|].
  destruct (Nat.eq_dec k m) as [->|Hne].
  - simpl. now rewrite Hlast, Hundef.
  - assert (Hlt : (k < m)%nat) by lia.
    destruct (Hbody k s Hlt Hinv) as (s' & Hb & Hinv').
    simpl. rewrite (cond_true k Hlt), Hb. simpl.
    rewrite (next_idx k Hlt). simpl.
    apply IH; [lia | lia | exact Hinv'].
Qed.
End LoopRules.


(** A [uint] loop whose bound is reached exactly after [m] steps. *)
Lemma for_uint_invariant {S : Type} (start bound step : Z) (m : nat)
    (body : Z -> S -> result S) (Inv : nat -> S -> Prop) (s : S) :
  0 <= start -> 0 < step ->
  bound = counter start step m -> bound < UINT_MOD ->
  Inv O s ->
  (forall k s, (k < m)%nat -> Inv k s ->
     exists s', body (counter start step k) s = Ok s' /\ Inv (Datatypes.S k) s') ->
  exists s', for_uint start bound step body s = Ok s' /\ Inv m s'.
Proof.
  intros Hstart Hstep Hbound Hsmall Hinv Hbody.
  unfold for_uint.
  replace (iterate (Datatypes.S (Z.to_nat bound)) (fun i => i <? bound)
             (uint_step step) body start s)
    with (iterate (Datatypes.S (Z.to_nat bound)) (fun i => i <? bound)
            (uint_step step) body (counter start step 0) s)
    by (f_equal; unfold counter; lia).
  apply iterate_invariant
    with (idx := counter start step) (m := m) (Inv := Inv); auto.
  - intros k Hk. apply Z.ltb_lt. unfold counter in *. nia.
  - intros k Hk. unfold uint_step. f_equal.
    replace (counter start step k + step) with (counter start step (Datatypes.S k))
      by (unfold counter; lia).
    apply wrap_uint_small. unfold counter in *. nia.
  - apply Z.ltb_ge. lia.
  - lia.
  - unfold counter in *. nia.
Qed.

(** An [int] loop that stops at the first counter at or above its bound. *)
Lemma for_int_invariant {S : Type} (bound step : Z) (m : nat)
    (body : Z -> S -> result S) (Inv : nat -> S -> Prop) (s : S) :
  0 < step ->
  counter 0 step m - step < bound <= counter 0 step m ->
  counter 0 step m <= INT_MAX ->
  Inv O s ->
  (forall k s, (k < m)%nat -> Inv k s ->
     exists s', body (counter 0 step k) s = Ok s' /\ Inv (Datatypes.S k) s') ->
  exists s', for_int 0 bound step body s = Ok s' /\ Inv m s'.
Proof.
  intros Hstep Hbound Hsmall Hinv Hbody.
  unfold for_int.
  replace (iterate (Datatypes.S (Z.to_nat bound)) (fun j => j <? bound)
             (int_step step) body 0 s)
    with (iterate (Datatypes.S (Z.to_nat bound)) (fun j => j <? bound)
            (int_step step) body (counter 0 step 0) s)
    by (f_equal; unfold counter; lia).
  apply iterate_invariant
    with (idx := counter 0 step) (m := m) (Inv := Inv); auto.
  - intros k Hk. apply Z.ltb_lt. unfold counter in *. nia.
  - intros k Hk. unfold int_step.
    replace (counter 0 step k + step) with (counter 0 step (Datatypes.S k))
      by (unfold counter; lia).
    assert (H : (counter 0 step (Datatypes.S k) <=? INT_MAX) = true).
    { apply Z.leb_le. unfold counter in *. nia. }
    now rewrite H.
  - apply Z.ltb_ge. lia.
  - lia.
  - unfold counter in *. destruct m; [lia | nia].
Qed.

(** ** Vectors *)

Lemma vsize_app {A : Type} (P Q : list A) : vsize (P ++ Q) = vsize P + vsize Q.
Proof. unfold vsize. rewrite length_app. lia. Qed.

Lemma vsize_cons {A : Type} (x : A) (Q : list A) : vsize (x :: Q) = 1 + vsize Q.
Proof. unfold vsize. simpl length. lia. Qed.

Lemma vget_in_range {A : Type} (v : list A) (i : Z) :
  0 <= i < vsize v -> exists x, vget v i = Ok x /\ nth_error v (Z.to_nat i) = Some x.
Proof.
  intros H. unfold vget.
  assert (E : (0 <=? i) && (i <? vsize v) = true).
  { apply andb_true_iff. split; [apply Z.leb_le | apply Z.ltb_lt]; lia. }
  rewrite E.
  destruct (nth_error v (Z.to_nat i)) as [x|] eqn:Hn.
  - now exists x.
  - apply nth_error_None in Hn. unfold vsize in H. lia.
Qed.

Lemma vget_out_of_range {A : Type} (v : list A) (i : Z) :
  vsize v <= i -> vget v i = Undefined.
Proof.
  intros H. unfold vget.
  assert (E : (i <? vsize v) = false) by (apply Z.ltb_ge; lia).
  rewrite E, andb_false_r. reflexivity.
Qed.

(** A read either succeeds or is out of bounds. *)
Lemma vget_cases {A : Type} (v : list A) (i : Z) :
  (exists x, vget v i = Ok x) \/ vget v i = Undefined.
Proof.
  unfold vget.
  destruct ((0 <=? i) && (i <? vsize v)); [|now right].
  destruct (nth_error v (Z.to_nat i)); [left; eauto | now right].
Qed.

Lemma vget_Ok_range {A : Type} (v : list A) (i : Z) (x : A) :
  vget v i = Ok x -> 0 <= i < vsize v.
Proof.
  unfold vget.
  destruct ((0 <=? i) && (i <? vsize v)) eqn:E; [|discriminate].
  intros _. apply andb_true_iff in E. destruct E as [E1 E2].
  apply Z.leb_le in E1. apply Z.ltb_lt in E2. lia.
Qed.

Lemma vget_middle {A : Type} (P Q : list A) (x : A) (i : Z) :
  i = vsize P -> vget (P ++ x :: Q) i = Ok x.
Proof.
  intros ->.
  destruct (@vget_in_range A (P ++ x :: Q) (vsize P)) as (y & Hy & Hn).
  - rewrite vsize_app, vsize_cons.
    pose proof (vsize_nonneg P). pose proof (vsize_nonneg Q). lia.
  - rewrite Hy. f_equal.
    unfold vsize in Hn. rewrite Nat2Z.id, nth_error_app2 in Hn by lia.
    rewrite Nat.sub_diag in Hn. simpl in Hn. congruence.
Qed.

Lemma upd_middle {A : Type} (P Q : list A) (x y : A) :
  upd (P ++ x :: Q) (length P) y = P ++ y :: Q.
Proof. induction P as [|h P IH]; simpl; [reflexivity | now rewrite IH]. Qed.

Lemma length_upd {A : Type} (v : list A) (k : nat) (x : A) :
  length (upd v k x) = length v.
Proof.
  revert k. induction v as [|h v IH]; intros [|k]; simpl; auto.
Qed.

Lemma vset_middle {A : Type} (P Q : list A) (x y : A) (i : Z) :
  i = vsize P -> vset (P ++ x :: Q) i y = Ok (P ++ y :: Q).
Proof.
  intros ->. unfold vset.
  assert (E : (0 <=? vsize P) && (vsize P <? vsize (P ++ x :: Q)) = true).
  { apply andb_true_iff. rewrite vsize_app, vsize_cons.
    pose proof (vsize_nonneg P). pose proof (vsize_nonneg Q).
    split; [apply Z.leb_le | apply Z.ltb_lt]; lia. }
  rewrite E. unfold vsize. now rewrite Nat2Z.id, upd_middle.
Qed.

Lemma vset_Ok_size {A : Type} (v w : list A) (i : Z) (x : A) :
  vset v i x = Ok w -> vsize w = vsize v.
Proof.
  unfold vset. destruct ((0 <=? i) && (i <? vsize v)); [|discriminate].
  intros H. injection H as <-. unfold vsize. now rewrite length_upd.
Qed.

(** The three coordinates of the atom that starts at index [i]. *)
Lemma vget_atom {A : Type} (P Q : list A) (x y z : A) (i : Z) :
  i = vsize P ->
  vget (P ++ x :: y :: z :: Q) i = Ok x /\
  vget (P ++ x :: y :: z :: Q) (i + 1) = Ok y /\
  vget (P ++ x :: y :: z :: Q) (i + 2) = Ok z.
Proof.
  intros ->. split; [|split].
  - now apply vget_middle.
  - change (P ++ x :: y :: z :: Q) with (P ++ [x] ++ y :: z :: Q).
    rewrite app_assoc. apply vget_middle.
    rewrite vsize_app. unfold vsize. simpl. lia.
  - change (P ++ x :: y :: z :: Q) with (P ++ [x; y] ++ z :: Q).
    rewrite app_assoc. apply vget_middle.
    rewrite vsize_app. unfold vsize. simpl. lia.
Qed.

Lemma vset_atom_1 {A : Type} (P Q : list A) (x y z y' : A) (i : Z) :
  i = vsize P ->
  vset (P ++ x :: y :: z :: Q) (i + 1) y' = Ok (P ++ x :: y' :: z :: Q).
Proof.
  intros ->.
  change (P ++ x :: y :: z :: Q) with (P ++ [x] ++ y :: z :: Q).
  change (P ++ x :: y' :: z :: Q) with (P ++ [x] ++ y' :: z :: Q).
  rewrite !app_assoc. apply vset_middle.
  rewrite vsize_app. unfold vsize. simpl. lia.
Qed.

Lemma vset_atom_2 {A : Type} (P Q : list A) (x y z z' : A) (i : Z) :
  i = vsize P ->
  vset (P ++ x :: y :: z :: Q) (i + 2) z' = Ok (P ++ x :: y :: z' :: Q).
Proof.
  intros ->.
  change (P ++ x :: y :: z :: Q) with (P ++ [x; y] ++ z :: Q).
  change (P ++ x :: y :: z' :: Q) with (P ++ [x; y] ++ z' :: Q).
  rewrite !app_assoc. apply vset_middle.
  rewrite vsize_app. unfold vsize. simpl. lia.
Qed.

(** A vector of at least three more elements than a prefix of it. *)
Lemma split_atom {A : Type} (P Q : list A) (k n : Z) :
  vsize P = 3 * k -> vsize (P ++ Q) = 3 * n -> k < n ->
  exists x y z Q', Q = x :: y :: z :: Q'.
Proof.
  intros HP HPQ Hk. rewrite vsize_app in HPQ.
  destruct Q as [|x [|y [|z Q']]]; unfold vsize in *; simpl length in *; try lia.
  now exists x, y, z, Q'.
Qed.

(** ** Centering *)

Lemma axis_sum_app (a : nat) (P Q : vDouble) (k : nat) :
  length P = (3 * k)%nat ->
  axis_sum a (P ++ Q) = (axis_sum a P + axis_sum a Q)%R.
Proof.
  revert P. induction k as [|k IH]; intros P HP.
  - destruct P; [|discriminate]. simpl. lra.
  - destruct P as [|x [|y [|z P]]]; simpl in HP; try lia.
    change ((x :: y :: z :: P) ++ Q) with (x :: y :: z :: (P ++ Q)).
    cbn [axis_sum]. rewrite IH by lia. lra.
Qed.

Lemma translate_app (c : vec3) (P Q : vDouble) (k : nat) :
  length P = (3 * k)%nat ->
  translate c (P ++ Q) = translate c P ++ translate c Q.
Proof.
  revert P. induction k as [|k IH]; intros P HP.
  - destruct P; [|discriminate]. reflexivity.
  - destruct P as [|x [|y [|z P]]]; simpl in HP; try lia.
    change ((x :: y :: z :: P) ++ Q) with (x :: y :: z :: (P ++ Q)).
    cbn [translate]. destruct c as [[c0 c1] c2]. rewrite IH by lia. reflexivity.
Qed.

Lemma length_translate (c : vec3) (v : vDouble) :
  length (translate c v) = length v.
Proof.
  assert (H : forall k (v : vDouble), (length v <= k)%nat ->
                length (translate c v) = length v).
  { intros k. induction k as [|k IH]; intros w Hw.
    - destruct w; [reflexivity | simpl in Hw; lia].
    - destruct w as [|x [|y [|z w]]]; try reflexivity.
      cbn [translate]. destruct c as [[c0 c1] c2]. simpl length.
      rewrite IH; [reflexivity | simpl in Hw; lia]. }
  now apply (H (length v)).
Qed.

Lemma vsize_multiple_of_3 (n : Z) (v : vDouble) :
  vsize v = 3 * n -> length v = (3 * Z.to_nat n)%nat.
Proof. unfold vsize. lia. Qed.

(** The first loop of [centerAtOrigin] computes the three axis sums. *)
Lemma axis_totals_spec (v : vDouble) (n : Z) :
  vsize v = 3 * n -> vsize v < UINT_MOD ->
  axis_totals v = Ok (axis_sum 0 v, axis_sum 1 v, axis_sum 2 v).
Proof.
  intros Hlen Hsmall. pose proof (vsize_nonneg v) as Hpos.
  unfold axis_totals.
  destruct (@for_uint_invariant vec3 0 (vsize v) 3 (Z.to_nat n)
    (fun i (c : vec3) =>
       let '(c0, c1, c2) := c in
       x <- vget v i ;;
       y <- vget v (wrap_uint (i + 1)) ;;
       z <- vget v (wrap_uint (i + 2)) ;;
       Ok (c0 + x, c1 + y, c2 + z)%R)
    (fun k c => exists P Q, v = P ++ Q /\ vsize P = 3 * Z.of_nat k /\
                  c = (axis_sum 0 P, axis_sum 1 P, axis_sum 2 P))
    (0, 0, 0)%R) as (c & Hc & P & Q & Hv & HP & ->).
  - lia.
  - lia.
  - unfold counter. lia.
  - exact Hsmall.
  - exists [], v. repeat split. 
  - intros k c Hk (P & Q & Hv & HP & ->).
    assert (HQ : exists x y z Q', Q = x :: y :: z :: Q').
    { apply split_atom with (P := P) (k := Z.of_nat k) (n := n).
      - exact HP.
      - now rewrite <- Hv.
      - lia. }
    destruct HQ as (x & y & z & Q' & ->).
    assert (Hi : counter 0 3 k = vsize P) by (unfold counter; lia).
    assert (Hlt : counter 0 3 k + 2 < UINT_MOD).
    { rewrite Hv, vsize_app in Hsmall. unfold vsize in *. simpl length in *. lia. }
    destruct (@vget_atom _ P Q' x y z _ Hi) as (G0 & G1 & G2).
    rewrite !wrap_uint_small by (unfold counter in *; lia).
    rewrite Hv, G0, G1, G2. simpl.
    eexists. split; [reflexivity|].
    exists (P ++ [x; y; z]), Q'. split; [now rewrite <- app_assoc|]. split.
    + rewrite vsize_app. unfold vsize in *. simpl length. lia.
    + rewrite !(@axis_sum_app _ P [x; y; z] k) by (unfold vsize in HP; lia).
      simpl. now rewrite !Rplus_0_r.
  - rewrite Hc. f_equal.
    assert (Q = []).
    { rewrite Hv, vsize_app in Hlen. destruct Q; [reflexivity|].
      unfold vsize in *. simpl length in *. lia. }
    subst Q. rewrite app_nil_r in Hv. now subst P.
Qed.

(** The last loop of [centerAtOrigin] moves every atom by [-c]. *)
Lemma subtract_centroid_spec (c : vec3) (v : vDouble) (n : Z) :
  vsize v = 3 * n -> vsize v < UINT_MOD ->
  subtract_centroid c v = Ok (translate c v).
Proof.
  intros Hlen Hsmall. pose proof (vsize_nonneg v) as Hpos.
  destruct c as [[c0 c1] c2]. unfold subtract_centroid.
  destruct (@for_uint_invariant vDouble 0 (vsize v) 3 (Z.to_nat n)
    (fun i (w : vDouble) =>
       x <- vget w i ;;
       w <- vset w i (x - c0)%R ;;
       y <- vget w (wrap_uint (i + 1)) ;;
       w <- vset w (wrap_uint (i + 1)) (y - c1)%R ;;
       z <- vget w (wrap_uint (i + 2)) ;;
       vset w (wrap_uint (i + 2)) (z - c2)%R)
    (fun k w => exists P Q, v = P ++ Q /\ vsize P = 3 * Z.of_nat k /\
                  w = translate (c0, c1, c2) P ++ Q)
    v) as (w & Hw & P & Q & Hv & HP & ->).
  - lia.
  - lia.
  - unfold counter. lia.
  - exact Hsmall.
  - exists [], v. repeat split.
  - intros k w Hk (P & Q & Hv & HP & ->).
    assert (HQ : exists x y z Q', Q = x :: y :: z :: Q').
    { apply split_atom with (P := P) (k := Z.of_nat k) (n := n).
      - exact HP.
      - now rewrite <- Hv.
      - lia. }
    destruct HQ as (x & y & z & Q' & ->).
    set (P' := translate (c0, c1, c2) P).
    assert (Hi : counter 0 3 k = vsize P').
    { unfold counter, P', vsize. rewrite length_translate. unfold vsize in HP. lia. }
    assert (Hlt : counter 0 3 k + 2 < UINT_MOD).
    { rewrite Hv, vsize_app in Hsmall. unfold counter. unfold vsize in *.
      simpl length in *. lia. }
    assert (Hge : 0 <= counter 0 3 k) by (unfold counter; lia).
    rewrite !wrap_uint_small by lia.
    destruct (@vget_atom _ P' Q' x y z _ Hi) as (G0 & _ & _).
    rewrite G0. cbn [bind]. rewrite (@vset_middle _ P' _ x _ _ Hi). cbn [bind].
    destruct (@vget_atom _ P' Q' (x - c0)%R y z _ Hi) as (_ & G1 & _).
    rewrite G1. cbn [bind]. rewrite (@vset_atom_1 _ P' Q' _ y z _ _ Hi). cbn [bind].
    destruct (@vget_atom _ P' Q' (x - c0)%R (y - c1)%R z _ Hi) as (_ & _ & G2).
    rewrite G2. cbn [bind]. rewrite (@vset_atom_2 _ P' Q' _ _ z _ _ Hi).
    eexists. split; [reflexivity|].
    exists (P ++ [x; y; z]), Q'. split; [now rewrite <- app_assoc|]. split.
    + rewrite vsize_app. unfold vsize in *. simpl length. lia.
    + rewrite (@translate_app _ P [x; y; z] k) by (unfold vsize in HP; lia).
      rewrite <- app_assoc. reflexivity.
  - rewrite Hw. f_equal.
    assert (Q = []).
    { rewrite Hv, vsize_app in Hlen. destruct Q; [reflexivity|].
      unfold vsize in *. simpl length in *. lia. }
    subst Q. rewrite !app_nil_r in *. now subst P.
Qed.

Lemma axis_sum_translate (a : nat) (c0 c1 c2 : double) (k : nat) :
  forall v : vDouble,
    length v = (3 * k)%nat ->
    axis_sum a (translate (c0, c1, c2) v)
    = (axis_sum a v - INR k * nth a [c0; c1; c2] 0)%R.
Proof.
  induction k as [|k IH]; intros v Hv.
  - destruct v; [|discriminate]. simpl. lra.
  - destruct v as [|x [|y [|z v]]]; simpl in Hv; try lia.
    cbn [translate axis_sum]. rewrite IH by lia. rewrite S_INR.
    destruct a as [|[|[|a]]]; simpl; try lra.
    destruct a; lra.
Qed.

(** [centerAtOrigin] subtracts the centroid from every atom. *)
Lemma centerAtOrigin_spec (v : vDouble) (n : Z) :
  vsize v = 3 * n -> vsize v < UINT_MOD ->
  centerAtOrigin v = Ok (translate (centroid v) v).
Proof.
  intros Hlen Hsmall. unfold centerAtOrigin.
  rewrite (@axis_totals_spec v n Hlen Hsmall). cbn [bind].
  now apply subtract_centroid_spec with (n := n).
Qed.

(** After centering, the coordinates sum to zero along each axis. *)
Lemma centered_axis_sum (v : vDouble) (n : Z) (a : nat) :
  is_frame n v -> (a < 3)%nat ->
  axis_sum a (translate (centroid v) v) = 0%R.
Proof.
  intros (Hlen & Hn & _) Ha. unfold centroid.
  rewrite (@axis_sum_translate a _ _ _ (Z.to_nat n)) by (unfold vsize in Hlen; lia).
  rewrite Hlen, mult_IZR, INR_IZR_INZ, Z2Nat.id by lia.
  assert (Hn0 : IZR n <> 0%R) by (apply not_0_IZR; lia).
  destruct a as [|[|[|a]]]; [| | | exfalso; lia]; simpl; field; exact Hn0.
Qed.

(** [centerTrajectory] replaces every frame by its centered version. *)
Lemma centerTrajectory_spec (M : vMatrix) :
  vsize M < UINT_MOD ->
  Forall (fun v => exists n, is_frame n v) M ->
  centerTrajectory M = Ok (map (fun v => translate (centroid v) v) M).
Proof.
  intros Hsmall Hframes. pose proof (vsize_nonneg M) as Hpos.
  set (center := fun v : vDouble => translate (centroid v) v).
  unfold centerTrajectory.
  destruct (@for_uint_invariant vMatrix 0 (vsize M) 1 (length M)
    (fun i (M : vMatrix) =>
       v <- vget M i ;;
       v' <- centerAtOrigin v ;;
       vset M i v')
    (fun k M' => exists P Q, M = P ++ Q /\ length P = k /\
                   M' = map center P ++ Q)
    M) as (M' & HM' & P & Q & HM & HP & ->).
  - lia.
  - lia.
  - unfold counter, vsize. lia.
  - exact Hsmall.
  - exists [], M. repeat split.
  - intros k M' Hk (P & Q & HM & HP & ->).
    destruct Q as [|v Q].
    { rewrite app_nil_r in HM. subst P. lia. }
    assert (Hi : counter 0 1 k = vsize (map center P)).
    { unfold counter, vsize. rewrite length_map. lia. }
    rewrite (@vget_middle _ (map center P) Q v _ Hi). cbn [bind].
    assert (Hv : exists n, is_frame n v).
    { rewrite HM in Hframes. apply Forall_app in Hframes.
      destruct Hframes as [_ HQ]. now inversion HQ. }
    destruct Hv as (n & Hlen & _ & Hlt).
    rewrite (@centerAtOrigin_spec v n Hlen Hlt). cbn [bind].
    rewrite (@vset_middle _ (map center P) Q v _ _ Hi).
    eexists. split; [reflexivity|].
    exists (P ++ [v]), Q. split; [now rewrite <- app_assoc|]. split.
    + rewrite length_app. simpl. lia.
    + rewrite map_app, <- app_assoc. reflexivity.
  - rewrite HM'. f_equal.
    assert (Q = []).
    { apply (f_equal (@length _)) in HM. rewrite length_app in HM.
      destruct Q; [reflexivity | simpl in HM; lia]. }
    subst Q. rewrite !app_nil_r in *. now subst P.
Qed.

(** C6. Every frame of [3*n] doubles, [n > 0], is centered in place by
    [centerTrajectory], which applies [centerAtOrigin] to it once: the
    value subtracted along an axis is three times the sum of that axis
    over the length of the frame, and afterwards the coordinates sum to
    zero along each of the three axes (in exact arithmetic). *)
Theorem centering_zero_axis_sums (M : vMatrix) :
  vsize M < UINT_MOD ->
  Forall (fun v => exists n, is_frame n v) M ->
  exists M',
    centerTrajectory M = Ok M' /\
    length M' = length M /\
    forall (i : nat) (v : vDouble),
      nth_error M i = Some v ->
      exists v',
        nth_error M' i = Some v' /\
        centerAtOrigin v = Ok v' /\
        v' = translate (centroid v) v /\
        axis_sum 0 v' = 0%R /\ axis_sum 1 v' = 0%R /\ axis_sum 2 v' = 0%R.
Proof.
  intros Hsmall Hframes.
  exists (map (fun v => translate (centroid v) v) M).
  split; [now apply centerTrajectory_spec|].
  split; [apply length_map|].
  intros i v Hi.
  exists (translate (centroid v) v).
  assert (Hv : exists n, is_frame n v).
  { rewrite Forall_forall in Hframes. apply Hframes.
    eapply nth_error_In; eauto. }
  destruct Hv as (n & Hf).
  split; [now rewrite nth_error_map, Hi|].
  split.
  { destruct Hf as (Hlen & _ & Hlt). now apply centerAtOrigin_spec with (n := n). }
  split; [reflexivity|].
  repeat split; apply centered_axis_sum with (n := n); auto.
Qed.

Lemma centering_zero_axis_sums_witness :
  let M := [[1; 2; 3; 4; 5; 8]%R; [0; 0; 1]%R] in
  vsize M < UINT_MOD /\
  Forall (fun v => exists n, is_frame n v) M /\
  exists M',
    centerTrajectory M = Ok M' /\
    length M' = length M /\
    forall (i : nat) (v : vDouble),
      nth_error M i = Some v ->
      exists v',
        nth_error M' i = Some v' /\
        centerAtOrigin v = Ok v' /\
        v' = translate (centroid v) v /\
        axis_sum 0 v' = 0%R /\ axis_sum 1 v' = 0%R /\ axis_sum 2 v' = 0%R.
Proof.
  intros M.
  assert (H1 : vsize M < UINT_MOD) by reflexivity.
  assert (H2 : Forall (fun v => exists n, is_frame n v) M).
  { repeat constructor.
    - exists 2. repeat split.
    - exists 1. repeat split. }
  split; [exact H1|]. split; [exact H2|].
  exact (centering_zero_axis_sums M H1 H2).
Defined.

(** ** Superposition RMSD *)

Lemma vget_nth (v : vDouble) (i : Z) :
  0 <= i < vsize v -> vget v i = Ok (nth (Z.to_nat i) v 0%R).
Proof.
  intros H. destruct (vget_in_range v i H) as (x & Hx & Hn).
  rewrite Hx. f_equal. symmetry. now apply nth_error_nth.
Qed.

(** Reading coordinate [a] of atom [k]. *)
Lemma vget_coord (v : vDouble) (k : nat) (a : Z) :
  0 <= a < 3 -> 3 * Z.of_nat k + 3 <= vsize v ->
  vget v (3 * Z.of_nat k + a) = Ok (coord v k (Z.to_nat a)).
Proof.
  intros Ha Hk. rewrite vget_nth by lia. unfold coord. do 2 f_equal. lia.
Qed.


(** The first loop of [calcRMSD] computes the sums of squares per axis. *)
Lemma squared_norms_spec (u v : vDouble) (m : nat) :
  3 * Z.of_nat m <= vsize u -> 3 * Z.of_nat m <= vsize v ->
  3 * Z.of_nat m <= INT_MAX ->
  squared_norms (3 * Z.of_nat m) u v
  = Ok ((axis_squares u 0 m, axis_squares u 1 m, axis_squares u 2 m),
        (axis_squares v 0 m, axis_squares v 1 m, axis_squares v 2 m)).
Proof.
  intros Hu Hv Hmax. unfold squared_norms.
  destruct (@for_int_invariant (vec3 * vec3) (3 * Z.of_nat m) 3 m
    (fun j (acc : vec3 * vec3) =>
       let '((su0, su1, su2), (sv0, sv1, sv2)) := acc in
       a0 <- vget u (wrap_uint (j + 0)) ;;
       b0 <- vget v (wrap_uint (j + 0)) ;;
       a1 <- vget u (wrap_uint (j + 1)) ;;
       b1 <- vget v (wrap_uint (j + 1)) ;;
       a2 <- vget u (wrap_uint (j + 2)) ;;
       b2 <- vget v (wrap_uint (j + 2)) ;;
       Ok ((su0 + a0 * a0, su1 + a1 * a1, su2 + a2 * a2),
           (sv0 + b0 * b0, sv1 + b1 * b1, sv2 + b2 * b2))%R)
    (fun k acc =>
       acc = ((axis_squares u 0 k, axis_squares u 1 k, axis_squares u 2 k),
              (axis_squares v 0 k, axis_squares v 1 k, axis_squares v 2 k)))
    ((0, 0, 0), (0, 0, 0))%R) as (acc & Hacc & ->).
  - lia.
  - unfold counter. lia.
  - unfold counter. lia.
  - reflexivity.
  - intros k acc Hk ->.
    assert (Hj : counter 0 3 k = 3 * Z.of_nat k) by (unfold counter; lia).
    assert (Hw : forall a, 0 <= a < 3 ->
                   wrap_uint (counter 0 3 k + a) = 3 * Z.of_nat k + a).
    { intros a Ha. rewrite Hj. apply wrap_uint_small.
      unfold UINT_MOD, INT_MAX in *. lia. }
    rewrite !Hw by lia.
    rewrite !vget_coord by lia. cbn [bind].
    eexists. split; reflexivity.
  - exact Hacc.
Qed.

Lemma E0_of_axis_squares (u v : vDouble) (m : nat) :
  E0_of ((axis_squares u 0 m, axis_squares u 1 m, axis_squares u 2 m),
         (axis_squares v 0 m, axis_squares v 1 m, axis_squares v 2 m))
  = E0_spec u v m.
Proof.
  unfold E0_of, E0_spec, axis_squares.
  induction m as [|m IH]; simpl; [lra|].
  unfold sq_norm at 2 4. lra.
Qed.

Lemma gemm_entry_spec (u v : vDouble) (a b : Z) (m : nat) :
  0 <= a < 3 -> 0 <= b < 3 ->
  3 * Z.of_nat m <= vsize u -> 3 * Z.of_nat m <= vsize v ->
  gemm_entry u v a b m = Ok (cross_cov u v m (Z.to_nat a) (Z.to_nat b)).
Proof.
  intros Ha Hb. induction m as [|m IH]; intros Hu Hv; [reflexivity|].
  cbn [gemm_entry]. rewrite IH by lia. cbn [bind].
  replace (a + 3 * Z.of_nat m) with (3 * Z.of_nat m + a) by lia.
  replace (b + 3 * Z.of_nat m) with (3 * Z.of_nat m + b) by lia.
  rewrite !vget_coord by lia. reflexivity.
Qed.

Lemma dgemm_spec (u v : vDouble) (m : nat) :
  3 * Z.of_nat m <= vsize u -> 3 * Z.of_nat m <= vsize v ->
  dgemm (Z.of_nat m) u v = Ok (cov_matrix u v m).
Proof.
  intros Hu Hv. unfold dgemm.
  assert (E : (Z.of_nat m <? 0) = false) by (apply Z.ltb_ge; lia).
  rewrite E, Nat2Z.id.
  rewrite !gemm_entry_spec by lia. reflexivity.
Qed.


Lemma calcRMSD_value (dgesvj : svd_routine) (u v : vDouble) (m : nat) :
  vsize u = 3 * Z.of_nat m -> vsize u <= vsize v -> vsize u <= INT_MAX ->
  calcRMSD dgesvj u v = rmsd_outcome dgesvj u v m.
Proof.
  intros Hu Hv Hmax. unfold calcRMSD, rmsd_outcome.
  rewrite wrap_int_small by (pose proof (vsize_nonneg u); lia).
  rewrite Hu, squared_norms_spec by lia. cbn [bind].
  unfold int_div. rewrite Z.mul_comm, Z.quot_mul by lia.
  rewrite dgemm_spec by lia. cbn [bind].
  rewrite E0_of_axis_squares, <- INR_IZR_INZ. reflexivity.
Qed.

(** The first loop of [calcRMSD] leaves the vectors when the length of [u]
    is not a multiple of three or [v] is shorter than [u]. *)
Lemma squared_norms_undefined (u v : vDouble) :
  vsize u <= INT_MAX ->
  ~ (vsize u mod 3 = 0 /\ vsize u <= vsize v) ->
  squared_norms (vsize u) u v = Undefined.
Proof.
  intros Hmax Hbad.
  pose proof (vsize_nonneg u) as Hu0. pose proof (vsize_nonneg v) as Hv0.
  set (L := Z.min (vsize u) (vsize v)).
  set (q := Z.to_nat (L / 3)).
  assert (HqL : 3 * Z.of_nat q <= L < 3 * Z.of_nat q + 3).
  { unfold q. rewrite Z2Nat.id by (apply Z.div_pos; lia).
    pose proof (Z.div_mod L 3). pose proof (Z.mod_pos_bound L 3). lia. }
  assert (Hcond : 3 * Z.of_nat q < vsize u).
  { destruct (Z.le_gt_cases (vsize u) (vsize v)) as [Hle|Hgt].
    - assert (Hmod : vsize u mod 3 <> 0) by tauto.
      assert (L = vsize u) by (unfold L; lia).
      destruct (Z.eq_dec (3 * Z.of_nat q) (vsize u)) as [E|E]; [|lia].
      exfalso. apply Hmod. rewrite <- E, Z.mul_comm. apply Z.mod_mul. lia.
    - unfold L in HqL. lia. }
  unfold squared_norms, for_int.
  replace 0 with (counter 0 3 0) at 1 by reflexivity.
  unfold INT_MAX, UINT_MOD in *.
  apply iterate_undefined
    with (idx := counter 0 3) (m := q) (Inv := fun _ _ => True);
    unfold counter.
  - intros k Hk. apply Z.ltb_lt. lia.
  - intros k Hk. unfold int_step, INT_MAX.
    replace (0 + 3 * Z.of_nat k + 3) with (0 + 3 * Z.of_nat (Datatypes.S k)) by lia.
    assert (E : (0 + 3 * Z.of_nat (Datatypes.S k) <=? 2 ^ 31 - 1) = true)
      by (apply Z.leb_le; lia).
    now rewrite E.
  - apply Z.ltb_lt. lia.
  - intros [[[su0 su1] su2] [[sv0 sv1] sv2]].
    assert (Hw : forall a, 0 <= a < 3 ->
                   wrap_uint (0 + 3 * Z.of_nat q + a) = 3 * Z.of_nat q + a).
    { intros a Ha. apply wrap_uint_small. unfold UINT_MOD. lia. }
    rewrite !Hw by lia.
    assert (Hout : vget u (3 * Z.of_nat q + 2) = Undefined \/
                   vget v (3 * Z.of_nat q + 2) = Undefined).
    { unfold L in HqL.
      destruct (Z.le_gt_cases (vsize u) (vsize v)).
      - left. apply vget_out_of_range. lia.
      - right. apply vget_out_of_range. lia. }
    destruct (vget_cases u (3 * Z.of_nat q + 0)) as [[a0 ->]| ->]; [|reflexivity].
    destruct (vget_cases v (3 * Z.of_nat q + 0)) as [[b0 ->]| ->]; [|reflexivity].
    destruct (vget_cases u (3 * Z.of_nat q + 1)) as [[a1 ->]| ->]; [|reflexivity].
    destruct (vget_cases v (3 * Z.of_nat q + 1)) as [[b1 ->]| ->]; [|reflexivity].
    destruct Hout as [-> | Hout]; [reflexivity|].
    destruct (vget_cases u (3 * Z.of_nat q + 2)) as [[a2 ->]| ->]; [|reflexivity].
    now rewrite Hout.
  - intros k [[[su0 su1] su2] [[sv0 sv1] sv2]] Hk _.
    assert (Hw : forall a, 0 <= a < 3 ->
                   wrap_uint (0 + 3 * Z.of_nat k + a) = 3 * Z.of_nat k + a).
    { intros a Ha. apply wrap_uint_small. unfold UINT_MOD. lia. }
    rewrite !Hw by lia.
    unfold L in HqL.
    rewrite !vget_coord by lia. cbn [bind].
    eexists. split; [reflexivity | exact I].
  - lia.
  - lia.
  - exact I.
Qed.

(** Outside its contract [calcRMSD] is undefined. *)
Lemma calcRMSD_undefined (dgesvj : svd_routine) (u v : vDouble) :
  vsize u <= INT_MAX ->
  ~ (vsize u mod 3 = 0 /\ vsize u <= vsize v) ->
  calcRMSD dgesvj u v = Undefined.
Proof.
  intros Hmax Hbad. unfold calcRMSD.
  rewrite wrap_int_small by (pose proof (vsize_nonneg u); lia).
  now rewrite squared_norms_undefined.
Qed.

Lemma rmsd_outcome_defined (dgesvj : svd_routine) (u v : vDouble) (m : nat) :
  defined (rmsd_outcome dgesvj u v m).
Proof.
  unfold rmsd_outcome.
  destruct (dgesvj (cov_matrix u v m)) as [[[S0 S1] S2] info].
  destruct (negb (info =? 0)); exact I.
Qed.

Lemma multiple_of_3 (z : Z) :
  0 <= z -> z mod 3 = 0 -> z = 3 * Z.of_nat (Z.to_nat (z / 3)).
Proof.
  intros Hz Hmod. rewrite Z2Nat.id by (apply Z.div_pos; lia).
  pose proof (Z.div_mod z 3). lia.
Qed.

Lemma coord_app (v extra : vDouble) (k a : nat) :
  (3 * k + a < length v)%nat -> coord (v ++ extra) k a = coord v k a.
Proof. intros H. unfold coord. now apply app_nth1. Qed.

Lemma atom_sum_ext (f g : nat -> R) (n : nat) :
  (forall k, (k < n)%nat -> f k = g k) -> atom_sum f n = atom_sum g n.
Proof.
  induction n as [|n IH]; intros H; [reflexivity|].
  simpl. rewrite IH, H by (intros; try apply H; lia). reflexivity.
Qed.





(** *** No exception other than [NumericalError] *)


Lemma bind_no_throw {A B : Type} (r : result A) (f : A -> result B) :
  no_throw r -> (forall a, no_throw (f a)) -> no_throw (bind r f).
Proof.
  intros Hr Hf e. destruct r as [a|e'| |]; simpl; try discriminate.
  - apply Hf.
  - exfalso. now apply (Hr e').
Qed.

Lemma vget_no_throw {A : Type} (v : list A) (i : Z) : no_throw (vget v i).
Proof. intros e. destruct (vget_cases v i) as [[x ->]| ->]; discriminate. Qed.

Lemma iterate_no_throw {S : Type} (cond : Z -> bool) (next : Z -> result Z)
    (body : Z -> S -> result S) :
  (forall i s, no_throw (body i s)) -> (forall i, no_throw (next i)) ->
  forall fuel i s, no_throw (iterate fuel cond next body i s).
Proof.
  intros Hbody Hnext fuel.
  induction fuel as [|fuel IH]; intros i s; simpl; [discriminate|].
  destruct (cond i); [|discriminate].
  apply bind_no_throw; [apply Hbody|]. intros s'.
  apply bind_no_throw; [apply Hnext|]. intros i'. apply IH.
Qed.

Lemma squared_norms_no_throw (n : Z) (u v : vDouble) :
  no_throw (squared_norms n u v).
Proof.
  unfold squared_norms, for_int. apply iterate_no_throw.
  - intros i [[[su0 su1] su2] [[sv0 sv1] sv2]].
    repeat (apply bind_no_throw; [apply vget_no_throw | intros ?]).
    discriminate.
  - intros i. unfold int_step. destruct (i + 3 <=? INT_MAX); discriminate.
Qed.

Lemma gemm_entry_no_throw (u v : vDouble) (a b : Z) (k : nat) :
  no_throw (gemm_entry u v a b k).
Proof.
  induction k as [|k IH]; simpl; [discriminate|].
  apply bind_no_throw; [exact IH | intros ?].
  repeat (apply bind_no_throw; [apply vget_no_throw | intros ?]).
  discriminate.
Qed.

Lemma dgemm_no_throw (k : Z) (u v : vDouble) : no_throw (dgemm k u v).
Proof.
  unfold dgemm. destruct (k <? 0); [discriminate|].
  repeat (apply bind_no_throw; [apply gemm_entry_no_throw | intros ?]).
  discriminate.
Qed.

(** The only exception of [calcRMSD] is the [NumericalError] that carries
    the non-zero [info] of the SVD routine. *)
Lemma calcRMSD_throws (dgesvj : svd_routine) (u v : vDouble) (e : exn) :
  calcRMSD dgesvj u v = Throw e ->
  exists info, e = NumericalError info /\ info <> 0.
Proof.
  unfold calcRMSD.
  destruct (squared_norms (wrap_int (vsize u)) u v) as [ss|e'| |] eqn:Hss;
    simpl; try discriminate.
  2:{ exfalso. exact (squared_norms_no_throw _ _ _ e' Hss). }
  destruct (dgemm (int_div (wrap_int (vsize u)) 3) u v) as [R|e'| |] eqn:HR;
    simpl; try discriminate.
  2:{ exfalso. exact (dgemm_no_throw _ _ _ e' HR). }
  destruct (dgesvj R) as [[[S0 S1] S2] info].
  destruct (info =? 0) eqn:Hinfo; simpl; [discriminate|].
  intros H. injection H as <-. exists info. split; [reflexivity|].
  now apply Z.eqb_neq.
Qed.

(** C3 (amended). With no atoms [calcRMSD] raises no [InputError]: it
    reads nothing, hands the zero matrix to the SVD routine, raises the
    [NumericalError] of the routine if it reports one, and otherwise
    returns [sqrt (|0 - 2 (s0 + s1 + s2)| / 0)], a quotient by zero. No
    input at all makes [calcRMSD] raise [InputError]. *)
Theorem calcRMSD_no_atoms (dgesvj : svd_routine) (v : vDouble) :
  calcRMSD dgesvj [] v
  = (let '((S0, S1, S2), info) := dgesvj [0; 0; 0; 0; 0; 0; 0; 0; 0]%R in
     if negb (info =? 0) then Throw (NumericalError info)
     else Ok (sqrt (Rabs (0 - 2 * (S0 + S1 + S2)) / 0))) /\
  (forall u w : vDouble, calcRMSD dgesvj u w <> Throw InputError).
Proof.
  split.
  - rewrite (calcRMSD_value dgesvj [] v 0).
    + unfold rmsd_outcome, cov_matrix, cross_cov, E0_spec. cbn [atom_sum INR].
      now rewrite Rplus_0_l.
    + reflexivity.
    + apply (vsize_nonneg v).
    + unfold INT_MAX. cbn. lia.
  - intros u w H. apply calcRMSD_throws in H.
    destruct H as (info & H & _). discriminate.
Qed.

(** C3 as stated fails: on two empty vectors, with a routine that succeeds
    on the zero matrix, [calcRMSD] returns a value. *)
Lemma calcRMSD_no_atoms_returns :
  let dgesvj : svd_routine := fun _ => ((0, 0, 0)%R, 0) in
  calcRMSD dgesvj [] [] = Ok (sqrt (Rabs (0 - 2 * (0 + 0 + 0)) / 0)) /\
  calcRMSD dgesvj [] [] <> Throw InputError.
Proof.
  intros dgesvj.
  assert (H : calcRMSD dgesvj [] []
              = Ok (sqrt (Rabs (0 - 2 * (0 + 0 + 0)) / 0))).
  { rewrite (calcRMSD_value dgesvj [] [] 0).
    - unfold rmsd_outcome, dgesvj, E0_spec. cbn [atom_sum INR negb Z.eqb].
      now rewrite Rplus_0_l.
    - reflexivity.
    - reflexivity.
    - unfold INT_MAX. cbn. lia. }
  split; [exact H|]. rewrite H. discriminate.
Qed.

(** *** Bounds of the reads *)

Lemma rmsd_outcome_app (dgesvj : svd_routine) (u v extra : vDouble) (m : nat) :
  vsize v = 3 * Z.of_nat m ->
  rmsd_outcome dgesvj u (v ++ extra) m = rmsd_outcome dgesvj u v m.
Proof.
  intros Hv.
  assert (Hc : forall k a, (k < m)%nat -> (a < 3)%nat ->
                 coord (v ++ extra) k a = coord v k a).
  { intros k a Hk Ha. apply coord_app. unfold vsize in Hv. lia. }
  assert (Hcov : forall a b, (a < 3)%nat -> (b < 3)%nat ->
                   cross_cov u (v ++ extra) m a b = cross_cov u v m a b).
  { intros a b Ha Hb. unfold cross_cov. apply atom_sum_ext.
    intros k Hk. now rewrite Hc. }
  assert (HE : E0_spec u (v ++ extra) m = E0_spec u v m).
  { unfold E0_spec. f_equal. apply atom_sum_ext. intros k Hk.
    unfold sq_norm. now rewrite !Hc by lia. }
  unfold rmsd_outcome, cov_matrix. rewrite HE, !Hcov by lia. reflexivity.
Qed.

(** C9 (amended). For a vector [u] whose length fits the [int] that
    holds it, every element access of [calcRMSD] is in bounds if and only
    if the length of [u] is a multiple of three and [v] is at least as
    long as [u]. The lengths are never compared: whatever follows the
    first [|u|] elements of [v] is ignored. *)
Theorem calcRMSD_in_bounds (dgesvj : svd_routine) (u v : vDouble) :
  vsize u <= INT_MAX ->
  (defined (calcRMSD dgesvj u v)
   <-> vsize u mod 3 = 0 /\ vsize u <= vsize v) /\
  (vsize u mod 3 = 0 -> vsize v = vsize u ->
   forall extra : vDouble,
     calcRMSD dgesvj u (v ++ extra) = calcRMSD dgesvj u v).
Proof.
  intros Hmax. pose proof (vsize_nonneg u) as Hu0.
  split; [split|].
  - intros Hdef.
    destruct (Z.eq_dec (vsize u mod 3) 0) as [Hmod|Hmod];
      [destruct (Z.le_gt_cases (vsize u) (vsize v)) as [Hle|Hgt]|].
    + now split.
    + rewrite calcRMSD_undefined in Hdef by (auto; lia). contradiction.
    + rewrite calcRMSD_undefined in Hdef by (auto; tauto). contradiction.
  - intros [Hmod Hle].
    rewrite (calcRMSD_value dgesvj u v (Z.to_nat (vsize u / 3)));
      [apply rmsd_outcome_defined | now apply multiple_of_3 | exact Hle | exact Hmax].
  - intros Hmod Hlen extra.
    pose proof (multiple_of_3 (vsize u) Hu0 Hmod) as Hm.
    rewrite (calcRMSD_value dgesvj u (v ++ extra) (Z.to_nat (vsize u / 3)));
      [| exact Hm | rewrite vsize_app; pose proof (vsize_nonneg extra); lia
       | exact Hmax].
    rewrite (calcRMSD_value dgesvj u v (Z.to_nat (vsize u / 3)));
      [| exact Hm | lia | exact Hmax].
    apply rmsd_outcome_app. lia.
Qed.

Lemma calcRMSD_in_bounds_witness :
  let dgesvj : svd_routine := fun _ => ((4, 0, 0)%R, 0) in
  let u := [1; 0; 0; -1; 0; 0]%R in
  let v := [0; 2; 0; 0; -2; 0]%R in
  vsize u <= INT_MAX /\
  (defined (calcRMSD dgesvj u v)
   <-> vsize u mod 3 = 0 /\ vsize u <= vsize v) /\
  (vsize u mod 3 = 0 -> vsize v = vsize u ->
   forall extra : vDouble,
     calcRMSD dgesvj u (v ++ extra) = calcRMSD dgesvj u v).
Proof.
  intros dgesvj u v.
  assert (H : vsize u <= INT_MAX) by (vm_compute; discriminate).
  split; [exact H|].
  exact (calcRMSD_in_bounds dgesvj u v H).
Defined.

(** C9 as stated fails: [v] is longer than [u], and yet [calcRMSD] reads
    [u[1]] in a vector of one element. *)
Lemma calcRMSD_reads_past_u :
  let dgesvj : svd_routine := fun _ => ((0, 0, 0)%R, 0) in
  let u := [1]%R in
  let v := [1; 2; 3]%R in
  vsize u <= vsize v /\ vget u 1 = Undefined /\
  calcRMSD dgesvj u v = Undefined /\ ~ defined (calcRMSD dgesvj u v).
Proof.
  intros dgesvj u v.
  assert (H : calcRMSD dgesvj u v = Undefined).
  { apply calcRMSD_undefined.
    - vm_compute. discriminate.
    - intros [Hmod _]. vm_compute in Hmod. discriminate. }
  split; [vm_compute; discriminate|].
  split; [reflexivity|].
  split; [exact H|]. rewrite H. intros [].
Qed.

(** *** Symmetry *)

Lemma E0_spec_sym (u v : vDouble) (n : nat) : E0_spec u v n = E0_spec v u n.
Proof. unfold E0_spec. apply Rplus_comm. Qed.

Lemma cross_cov_sym (u v : vDouble) (n a b : nat) :
  cross_cov v u n a b = cross_cov u v n b a.
Proof.
  unfold cross_cov. apply atom_sum_ext. intros k _. apply Rmult_comm.
Qed.

(** Swapping the arguments transposes the cross-covariance matrix. *)
Lemma cov_matrix_sym (u v : vDouble) (n : nat) :
  cov_matrix v u n = transpose3 (cov_matrix u v n).
Proof.
  unfold cov_matrix, transpose3, entry. cbn [nth Nat.add Nat.mul].
  now rewrite !(cross_cov_sym u v).
Qed.

(** A matrix and its transpose have the same Gram coefficients. *)
Lemma gram_transpose (m : list R) :
  gram_trace (transpose3 m) = gram_trace m /\
  gram_minors (transpose3 m) = gram_minors m /\
  gram_det (transpose3 m) = gram_det m.
Proof.
  unfold gram_trace, gram_minors, gram_det, gram.
  repeat match goal with
         | |- context [entry (transpose3 m) ?a ?b] =>
             change (entry (transpose3 m) a b) with (entry m b a)
         end.
  repeat split; ring.
Qed.

(** Three non-negative numbers in decreasing order are determined by
    their elementary symmetric functions. *)
Lemma sorted_roots_unique (x0 x1 x2 y0 y1 y2 : R) :
  (0 <= x2 <= x1)%R -> (x1 <= x0)%R -> (0 <= y2 <= y1)%R -> (y1 <= y0)%R ->
  (x0 + x1 + x2 = y0 + y1 + y2)%R ->
  (x0 * x1 + x0 * x2 + x1 * x2 = y0 * y1 + y0 * y2 + y1 * y2)%R ->
  (x0 * x1 * x2 = y0 * y1 * y2)%R ->
  x0 = y0 /\ x1 = y1 /\ x2 = y2.
Proof.
  intros Hx Hx' Hy Hy' E1 E2 E3.
  assert (Px : ((x0 - y0) * ((x0 - y1) * (x0 - y2)) = 0)%R).
  { replace ((x0 - y0) * ((x0 - y1) * (x0 - y2)))%R
      with (x0 * x0 * x0 - (y0 + y1 + y2) * (x0 * x0)
            + (y0 * y1 + y0 * y2 + y1 * y2) * x0 - y0 * y1 * y2)%R by ring.
    rewrite <- E1, <- E2, <- E3. ring. }
  assert (Py : ((y0 - x0) * ((y0 - x1) * (y0 - x2)) = 0)%R).
  { replace ((y0 - x0) * ((y0 - x1) * (y0 - x2)))%R
      with (y0 * y0 * y0 - (x0 + x1 + x2) * (y0 * y0)
            + (x0 * x1 + x0 * x2 + x1 * x2) * y0 - x0 * x1 * x2)%R by ring.
    rewrite E1, E2, E3. ring. }
  assert (H0 : x0 = y0).
  { apply Rle_antisym.
    - apply Rmult_integral in Px. destruct Px as [Px|Px]; [lra|].
      apply Rmult_integral in Px. destruct Px; lra.
    - apply Rmult_integral in Py. destruct Py as [Py|Py]; [lra|].
      apply Rmult_integral in Py. destruct Py; lra. }
  subst y0. split; [reflexivity|].
  assert (S1 : (x1 + x2 = y1 + y2)%R) by lra.
  assert (S2 : (x1 * x2 = y1 * y2)%R) by nra.
  assert (Qx : ((x1 - y1) * (x1 - y2) = 0)%R).
  { replace ((x1 - y1) * (x1 - y2))%R
      with (x1 * x1 - (y1 + y2) * x1 + y1 * y2)%R by ring.
    rewrite <- S1, <- S2. ring. }
  assert (Qy : ((y1 - x1) * (y1 - x2) = 0)%R).
  { replace ((y1 - x1) * (y1 - x2))%R
      with (y1 * y1 - (x1 + x2) * y1 + x1 * x2)%R by ring.
    rewrite S1, S2. ring. }
  assert (H1 : x1 = y1).
  { apply Rle_antisym.
    - apply Rmult_integral in Qx. destruct Qx; lra.
    - apply Rmult_integral in Qy. destruct Qy; lra. }
  split; lra.
Qed.

Lemma square_inj (a b : R) : (0 <= a)%R -> (0 <= b)%R -> (a * a = b * b)%R -> a = b.
Proof.
  intros Ha Hb H.
  assert (E : ((a - b) * (a + b) = 0)%R) by (ring_simplify; lra).
  apply Rmult_integral in E. destruct E; lra.
Qed.

(** The singular values of a matrix are determined by its Gram
    coefficients. *)
Lemma singular_values_unique (m m' : list R) (s s' : vec3) :
  gram_trace m' = gram_trace m -> gram_minors m' = gram_minors m ->
  gram_det m' = gram_det m ->
  singular_values m s -> singular_values m' s' -> s = s'.
Proof.
  intros Ht Hm Hd.
  destruct s as [[a0 a1] a2], s' as [[b0 b1] b2]. unfold singular_values.
  intros (A2 & A1 & A0 & At & Am & Ad) (B2 & B1 & B0 & Bt & Bm & Bd).
  rewrite Ht in Bt. rewrite Hm in Bm. rewrite Hd in Bd.
  destruct (sorted_roots_unique (a0 * a0) (a1 * a1) (a2 * a2)
              (b0 * b0) (b1 * b1) (b2 * b2)) as (E0 & E1 & E2);
    try nra.
  apply square_inj in E0, E1, E2; try lra.
  now subst.
Qed.



(** ** Loops as traversals *)

Lemma iterate_foldM {S : Type} (cond : Z -> bool) (next : Z -> result Z)
    (body : Z -> S -> result S) (idx : nat -> Z) (m : nat) :
  (forall k, (k < m)%nat -> cond (idx k) = true) ->
  cond (idx m) = false ->
  (forall k, (k < m)%nat -> next (idx k) = Ok (idx (Datatypes.S k))) ->
  forall fuel k s, (k <= m)%nat -> (m - k < fuel)%nat ->
    iterate fuel cond next body (idx k) s
    = foldM body (map idx (seq k (m - k))) s.
Proof.
  intros Htrue Hexit Hnext fuel.
  induction fuel as [|fuel IH]; intros k s Hk Hfuel; [lia|].
  destruct (Nat.eq_dec k m) as [->|Hne].
  - rewrite Nat.sub_diag. simpl. now rewrite Hexit.
  - assert (Hlt : (k < m)%nat) by lia.
    replace (m - k)%nat with (Datatypes.S (m - Datatypes.S k)) by lia.
    simpl. rewrite (Htrue k Hlt).
    destruct (body (idx k) s) as [s'|e| |]; simpl; try reflexivity.
    rewrite (Hnext k Hlt). simpl. apply IH; lia.
Qed.

Lemma for_uint_foldM {S : Type} (start bound step : Z) (m : nat)
    (body : Z -> S -> result S) (s : S) :
  0 <= start -> 0 < step ->
  bound = counter start step m -> bound < UINT_MOD ->
  for_uint start bound step body s
  = foldM body (map (counter start step) (seq 0 m)) s.
Proof.
  intros Hstart Hstep Hbound Hsmall. unfold for_uint.
  replace (iterate (Datatypes.S (Z.to_nat bound)) (fun i => i <? bound)
             (uint_step step) body start s)
    with (iterate (Datatypes.S (Z.to_nat bound)) (fun i => i <? bound)
            (uint_step step) body (counter start step 0) s)
    by (f_equal; unfold counter; lia).
  rewrite (iterate_foldM (fun i => i <? bound) (uint_step step) body
             (counter start step) m).
  - now rewrite Nat.sub_0_r.
  - intros k Hk. apply Z.ltb_lt. unfold counter in *. nia.
  - apply Z.ltb_ge. lia.
  - intros k Hk. unfold uint_step. f_equal.
    replace (counter start step k + step) with (counter start step (Datatypes.S k))
      by (unfold counter; lia).
    apply wrap_uint_small. unfold counter in *. nia.
  - lia.
  - unfold counter in *. nia.
Qed.

(** A loop whose bound is not above its start does nothing. *)
Lemma for_uint_empty {S : Type} (start bound step : Z)
    (body : Z -> S -> result S) (s : S) :
  bound <= start -> for_uint start bound step body s = Ok s.
Proof.
  intros H. unfold for_uint. simpl.
  assert (E : (start <? bound) = false) by (apply Z.ltb_ge; lia).
  now rewrite E.
Qed.

Lemma foldM_app {S I : Type} (f : I -> S -> result S) (l1 l2 : list I) (s : S) :
  foldM f (l1 ++ l2) s = (s' <- foldM f l1 s ;; foldM f l2 s').
Proof.
  revert s. induction l1 as [|i l1 IH]; intros s; simpl; [reflexivity|].
  destruct (f i s); simpl; auto.
Qed.

Lemma foldM_ext {S I : Type} (f g : I -> S -> result S) (l : list I) (s : S) :
  (forall i s, In i l -> f i s = g i s) -> foldM f l s = foldM g l s.
Proof.
  revert s. induction l as [|i l IH]; intros s H; simpl; [reflexivity|].
  rewrite (H i s) by now left.
  destruct (g i s); simpl; auto. apply IH. intros j t Hj. apply H. now right.
Qed.

Lemma foldM_map {S I J : Type} (f : J -> S -> result S) (h : I -> J)
    (l : list I) (s : S) :
  foldM f (map h l) s = foldM (fun i => f (h i)) l s.
Proof.
  revert s. induction l as [|i l IH]; intros s; simpl; [reflexivity|].
  destruct (f (h i) s); simpl; auto.
Qed.

Lemma foldM_flat_map {S I J : Type} (f : J -> S -> result S) (g : I -> list J)
    (l : list I) (s : S) :
  foldM f (flat_map g l) s = foldM (fun i s => foldM f (g i) s) l s.
Proof.
  revert s. induction l as [|i l IH]; intros s; simpl; [reflexivity|].
  rewrite foldM_app. destruct (foldM f (g i) s); simpl; auto.
Qed.

(** ** The pair loop *)

(** The two nested loops of [rmsds] visit the pairs of the schedule. *)
Lemma rmsds_run_foldM (dgesvj : svd_routine) (M : vMatrix) (log : list event) :
  vsize M < UINT_MOD ->
  rmsds_run dgesvj M log
  = (st <- foldM (rmsds_step dgesvj M) (schedule (length M))
             (rmsds_init (vsize M) log) ;;
     Ok (mkState (st_R st) (pc_finish (st_slayer st)) (st_log st))).
Proof.
  intros Hsmall. pose proof (vsize_nonneg M) as Hpos.
  unfold rmsds_run. rewrite wrap_uint_small by lia.
  fold (rmsds_init (vsize M) log).
  f_equal.
  destruct (length M) as [|n] eqn:Hn.
  - unfold vsize. rewrite Hn. reflexivity.
  - rewrite (for_uint_foldM 1 (vsize M) 1 n) by (unfold counter, vsize in *; lia).
    unfold schedule. rewrite foldM_flat_map.
    change (seq 0 (Datatypes.S n)) with (0%nat :: seq 1 n).
    cbn [foldM]. unfold row_prefix at 1. cbn [seq map foldM bind].
    rewrite <- seq_shift, !foldM_map.
    apply foldM_ext. intros j st Hj. apply in_seq in Hj.
    assert (Hc : counter 1 1 j = Z.of_nat (Datatypes.S j)) by (unfold counter; lia).
    rewrite Hc.
    rewrite (for_uint_foldM 0 (Z.of_nat (Datatypes.S j)) 1 (Datatypes.S j))
      by (unfold counter, vsize in *; lia).
    unfold row_prefix. rewrite !foldM_map.
    apply foldM_ext. intros i st' Hi. unfold rmsds_step. cbn [fst snd].
    f_equal. unfold counter. lia.
Qed.

Lemma row_prefix_S (j k : nat) :
  row_prefix j (Datatypes.S k) = row_prefix j k ++ [(Z.of_nat j, Z.of_nat k)].
Proof. unfold row_prefix. now rewrite seq_S, map_app. Qed.

Lemma schedule_S (n : nat) :
  schedule (Datatypes.S n) = schedule n ++ row_prefix n n.
Proof.
  unfold schedule. rewrite seq_S, flat_map_app. simpl. now rewrite app_nil_r.
Qed.

(** The schedule holds exactly the pairs [(j, i)] with [0 <= i < j < n]. *)
Lemma In_schedule (n : nat) (j i : Z) :
  In (j, i) (schedule n) <-> 0 <= i < j /\ j < Z.of_nat n.
Proof.
  unfold schedule, row_prefix. rewrite in_flat_map. split.
  - intros (j' & Hj' & H). apply in_map_iff in H.
    destruct H as (i' & E & Hi'). injection E as <- <-.
    apply in_seq in Hj'. apply in_seq in Hi'. lia.
  - intros [Hi Hj]. exists (Z.to_nat j). split; [apply in_seq; lia|].
    apply in_map_iff. exists (Z.to_nat i). split; [f_equal; lia|].
    apply in_seq. lia.
Qed.

Lemma length_row_prefix (j k : nat) : length (row_prefix j k) = k.
Proof. unfold row_prefix. now rewrite length_map, length_seq. Qed.

(** The schedule of [n] frames holds [n (n-1) / 2] pairs. *)
Lemma length_schedule (n : nat) :
  Z.of_nat (length (schedule n)) = Z.of_nat n * (Z.of_nat n - 1) / 2.
Proof.
  assert (H : 2 * Z.of_nat (length (schedule n)) = Z.of_nat n * (Z.of_nat n - 1)).
  { induction n as [|n IH]; [reflexivity|].
    rewrite schedule_S, length_app, length_row_prefix. lia. }
  rewrite <- H, Z.mul_comm, Z.div_mul; lia.
Qed.

Lemma NoDup_map_injective {A B : Type} (f : A -> B) (l : list A) :
  (forall x y, f x = f y -> x = y) -> NoDup l -> NoDup (map f l).
Proof.
  intros Hinj Hl. induction Hl as [|x l Hx Hl IH]; simpl; constructor; auto.
  rewrite in_map_iff. intros (y & E & Hy). apply Hinj in E. now subst.
Qed.

Lemma NoDup_row_prefix (j k : nat) : NoDup (row_prefix j k).
Proof.
  unfold row_prefix. apply NoDup_map_injective; [|apply seq_NoDup].
  intros a b E. injection E as E. lia.
Qed.

(** No pair is visited twice. *)
Lemma NoDup_schedule (n : nat) : NoDup (schedule n).
Proof.
  induction n as [|n IH]; [constructor|].
  rewrite schedule_S. apply NoDup_app; [exact IH | apply NoDup_row_prefix |].
  intros [j i] Hin Hrow. apply In_schedule in Hin.
  unfold row_prefix in Hrow. apply in_map_iff in Hrow.
  destruct Hrow as (i' & E & _). injection E as E _. lia.
Qed.

(** *** Traversals keep invariants *)

Lemma foldM_invariant {S I : Type} (f : I -> S -> result S)
    (Inv : list I -> S -> Prop) (l : list I) :
  (forall done p rest s s',
      l = done ++ p :: rest -> Inv done s -> f p s = Ok s' ->
      Inv (done ++ [p]) s') ->
  forall s0 s, Inv [] s0 -> foldM f l s0 = Ok s -> Inv l s.
Proof.
  intros Hstep.
  assert (G : forall rest done s0 s,
             l = done ++ rest -> Inv done s0 -> foldM f rest s0 = Ok s -> Inv l s).
  { induction rest as [|p rest IH]; intros done s0 s Hl Hinv Hrun.
    - simpl in Hrun. injection Hrun as <-. rewrite app_nil_r in Hl. now subst.
    - simpl in Hrun. bind_inv Hrun.
      apply (IH (done ++ [p]) a s).
      + now rewrite <- app_assoc.
      + now apply (Hstep done p rest s0 a).
      + exact Hrun. }
  intros s0 s Hinv Hrun. now apply (G l [] s0 s).
Qed.

Lemma foldM_total {S I : Type} (f : I -> S -> result S)
    (Inv : list I -> S -> Prop) (l : list I) :
  (forall done p rest s,
      l = done ++ p :: rest -> Inv done s ->
      exists s', f p s = Ok s' /\ Inv (done ++ [p]) s') ->
  forall s0, Inv [] s0 -> exists s, foldM f l s0 = Ok s /\ Inv l s.
Proof.
  intros Hstep.
  assert (G : forall rest done s0,
             l = done ++ rest -> Inv done s0 ->
             exists s, foldM f rest s0 = Ok s /\ Inv l s).
  { induction rest as [|p rest IH]; intros done s0 Hl Hinv.
    - exists s0. rewrite app_nil_r in Hl. subst. now split.
    - destruct (Hstep done p rest s0 Hl Hinv) as (s' & Hf & Hinv').
      simpl. rewrite Hf. simpl.
      apply (IH (done ++ [p]) s'); [now rewrite <- app_assoc | exact Hinv']. }
  intros s0 Hinv. now apply (G l [] s0).
Qed.

(** *** The invariant of the pair loop *)

Lemma in_matrix_true (m : RealMatrix) (j i : Z) :
  0 <= j < rows m -> 0 <= i < cols m -> in_matrix m j i = true.
Proof.
  intros Hj Hi. unfold in_matrix.
  repeat (apply andb_true_iff; split);
    try apply Z.leb_le; try apply Z.ltb_lt; lia.
Qed.

Lemma mset_in (m : RealMatrix) (j i : Z) (x : R) :
  in_matrix m j i = true ->
  mset m j i x
  = Ok (mkMatrix (rows m) (cols m)
          (fun j' i' => if (j' =? j) && (i' =? i) then x else cell m j' i')).
Proof. intros H. unfold mset. now rewrite H. Qed.

Lemma mget_in (m : RealMatrix) (j i : Z) :
  in_matrix m j i = true -> mget m j i = Ok (cell m j i).
Proof. intros H. unfold mget. now rewrite H. Qed.

(** One iteration, given the RMSD of the pair. *)
Lemma rmsds_pair_value (dgesvj : svd_routine) (M : vMatrix) (j i : Z) (d : R)
    (st : rmsds_state) :
  0 <= j < rows (st_R st) -> 0 <= i < cols (st_R st) ->
  0 <= i < rows (st_R st) -> 0 <= j < cols (st_R st) ->
  pair_rmsd dgesvj M j i = Ok d ->
  rmsds_pair dgesvj M j i st
  = Ok (mkState
          (mkMatrix (rows (st_R st)) (cols (st_R st))
             (fun a b =>
                if (a =? i) && (b =? j) then d
                else if (a =? j) && (b =? i) then d
                else cell (st_R st) a b))
          (pc_update (st_slayer st))
          (st_log st ++ pair_events (j, i))).
Proof.
  intros Hj Hi Hi' Hj' Hd. unfold pair_rmsd in Hd. unfold rmsds_pair.
  destruct (vget M j) as [mj| | |]; try discriminate. cbn [bind] in *.
  destruct (vget M i) as [mi| | |]; try discriminate. cbn [bind] in *.
  rewrite Hd. cbn [bind].
  rewrite mset_in by now apply in_matrix_true. cbn [bind].
  rewrite mget_in by (apply in_matrix_true; cbn [rows cols]; assumption).
  cbn [bind cell]. rewrite !Z.eqb_refl. cbn [andb].
  rewrite mset_in by (apply in_matrix_true; cbn [rows cols]; assumption).
  reflexivity.
Qed.

(** An iteration that succeeds has computed the RMSD of its pair. *)
Lemma rmsds_pair_Ok (dgesvj : svd_routine) (M : vMatrix) (j i : Z)
    (st st' : rmsds_state) :
  rmsds_pair dgesvj M j i st = Ok st' -> exists d, pair_rmsd dgesvj M j i = Ok d.
Proof.
  unfold rmsds_pair, pair_rmsd. intros H.
  destruct (vget M j) as [mj| | |]; try discriminate. cbn [bind] in *.
  destruct (vget M i) as [mi| | |]; try discriminate. cbn [bind] in *.
  destruct (calcRMSD dgesvj mj mi) as [d| | |]; try discriminate. now exists d.
Qed.

Lemma rmsds_inv_step (dgesvj : svd_routine) (M : vMatrix) (log0 : list event)
    (done : list (Z * Z)) (j i : Z) (d : R) (st : rmsds_state) :
  rmsds_inv dgesvj M log0 done st ->
  0 <= i < j -> j < vsize M ->
  ~ In (j, i) done -> ~ In (i, j) done ->
  pair_rmsd dgesvj M j i = Ok d ->
  exists st', rmsds_pair dgesvj M j i st = Ok st' /\
              rmsds_inv dgesvj M log0 (done ++ [(j, i)]) st'.
Proof.
  intros (Hrows & Hcols & Hlog & Hslayer & Hcells & Hzero) Hij Hj Hnew Hnew' Hd.
  eexists. split.
  { apply rmsds_pair_value with (d := d); try exact Hd; lia. }
  unfold rmsds_inv. cbn [st_R st_slayer st_log rows cols cell].
  split; [exact Hrows|]. split; [exact Hcols|].
  split. { now rewrite Hlog, flat_map_app, <- app_assoc. }
  split. { rewrite Hslayer. unfold pc_update. cbn [pc_fraction pc_total pc_count].
           f_equal. rewrite length_app. simpl. lia. }
  split.
  - intros j' i' Hin. apply in_app_or in Hin. destruct Hin as [Hin|Hin].
    + assert (N1 : (j', i') <> (j, i)) by (intros E; now rewrite E in Hin).
      assert (N2 : (j', i') <> (i, j)) by (intros E; now rewrite E in Hin).
      destruct (Hcells j' i' Hin) as [Hv Hs].
      destruct (Z.eqb_spec j' i), (Z.eqb_spec i' j), (Z.eqb_spec j' j),
        (Z.eqb_spec i' i); cbn [andb]; subst; try congruence; now split.
    + destruct Hin as [E|[]]. injection E as <- <-.
      rewrite !Z.eqb_refl. cbn [andb].
      destruct (Z.eqb_spec j i); [lia|]. cbn [andb]. simpl. now split.
  - intros a b Ha Hb.
    assert (N1 : (a, b) <> (j, i)) by (intros E; apply Ha, in_or_app; right; now left).
    assert (N2 : (b, a) <> (j, i)) by (intros E; apply Hb, in_or_app; right; now left).
    assert (T1 : (a =? i) && (b =? j) = false).
    { destruct (Z.eqb_spec a i), (Z.eqb_spec b j); cbn [andb]; try reflexivity.
      subst. now elim N2. }
    assert (T2 : (a =? j) && (b =? i) = false).
    { destruct (Z.eqb_spec a j), (Z.eqb_spec b i); cbn [andb]; try reflexivity.
      subst. now elim N1. }
    rewrite T1, T2.
    apply Hzero; intros Hin; [apply Ha | apply Hb]; apply in_or_app; now left.
Qed.

Lemma rmsds_inv_init (dgesvj : svd_routine) (M : vMatrix) (log : list event) :
  rmsds_inv dgesvj M log [] (rmsds_init (vsize M) log).
Proof.
  unfold rmsds_inv, rmsds_init. cbn [st_R st_slayer st_log new_matrix rows cols cell].
  split; [reflexivity|]. split; [reflexivity|].
  split; [now rewrite app_nil_r|]. split; [reflexivity|].
  split; [intros j i []|reflexivity].
Qed.

(** Where a pair of the schedule stands with respect to the pairs done
    before it. *)
Lemma schedule_next (n : nat) (done rest : list (Z * Z)) (j i : Z) :
  schedule n = done ++ (j, i) :: rest ->
  0 <= i < j /\ j < Z.of_nat n /\ ~ In (j, i) done /\ ~ In (i, j) done.
Proof.
  intros H.
  assert (Hin : In (j, i) (schedule n)) by (rewrite H; apply in_elt).
  apply In_schedule in Hin. destruct Hin as [Hi Hj].
  split; [exact Hi|]. split; [exact Hj|]. split.
  - pose proof (NoDup_schedule n) as Hnd. rewrite H in Hnd.
    apply NoDup_remove_2 in Hnd. intros Hd. apply Hnd, in_or_app. now left.
  - intros Hd.
    assert (Hin : In (i, j) (schedule n)) by (rewrite H; apply in_or_app; now left).
    apply In_schedule in Hin. lia.
Qed.

(** A run that returns has kept the invariant over the whole schedule. *)
Lemma rmsds_run_inv (dgesvj : svd_routine) (M : vMatrix) (log : list event)
    (st : rmsds_state) :
  vsize M < UINT_MOD ->
  rmsds_run dgesvj M log = Ok st ->
  rmsds_inv dgesvj M log (schedule (length M)) st.
Proof.
  intros Hsmall Hrun. rewrite rmsds_run_foldM in Hrun by exact Hsmall.
  bind_inv Hrun. injection Hrun as <-.
  assert (Hinv : rmsds_inv dgesvj M log (schedule (length M)) a).
  { apply (foldM_invariant (rmsds_step dgesvj M) (rmsds_inv dgesvj M log)
             (schedule (length M))) with (s0 := rmsds_init (vsize M) log);
      [| apply rmsds_inv_init | exact Ha].
    intros done [j i] rest s s' Hl Hinv Hstep.
    destruct (schedule_next _ _ _ _ _ Hl) as (Hi & Hj & N1 & N2).
    unfold rmsds_step in Hstep. cbn [fst snd] in Hstep.
    destruct (rmsds_pair_Ok _ _ _ _ _ _ Hstep) as (d & Hd).
    destruct (rmsds_inv_step dgesvj M log done j i d s Hinv Hi Hj N1 N2 Hd)
      as (s'' & Hs'' & Hinv').
    congruence. }
  exact Hinv.
Qed.

(** A run returns as soon as the RMSD of every pair is computed. *)
Lemma rmsds_run_total (dgesvj : svd_routine) (M : vMatrix) (log : list event) :
  vsize M < UINT_MOD ->
  (forall j i, 0 <= i < j -> j < vsize M ->
               exists d, pair_rmsd dgesvj M j i = Ok d) ->
  exists st, rmsds_run dgesvj M log = Ok st.
Proof.
  intros Hsmall Hpairs. rewrite rmsds_run_foldM by exact Hsmall.
  destruct (foldM_total (rmsds_step dgesvj M) (rmsds_inv dgesvj M log)
              (schedule (length M))) with (s0 := rmsds_init (vsize M) log)
    as (st & Hst & _).
  - intros done [j i] rest s Hl Hinv.
    destruct (schedule_next _ _ _ _ _ Hl) as (Hi & Hj & N1 & N2).
    destruct (Hpairs j i Hi Hj) as (d & Hd).
    exact (rmsds_inv_step dgesvj M log done j i d s Hinv Hi Hj N1 N2 Hd).
  - apply rmsds_inv_init.
  - rewrite Hst. cbn [bind]. eauto.
Qed.

(** Frames of [m] atoms each and a routine that always succeeds: every
    pair has an RMSD. *)
Lemma pair_rmsd_total (dgesvj : svd_routine) (M : vMatrix) (m : nat) (j i : Z) :
  Forall (fun v => vsize v = 3 * Z.of_nat m) M ->
  3 * Z.of_nat m <= INT_MAX ->
  (forall R, snd (dgesvj R) = 0) ->
  0 <= i < j -> j < vsize M ->
  exists d, pair_rmsd dgesvj M j i = Ok d.
Proof.
  intros Hframes Hmax Hsvd Hi Hj. unfold pair_rmsd.
  destruct (vget_in_range M j) as (mj & Gj & Nj); [lia|].
  destruct (vget_in_range M i) as (mi & Gi & Ni); [lia|].
  rewrite Gj, Gi. cbn [bind].
  rewrite Forall_forall in Hframes.
  assert (Hmj : vsize mj = 3 * Z.of_nat m) by (eapply Hframes, nth_error_In; eauto).
  assert (Hmi : vsize mi = 3 * Z.of_nat m) by (eapply Hframes, nth_error_In; eauto).
  rewrite (calcRMSD_value dgesvj mj mi m) by lia.
  unfold rmsd_outcome. specialize (Hsvd (cov_matrix mj mi m)).
  destruct (dgesvj (cov_matrix mj mi m)) as [[[S0 S1] S2] info].
  simpl in Hsvd. subst info. simpl. eauto.
Qed.

(** C2. When the pair loop returns over [N] frames, the matrix is
    [N x N], symmetric, with a zero diagonal. The loop has called
    [calcRMSD] once for each of the [N (N-1) / 2] pairs [(j, i)] with
    [i < j], and for no other, has stored the result in both [R(j, i)]
    and [R(i, j)], and has stored nothing on the diagonal. *)
Theorem rmsds_symmetric_matrix (dgesvj : svd_routine) (M : vMatrix)
    (st : rmsds_state) :
  vsize M < UINT_MOD ->
  rmsds_run dgesvj M [] = Ok st ->
  let N := vsize M in
  let R := st_R st in
  let pairs := schedule (length M) in
  rmsds dgesvj M = Ok R /\
  rows R = N /\ cols R = N /\
  (forall i j, 0 <= i < N -> 0 <= j < N -> cell R i j = cell R j i) /\
  (forall i, 0 <= i < N -> cell R i i = 0%R) /\
  st_log st = flat_map pair_events pairs /\
  (forall j i, In (j, i) pairs <-> 0 <= i < j /\ j < N) /\
  NoDup pairs /\
  Z.of_nat (length pairs) = N * (N - 1) / 2 /\
  (forall j i, 0 <= i < j -> j < N ->
     pair_rmsd dgesvj M j i = Ok (cell R j i) /\ cell R i j = cell R j i) /\
  (forall r c, In (EvStore r c) (st_log st) -> r <> c).
Proof.
  intros Hsmall Hrun N R pairs.
  destruct (rmsds_run_inv dgesvj M [] st Hsmall Hrun)
    as (Hrows & Hcols & Hlog & Hslayer & Hcells & Hzero).
  assert (Hin : forall j i, In (j, i) pairs <-> 0 <= i < j /\ j < N).
  { intros j i. apply In_schedule. }
  split. { unfold rmsds. now rewrite Hrun. }
  split; [exact Hrows|]. split; [exact Hcols|].
  split.
  { intros i j Hi Hj.
    destruct (Z.lt_trichotomy i j) as [Hlt|[->|Hgt]]; [| reflexivity |].
    - apply (Hcells j i). apply Hin. lia.
    - symmetry. apply (Hcells i j). apply Hin. lia. }
  split.
  { intros i Hi. apply Hzero; intros H; apply Hin in H; lia. }
  split; [exact Hlog|]. split; [exact Hin|].
  split; [apply NoDup_schedule|].
  split. { unfold pairs, N, vsize. apply length_schedule. }
  split.
  { intros j i Hi Hj. apply Hcells. apply Hin. lia. }
  intros r c Hst. rewrite Hlog in Hst. simpl in Hst.
  apply in_flat_map in Hst. destruct Hst as ([j i] & Hp & Hev).
  apply Hin in Hp. simpl in Hev.
  destruct Hev as [E|[E|[E|[E|[]]]]]; try discriminate;
    injection E as <- <-; lia.
Qed.

Lemma rmsds_symmetric_matrix_witness :
  exists st,
    vsize three_frames < UINT_MOD /\
    rmsds_run dgesvj_half three_frames [] = Ok st /\
    rmsds dgesvj_half three_frames = Ok (st_R st) /\
    rows (st_R st) = 3 /\
    st_log st = flat_map pair_events [(1, 0); (2, 0); (2, 1)].
Proof.
  assert (Hsmall : vsize three_frames < UINT_MOD) by reflexivity.
  destruct (rmsds_run_total dgesvj_half three_frames [] Hsmall) as (st & Hst).
  { intros j i Hi Hj. apply pair_rmsd_total with (m := 2%nat); auto.
    - repeat constructor.
    - vm_compute. discriminate. }
  exists st.
  destruct (rmsds_symmetric_matrix dgesvj_half three_frames st Hsmall Hst)
    as (H1 & H2 & _ & _ & _ & H6 & _).
  repeat split; assumption.
Defined.

(** *** The progress counter *)

(** The counter ends at the number of pairs, whatever the total that the
    estimator was given. *)
Lemma rmsds_progress (dgesvj : svd_routine) (M : vMatrix) (log : list event)
    (st : rmsds_state) :
  vsize M < UINT_MOD ->
  rmsds_run dgesvj M log = Ok st ->
  pc_count (st_slayer st) = vsize M * (vsize M - 1) / 2 /\
  pc_total (st_slayer st) = rmsds_total (vsize M) /\
  pc_fraction (st_slayer st) = trigger_fraction /\
  updates (st_log st) = updates log + pc_count (st_slayer st).
Proof.
  intros Hsmall Hrun.
  destruct (rmsds_run_inv dgesvj M log st Hsmall Hrun)
    as (_ & _ & Hlog & Hslayer & _ & _).
  rewrite Hslayer, Hlog. cbn [pc_count pc_total pc_fraction].
  split; [apply length_schedule|]. split; [reflexivity|]. split; [reflexivity|].
  generalize (schedule (length M)). intros l.
  assert (Happ : forall l1 l2, updates (l1 ++ l2) = updates l1 + updates l2).
  { induction l1 as [|e l1 IH]; intros l2; [reflexivity|].
    destruct e; cbn [app updates]; rewrite ?IH; lia. }
  rewrite Happ. f_equal.
  induction l as [|[j i] l IH]; [reflexivity|].
  cbn [flat_map]. rewrite Happ, IH. simpl length. cbn [pair_events updates]. lia.
Qed.

(** The total handed to the estimator is the number of pairs as long as
    [n (n-1)] fits an [unsigned int]. *)
Lemma rmsds_total_exact (n : Z) :
  0 <= n -> n * (n - 1) < UINT_MOD -> rmsds_total n = n * (n - 1) / 2.
Proof.
  intros Hn Hfit. unfold rmsds_total.
  destruct (Z.eq_dec n 0) as [->|Hn0]; [reflexivity|].
  assert (Hn1 : n - 1 < UINT_MOD) by nia.
  rewrite (wrap_uint_small (n - 1)) by lia.
  rewrite (wrap_uint_small (n * (n - 1))) by nia.
  apply wrap_uint_small. split.
  - apply Z.div_pos; nia.
  - apply Z.div_lt_upper_bound; unfold UINT_MOD in *; nia.
Qed.

(** C8, at 65537 frames. The pair loop advances the counter once per
    pair, 2147516416 times; the total that the estimator was given, the
    product [n * (n-1)] computed in [unsigned int] and halved, is 32768,
    and the counter ends far above it. *)
Theorem rmsds_total_wraps (dgesvj : svd_routine) (M : vMatrix)
    (log : list event) (st : rmsds_state) :
  vsize M = 65537 ->
  rmsds_run dgesvj M log = Ok st ->
  pc_total (st_slayer st) = 32768 /\
  pc_count (st_slayer st) = 2147516416 /\
  pc_total (st_slayer st) < pc_count (st_slayer st).
Proof.
  intros Hn Hrun.
  destruct (rmsds_progress dgesvj M log st) as (Hc & Ht & _ & _);
    [rewrite Hn; reflexivity | exact Hrun |].
  rewrite Hc, Ht, Hn. repeat split.
Qed.

Lemma rmsds_total_wraps_witness :
  exists st,
    vsize many_frames = 65537 /\
    rmsds_run dgesvj_half many_frames [] = Ok st /\
    pc_total (st_slayer st) = 32768 /\
    pc_count (st_slayer st) = 2147516416 /\
    pc_total (st_slayer st) < pc_count (st_slayer st).
Proof.
  assert (Hn : vsize many_frames = 65537).
  { unfold vsize, many_frames. rewrite repeat_length. reflexivity. }
  destruct (rmsds_run_total dgesvj_half many_frames []) as (st & Hst).
  { rewrite Hn. reflexivity. }
  { intros j i Hi Hj. apply pair_rmsd_total with (m := 0%nat); auto.
    - apply Forall_forall. intros v Hv. apply repeat_spec in Hv. now subst.
    - vm_compute. discriminate. }
  exists st. split; [exact Hn|]. split; [exact Hst|].
  exact (rmsds_total_wraps dgesvj_half many_frames [] st Hn Hst).
Defined.

(** ** The coordinate cache *)

(** A loop keeps whatever every successful iteration keeps. *)
Lemma iterate_preserves {S : Type} (P : S -> Prop) (cond : Z -> bool)
    (next : Z -> result Z) (body : Z -> S -> result S) :
  (forall i s s', P s -> body i s = Ok s' -> P s') ->
  forall fuel i s s', P s -> iterate fuel cond next body i s = Ok s' -> P s'.
Proof.
  intros Hbody fuel.
  induction fuel as [|fuel IH]; intros i s s' HP Hrun; [discriminate|].
  simpl in Hrun. destruct (cond i).
  - bind_inv Hrun. bind_inv Hrun. eapply IH; [|exact Hrun]. eauto.
  - now injection Hrun as <-.
Qed.

Lemma Forall_upd {A : Type} (P : A -> Prop) (v : list A) (k : nat) (x : A) :
  Forall P v -> P x -> Forall P (upd v k x).
Proof.
  intros Hv Hx. revert k.
  induction Hv as [|h t Hh Ht IH]; intros [|k]; simpl; auto.
Qed.

Lemma vset_in_range {A : Type} (v : list A) (i : Z) (x : A) :
  0 <= i < vsize v -> vset v i x = Ok (upd v (Z.to_nat i) x).
Proof.
  intros H. unfold vset.
  assert (E : (0 <=? i) && (i <? vsize v) = true).
  { apply andb_true_iff. split; [apply Z.leb_le | apply Z.ltb_lt]; lia. }
  now rewrite E.
Qed.

Lemma vsize_upd {A : Type} (v : list A) (k : nat) (x : A) :
  vsize (upd v k x) = vsize v.
Proof. unfold vsize. now rewrite length_upd. Qed.

Section CacheProperties.
Variable lib : Library.
Variable model : AtomicGroup lib.
Variable traj : pTraj lib.

Lemma store_atom_shape (l n j i : Z) (M : vMatrix) :
  cache_shape l n M -> 0 <= j < l -> 0 <= i < n -> 3 * n < UINT_MOD ->
  exists M', store_atom lib model traj j i M = Ok M' /\ cache_shape l n M'.
Proof.
  intros [Hl Hrows] Hj Hi Hsmall. unfold store_atom.
  destruct (frame_coords lib traj j model i) as [[x y] z].
  destruct (vget_in_range M j) as (row & Hget & Hnth); [lia|].
  rewrite Hget. cbn [bind].
  assert (Hrow : vsize row = 3 * n).
  { rewrite Forall_forall in Hrows. eapply Hrows, nth_error_In; eauto. }
  rewrite (wrap_uint_small (i * 3)) by lia.
  rewrite !wrap_uint_small by lia.
  rewrite vset_in_range by lia. cbn [bind].
  rewrite vset_in_range by (rewrite vsize_upd; lia). cbn [bind].
  rewrite vset_in_range by (rewrite !vsize_upd; lia). cbn [bind].
  rewrite vset_in_range by lia.
  eexists. split; [reflexivity|]. split.
  - now rewrite vsize_upd.
  - apply Forall_upd; [exact Hrows|]. now rewrite !vsize_upd.
Qed.

(** The cache reads the frames [0 .. l-1] in order and returns [l] rows
    of [3*n] doubles. *)
Lemma readCoords_total (log : list event) :
  3 * wrap_uint (group_size lib model) < UINT_MOD ->
  exists M, readCoords lib model traj log
            = Ok (M, log ++ map EvReadFrame
                               (indices (wrap_uint (nframes lib traj)))) /\
            cache_shape (wrap_uint (nframes lib traj))
              (wrap_uint (group_size lib model)) M.
Proof.
  set (l := wrap_uint (nframes lib traj)).
  set (n := wrap_uint (group_size lib model)).
  intros Hsmall.
  pose proof (wrap_uint_range (nframes lib traj)) as Hl.
  pose proof (wrap_uint_range (group_size lib model)) as Hn.
  fold l in Hl. fold n in Hn.
  unfold readCoords. fold l. fold n.
  rewrite (wrap_uint_small (3 * n)) by lia.
  rewrite (for_uint_foldM 0 l 1 (Z.to_nat l)) by (unfold counter; lia).
  destruct (foldM_total
    (fun j (st : vMatrix * list event) =>
       let '(M, log) := st in
       let log := log ++ [EvReadFrame j] in
       M <- for_uint 0 n 1 (store_atom lib model traj j) M ;;
       Ok (M, log))
    (fun done st => cache_shape l n (fst st) /\
                    snd st = log ++ map EvReadFrame done)
    (map (counter 0 1) (seq 0 (Z.to_nat l))))
    with (s0 := (repeat (repeat 0%R (Z.to_nat (3 * n))) (Z.to_nat l), log))
    as ([M log'] & Hrun & Hshape & Hlog).
  - intros done j rest [M lg] Hsched [Hshape Hlg]. cbn [fst snd] in *.
    assert (Hj : 0 <= j < l).
    { assert (Hin : In j (map (counter 0 1) (seq 0 (Z.to_nat l))))
        by (rewrite Hsched; apply in_elt).
      apply in_map_iff in Hin. destruct Hin as (k & <- & Hk).
      apply in_seq in Hk. unfold counter. lia. }
    destruct (for_uint_invariant 0 n 1 (Z.to_nat n)
                (store_atom lib model traj j)
                (fun _ M => cache_shape l n M) M) as (M' & HM' & Hshape').
    + lia.
    + lia.
    + unfold counter. lia.
    + lia.
    + exact Hshape.
    + intros k M0 Hk HM0. apply store_atom_shape with (l := l) (n := n); auto.
      unfold counter. lia.
    + rewrite HM'. cbn [bind]. eexists. split; [reflexivity|].
      cbn [fst snd]. split; [exact Hshape'|].
      now rewrite Hlg, map_app, <- app_assoc.
  - cbn [fst snd]. split; [|now rewrite app_nil_r].
    split.
    + unfold vsize. rewrite repeat_length. lia.
    + apply Forall_forall. intros v Hv. apply repeat_spec in Hv. subst v.
      unfold vsize. rewrite repeat_length. lia.
  - exists M. cbn [fst snd] in *. split; [|exact Hshape].
    rewrite Hrun, Hlog.
    assert (E : map (counter 0 1) (seq 0 (Z.to_nat l)) = indices l).
    { unfold indices. apply map_ext. intros k. unfold counter. lia. }
    now rewrite E.
Qed.
End CacheProperties.

Lemma for_uint_preserves {S : Type} (P : S -> Prop) (start bound step : Z)
    (body : Z -> S -> result S) (s s' : S) :
  (forall i s s', P s -> body i s = Ok s' -> P s') ->
  P s -> for_uint start bound step body s = Ok s' -> P s'.
Proof. intros Hbody HP Hrun. eapply iterate_preserves; eauto. Qed.

Lemma store_atom_size (lib : Library) (model : AtomicGroup lib)
    (traj : pTraj lib) (j i : Z) (M M' : vMatrix) :
  store_atom lib model traj j i M = Ok M' -> vsize M' = vsize M.
Proof.
  unfold store_atom. destruct (frame_coords lib traj j model i) as [[x y] z].
  intros H. do 4 bind_inv H. now apply vset_Ok_size in H.
Qed.

(** A cache that is returned has one row per frame, and the frames
    [0 .. l-1] have been read in order. *)
Lemma readCoords_log (lib : Library) (model : AtomicGroup lib)
    (traj : pTraj lib) (log log' : list event) (M : vMatrix) :
  readCoords lib model traj log = Ok (M, log') ->
  vsize M = wrap_uint (nframes lib traj) /\
  log' = log ++ map EvReadFrame (indices (wrap_uint (nframes lib traj))).
Proof.
  set (l := wrap_uint (nframes lib traj)).
  pose proof (wrap_uint_range (nframes lib traj)) as Hl. fold l in Hl.
  unfold readCoords. fold l.
  rewrite (for_uint_foldM 0 l 1 (Z.to_nat l)) by (unfold counter; lia).
  intros Hrun.
  assert (E : map (counter 0 1) (seq 0 (Z.to_nat l)) = indices l).
  { unfold indices. apply map_ext. intros k. unfold counter. lia. }
  rewrite E in Hrun.
  apply (foldM_invariant _
           (fun done (st : vMatrix * list event) =>
              vsize (fst st) = l /\ snd st = log ++ map EvReadFrame done))
    in Hrun; [exact Hrun | |].
  - intros done j rest [M0 lg] [M1 lg'] _ [Hsize Hlg] Hstep.
    cbn [fst snd] in *. bind_inv Hstep. injection Hstep as <- <-.
    split.
    + apply (for_uint_preserves (fun M => vsize M = l)) in Ha; auto.
      intros i s s' Hs Hstore. apply store_atom_size in Hstore. lia.
    + now rewrite Hlg, map_app, <- app_assoc.
  - cbn [fst snd]. split; [|now rewrite app_nil_r].
    unfold vsize. rewrite repeat_length. lia.
Qed.

Lemma centerTrajectory_size (M M' : vMatrix) :
  centerTrajectory M = Ok M' -> vsize M' = vsize M.
Proof.
  unfold centerTrajectory. intros H.
  apply (for_uint_preserves (fun M0 => vsize M0 = vsize M)) in H; auto.
  intros i s s' Hs Hstep. do 2 bind_inv Hstep.
  apply vset_Ok_size in Hstep. lia.
Qed.

(** ** The tool *)

Section ToolProperties.
Variable lib : Library.
Variable dgesvj : svd_routine.
Variable fmt : Z -> R -> string.

(** The stages of a run that returns. *)
Lemma main_Ok (header : string) (o : ToolOptions) (R : RealMatrix)
    (log : list event) :
  main lib dgesvj fmt header o = Ok (R, log) ->
  exists model traj subset T st,
    createSystem lib (model1 o) = Ok model /\
    createTrajectory lib (traj1 o) model = Ok traj /\
    selectAtoms lib model (sel1 o) = Ok subset /\
    let l := wrap_uint (nframes lib traj) in
    let reads := map EvReadFrame (indices l) in
    vsize T = l /\
    rmsds_run dgesvj T reads = Ok st /\
    R = st_R st /\
    log = reads ++ flat_map pair_events (schedule (length T))
          ++ report fmt header (noop o) R.
Proof.
  unfold main. intros H.
  bind_inv H. rename a into model, Ha into Hmodel.
  bind_inv H. rename a into traj, Ha into Htraj.
  bind_inv H. rename a into subset, Ha into Hsubset.
  bind_inv H. destruct a as [T0 log0]. rename Ha into Hread.
  bind_inv H. rename a into T, Ha into Hcenter.
  bind_inv H. rename a into st, Ha into Hrun.
  exists model, traj, subset, T, st.
  apply readCoords_log in Hread. destruct Hread as [Hsize Hlog0].
  simpl in Hlog0. subst log0.
  apply centerTrajectory_size in Hcenter.
  pose proof (wrap_uint_range (nframes lib traj)) as Hl.
  assert (Hsmall : vsize T < UINT_MOD) by lia.
  destruct (rmsds_run_inv dgesvj T _ st Hsmall Hrun)
    as (_ & _ & Hlog & _ & _ & _).
  repeat (split; [assumption || lia || reflexivity|]).
  unfold report, header_line.
  destruct (noop o); cbn [negb] in H; injection H as <- <-.
  - split; [reflexivity|]. now rewrite Hlog, app_nil_r.
  - split; [reflexivity|]. now rewrite Hlog, <- app_assoc.
Qed.

(** A run returns when the files load, there is at least one atom, a
    frame fits an [int], and the SVD routine always succeeds. *)
Lemma main_total (header : string) (o : ToolOptions)
    (model subset : AtomicGroup lib) (traj : pTraj lib) :
  createSystem lib (model1 o) = Ok model ->
  createTrajectory lib (traj1 o) model = Ok traj ->
  selectAtoms lib model (sel1 o) = Ok subset ->
  0 < wrap_uint (group_size lib subset) ->
  3 * wrap_uint (group_size lib subset) <= INT_MAX ->
  (forall R, snd (dgesvj R) = 0) ->
  exists R log, main lib dgesvj fmt header o = Ok (R, log).
Proof.
  intros Hmodel Htraj Hsubset Hn Hmax Hsvd.
  pose proof (wrap_uint_range (nframes lib traj)) as Hl.
  assert (Hsmall : 3 * wrap_uint (group_size lib subset) < UINT_MOD)
    by (unfold INT_MAX, UINT_MOD in *; lia).
  unfold main. rewrite Hmodel. cbn [bind]. rewrite Htraj. cbn [bind].
  rewrite Hsubset. cbn [bind].
  destruct (readCoords_total lib subset traj [] Hsmall)
    as (T0 & Hread & Hsize & Hrows).
  rewrite Hread. cbn [bind].
  revert Hn Hmax Hsmall Hrows.
  generalize (wrap_uint (group_size lib subset)). intros n Hn Hmax Hsmall Hrows.
  assert (Hframes : Forall (fun v => exists k, is_frame k v) T0).
  { eapply Forall_impl; [|exact Hrows]. intros v Hv. exists n.
    cbn beta in Hv. unfold is_frame. lia. }
  rewrite centerTrajectory_spec by (auto; lia). cbn [bind].
  set (T := map (fun v => translate (centroid v) v) T0).
  destruct (rmsds_run_total dgesvj T
              ([] ++ map EvReadFrame (indices (wrap_uint (nframes lib traj)))))
    as (st & Hst).
  { unfold T, vsize. rewrite length_map. fold (vsize T0). lia. }
  { intros j i Hi Hj. apply pair_rmsd_total with (m := Z.to_nat n); auto.
    - unfold T. apply Forall_map. eapply Forall_impl; [|exact Hrows].
      intros v Hv. cbn beta in *. unfold vsize in *. rewrite length_translate.
      lia.
    - lia. }
  rewrite Hst. cbn [bind]. destruct (negb (noop o)); eauto.
Qed.
End ToolProperties.

(** *** The output *)







Lemma length_indices (n : Z) : length (indices n) = Z.to_nat n.
Proof. unfold indices. now rewrite length_map, length_seq. Qed.






(** *** The options that the computation never reads *)



Lemma demo_run (header : string) (o : ToolOptions) :
  exists R log, main demo_lib dgesvj_half demo_fmt header o = Ok (R, log).
Proof.
  apply main_total with (model := [0; 1]%nat) (subset := [0; 1]%nat)
                        (traj := demo_frames); try reflexivity.
  vm_compute. discriminate.
Qed.



(** *** The memory warning *)

(** No run emits the memory warning. *)
Lemma main_never_warns (lib : Library) (dgesvj : svd_routine)
    (fmt : Z -> R -> string) (header : string) (o : ToolOptions)
    (R : RealMatrix) (log : list event) :
  main lib dgesvj fmt header o = Ok (R, log) -> ~ In EvResourceWarning log.
Proof.
  intros Hrun.
  destruct (main_Ok lib dgesvj fmt header o R log Hrun)
    as (model & traj & subset & T & st & _ & _ & _ & _ & _ & _ & Hlog).
  rewrite Hlog. intros Hin.
  apply in_app_or in Hin. destruct Hin as [Hin|Hin].
  { apply in_map_iff in Hin. destruct Hin as (j & E & _). discriminate. }
  apply in_app_or in Hin. destruct Hin as [Hin|Hin].
  { apply in_flat_map in Hin. destruct Hin as ([j i] & _ & Hin).
    simpl in Hin. intuition discriminate. }
  unfold report in Hin. destruct (noop o); simpl in Hin; intuition discriminate.
Qed.

(** C4, on 1000 frames of 500 atoms and 16,000,000 bytes of physical
    memory. The estimate of the cache, 12,000,000 bytes, is above the
    declared fraction of the physical memory, 0.66 x 16,000,000; the run
    returns and its log holds no memory warning. *)
Theorem no_resource_warning (fmt : Z -> R -> string) (header : string)
    (o : ToolOptions) :
  nframes big_lib tt = 1000 /\ group_size big_lib tt = 500 /\
  cache_bytes 1000 500 = 12000000 /\
  (cache_memory_fraction_warning * 16000000 < IZR (cache_bytes 1000 500))%R /\
  exists R log,
    main big_lib dgesvj_half fmt header o = Ok (R, log) /\
    ~ In EvResourceWarning log.
Proof.
  split; [reflexivity|]. split; [reflexivity|]. split; [reflexivity|].
  split.
  { unfold cache_memory_fraction_warning.
    replace (cache_bytes 1000 500) with 12000000 by reflexivity. lra. }
  destruct (main_total big_lib dgesvj_half fmt header o tt tt tt)
    as (R & log & Hrun); try reflexivity.
  { vm_compute. discriminate. }
  exists R, log. split; [exact Hrun|].
  now apply main_never_warns in Hrun.
Qed.

(** ** The scenario of the specification *)

(** A frame and the same frame turned by half a turn around the z axis
    through its centroid are at RMSD 0, and so are a frame and a
    translated copy of it once both are centered. *)
Example rotated_frame_rmsd :
  pair_rmsd dgesvj_half three_frames 1 0 = Ok 0%R /\
  pair_rmsd dgesvj_half three_frames 2 0 = Ok 0%R.
Proof.
  assert (H : forall u v : vDouble,
             vsize u = 3 * Z.of_nat 2 -> vsize v = 3 * Z.of_nat 2 ->
             E0_spec u v 2 = 1%R -> calcRMSD dgesvj_half u v = Ok 0%R).
  { intros u v Hu Hv HE.
    rewrite (calcRMSD_value dgesvj_half u v 2) by (unfold INT_MAX; lia).
    unfold rmsd_outcome, dgesvj_half. cbn [negb Z.eqb]. rewrite HE.
    replace (1 - 2 * (1 / 2 + 0 + 0))%R with 0%R by lra.
    rewrite Rabs_R0. unfold Rdiv. now rewrite Rmult_0_l, sqrt_0. }
  split; unfold pair_rmsd, three_frames; cbn [vget vsize length Z.of_nat
    Pos.of_succ_nat Pos.succ Z.leb Z.ltb Z.compare Pos.compare Pos.compare_cont
    andb Z.to_nat Pos.to_nat Pos.iter_op Nat.add nth_error bind];
    apply H; try reflexivity;
    unfold E0_spec, sq_norm, coord; simpl; lra.
Qed.

(** * Further properties of the code *)

(** ** Centering: lengths, idempotence, translations *)

(** The first loop of [centerAtOrigin] leaves a vector whose length is not
    a multiple of three. *)
Lemma axis_totals_undefined (v : vDouble) :
  vsize v < UINT_MOD -> vsize v mod 3 <> 0 -> axis_totals v = Undefined.
Proof.
  intros Hsmall Hmod. pose proof (vsize_nonneg v) as Hpos.
  set (q := Z.to_nat (vsize v / 3)).
  assert (Hq : 3 * Z.of_nat q < vsize v < 3 * Z.of_nat q + 3).
  { unfold q. rewrite Z2Nat.id by (apply Z.div_pos; lia).
    pose proof (Z.div_mod (vsize v) 3). pose proof (Z.mod_pos_bound (vsize v) 3).
    lia. }
  unfold axis_totals, for_uint.
  replace 0 with (counter 0 3 0) at 1 by reflexivity.
  unfold UINT_MOD in *.
  apply iterate_undefined
    with (idx := counter 0 3) (m := q) (Inv := fun _ _ => True);
    unfold counter.
  - intros k Hk. apply Z.ltb_lt. lia.
  - intros k Hk. unfold uint_step. f_equal.
    rewrite wrap_uint_small by (unfold UINT_MOD; lia). lia.
  - apply Z.ltb_lt. lia.
  - intros [[c0 c1] c2].
    replace (0 + 3 * Z.of_nat q) with (3 * Z.of_nat q) by lia.
    destruct (vget_cases v (3 * Z.of_nat q)) as [[x ->]| ->]; [|reflexivity].
    cbn [bind].
    destruct (Z.eq_dec (vsize v) (3 * Z.of_nat q + 1)) as [E|E].
    + rewrite wrap_uint_small by (unfold UINT_MOD; lia).
      rewrite (vget_out_of_range v (3 * Z.of_nat q + 1)) by lia. reflexivity.
    + rewrite !wrap_uint_small by (unfold UINT_MOD; lia).
      destruct (vget_cases v (3 * Z.of_nat q + 1)) as [[y ->]| ->]; [|reflexivity].
      cbn [bind].
      rewrite (vget_out_of_range v (3 * Z.of_nat q + 2)) by lia. reflexivity.
  - intros k [[c0 c1] c2] Hk _.
    replace (0 + 3 * Z.of_nat k) with (3 * Z.of_nat k) by lia.
    rewrite !wrap_uint_small by (unfold UINT_MOD; lia).
    destruct (vget_in_range v (3 * Z.of_nat k)) as (x & -> & _); [lia|].
    destruct (vget_in_range v (3 * Z.of_nat k + 1)) as (y & -> & _); [lia|].
    destruct (vget_in_range v (3 * Z.of_nat k + 2)) as (z & -> & _); [lia|].
    cbn [bind]. eexists. split; [reflexivity | exact I].
  - lia.
  - lia.
  - exact I.
Qed.

Lemma centerAtOrigin_undefined (v : vDouble) :
  vsize v < UINT_MOD -> vsize v mod 3 <> 0 -> centerAtOrigin v = Undefined.
Proof.
  intros Hsmall Hmod. unfold centerAtOrigin.
  now rewrite axis_totals_undefined.
Qed.

Lemma centerAtOrigin_multiple (v : vDouble) :
  vsize v < UINT_MOD -> vsize v mod 3 = 0 ->
  centerAtOrigin v = Ok (translate (centroid v) v).
Proof.
  intros Hsmall Hmod.
  apply centerAtOrigin_spec with (n := vsize v / 3); [|exact Hsmall].
  pose proof (Z.div_mod (vsize v) 3). lia.
Qed.

(** X1. On a vector shorter than [2^32], [centerAtOrigin] stays inside
    the vector exactly when its length is a multiple of three; it then
    returns a vector of the same length, each atom moved by the centroid.
    An empty vector comes back empty. *)
Theorem centerAtOrigin_defined (v : vDouble) :
  vsize v < UINT_MOD ->
  (defined (centerAtOrigin v) <-> vsize v mod 3 = 0) /\
  (forall v', centerAtOrigin v = Ok v' ->
     v' = translate (centroid v) v /\ length v' = length v) /\
  centerAtOrigin [] = Ok [].
Proof.
  intros Hsmall. split; [split|split].
  - intros Hdef. destruct (Z.eq_dec (vsize v mod 3) 0) as [E|E]; [exact E|].
    rewrite centerAtOrigin_undefined in Hdef by assumption. contradiction.
  - intros Hmod. now rewrite centerAtOrigin_multiple.
  - intros v' Hv'.
    destruct (Z.eq_dec (vsize v mod 3) 0) as [E|E].
    + rewrite centerAtOrigin_multiple in Hv' by assumption.
      injection Hv' as <-. split; [reflexivity | apply length_translate].
    + rewrite centerAtOrigin_undefined in Hv' by assumption. discriminate.
  - apply (centerAtOrigin_multiple []); reflexivity.
Qed.

Lemma centerAtOrigin_defined_witness :
  vsize [1; 2; 3; 4]%R < UINT_MOD /\
  (defined (centerAtOrigin [1; 2; 3; 4]%R) <-> vsize [1; 2; 3; 4]%R mod 3 = 0) /\
  (forall v', centerAtOrigin [1; 2; 3; 4]%R = Ok v' ->
     v' = translate (centroid [1; 2; 3; 4]%R) [1; 2; 3; 4]%R /\
     length v' = length [1; 2; 3; 4]%R) /\
  centerAtOrigin [] = Ok [].
Proof.
  assert (H : vsize [1; 2; 3; 4]%R < UINT_MOD) by reflexivity.
  split; [exact H|]. exact (centerAtOrigin_defined [1; 2; 3; 4]%R H).
Defined.

(** A loop [for (i = 0; i < M.size(); i++) M[i] = f(M[i])] is the
    traversal of [M] by [f]. *)
Lemma inplace_mapM {A : Type} (f : A -> result A) (Q P : list A) :
  foldM (fun i (M : list A) => v <- vget M i ;; v' <- f v ;; vset M i v')
        (map (counter 0 1) (seq (length P) (length Q))) (P ++ Q)
  = (Q' <- mapM f Q ;; Ok (P ++ Q')).
Proof.
  revert P. induction Q as [|v Q IH]; intros P.
  - reflexivity.
  - cbn [length seq map foldM mapM].
    assert (Hi : counter 0 1 (length P) = vsize P) by (unfold counter, vsize; lia).
    rewrite (vget_middle P Q v _ Hi). cbn [bind].
    destruct (f v) as [v'| | |]; cbn [bind]; try reflexivity.
    rewrite (vset_middle P Q v v' _ Hi). cbn [bind].
    replace (P ++ v' :: Q) with ((P ++ [v']) ++ Q) by now rewrite <- app_assoc.
    replace (Datatypes.S (length P)) with (length (P ++ [v']))
      by (rewrite length_app; simpl; lia).
    rewrite IH. destruct (mapM f Q); cbn [bind]; try reflexivity.
    now rewrite <- app_assoc.
Qed.

Lemma centerTrajectory_mapM (M : vMatrix) :
  vsize M < UINT_MOD -> centerTrajectory M = mapM centerAtOrigin M.
Proof.
  intros Hsmall. unfold centerTrajectory.
  rewrite (for_uint_foldM 0 (vsize M) 1 (length M)); try lia.
  - pose proof (inplace_mapM centerAtOrigin M []) as H.
    cbn [length app] in H. etransitivity; [exact H|].
    destruct (mapM centerAtOrigin M); reflexivity.
  - unfold counter, vsize. lia.
Qed.

Lemma mapM_Ok {A B : Type} (f : A -> result B) (g : A -> B) (l : list A) :
  Forall (fun a => f a = Ok (g a)) l -> mapM f l = Ok (map g l).
Proof.
  induction 1 as [|a l Ha _ IH]; [reflexivity|].
  cbn [mapM map]. now rewrite Ha, IH.
Qed.

Lemma mapM_prefix {A B : Type} (f : A -> result B) (g : A -> B)
    (P Q : list A) (a : A) :
  Forall (fun a => f a = Ok (g a)) P ->
  mapM f (P ++ a :: Q)
  = (b <- f a ;; bs <- mapM f Q ;; Ok (map g P ++ b :: bs)).
Proof.
  induction 1 as [|p P Hp _ IH].
  - reflexivity.
  - cbn [app mapM map]. rewrite Hp. cbn [bind]. rewrite IH.
    destruct (f a) as [b| | |]; try reflexivity. cbn [bind].
    destruct (mapM f Q); reflexivity.
Qed.


Lemma mapM_map {A B C : Type} (f : B -> result C) (h : A -> B) (l : list A) :
  mapM f (map h l) = mapM (fun a => f (h a)) l.
Proof.
  induction l as [|a l IH]; [reflexivity|].
  cbn [mapM map]. now rewrite IH.
Qed.

Lemma translate_zero (v : vDouble) : translate (0, 0, 0)%R v = v.
Proof.
  assert (H : forall k (w : vDouble), (length w <= k)%nat ->
                translate (0, 0, 0)%R w = w).
  { intros k. induction k as [|k IH]; intros w Hw.
    - destruct w; [reflexivity | simpl in Hw; lia].
    - destruct w as [|x [|y [|z w]]]; try reflexivity.
      cbn [translate]. rewrite IH by (simpl in Hw; lia).
      now rewrite !Rminus_0_r. }
  now apply (H (length v)).
Qed.


Lemma vsize_translate (c : vec3) (v : vDouble) : vsize (translate c v) = vsize v.
Proof. unfold vsize. now rewrite length_translate. Qed.


(** X2. Centering is idempotent: a vector that [centerAtOrigin] returned
    is returned unchanged when it is centered again. *)
Theorem centerAtOrigin_idempotent (v v' : vDouble) :
  vsize v < UINT_MOD ->
  centerAtOrigin v = Ok v' -> centerAtOrigin v' = Ok v'.
Proof.
  intros Hsmall Hv.
  destruct (Z.eq_dec (vsize v mod 3) 0) as [Hmod|Hmod];
    [| rewrite centerAtOrigin_undefined in Hv by assumption; discriminate].
  rewrite centerAtOrigin_multiple in Hv by assumption. injection Hv as <-.
  rewrite centerAtOrigin_multiple by (rewrite vsize_translate; assumption).
  f_equal.
  destruct v as [|x v]; [reflexivity|].
  assert (Hframe : is_frame (vsize (x :: v) / 3) (x :: v)).
  { pose proof (Z.div_mod (vsize (x :: v)) 3).
    assert (0 < vsize (x :: v)) by (unfold vsize; simpl length; lia).
    repeat split; lia. }
  unfold centroid at 1.
  rewrite !(centered_axis_sum (x :: v) _ _ Hframe) by lia.
  unfold Rdiv. rewrite !Rmult_0_r, !Rmult_0_l. apply translate_zero.
Qed.

Lemma centerAtOrigin_idempotent_witness :
  vsize [1; 2; 3; 3; 2; 1]%R < UINT_MOD /\
  centerAtOrigin [1; 2; 3; 3; 2; 1]%R
  = Ok (translate (centroid [1; 2; 3; 3; 2; 1]%R) [1; 2; 3; 3; 2; 1]%R) /\
  centerAtOrigin (translate (centroid [1; 2; 3; 3; 2; 1]%R) [1; 2; 3; 3; 2; 1]%R)
  = Ok (translate (centroid [1; 2; 3; 3; 2; 1]%R) [1; 2; 3; 3; 2; 1]%R).
Proof.
  assert (H1 : vsize [1; 2; 3; 3; 2; 1]%R < UINT_MOD) by reflexivity.
  assert (H2 : centerAtOrigin [1; 2; 3; 3; 2; 1]%R
               = Ok (translate (centroid [1; 2; 3; 3; 2; 1]%R)
                       [1; 2; 3; 3; 2; 1]%R))
    by (apply centerAtOrigin_multiple; reflexivity).
  split; [exact H1|]. split; [exact H2|].
  exact (centerAtOrigin_idempotent _ _ H1 H2).
Defined.




(** X4. [centerTrajectory] centers the frames from first to last and
    stops at the first frame whose length is not a multiple of three:
    it returns exactly when every frame has such a length, and the
    result is then the list of the centered frames, as many as before. *)
Theorem centerTrajectory_defined (M : vMatrix) :
  vsize M < UINT_MOD ->
  Forall (fun v => vsize v < UINT_MOD) M ->
  centerTrajectory M = mapM centerAtOrigin M /\
  (defined (centerTrajectory M) <-> Forall (fun v => vsize v mod 3 = 0) M) /\
  (Forall (fun v => vsize v mod 3 = 0) M ->
   centerTrajectory M = Ok (map (fun v => translate (centroid v) v) M)) /\
  (forall P v Q, M = P ++ v :: Q ->
     Forall (fun v => vsize v mod 3 = 0) P -> vsize v mod 3 <> 0 ->
     centerTrajectory M = Undefined).
Proof.
  intros Hsmall Hframes.
  assert (Hgood : Forall (fun v => vsize v mod 3 = 0) M ->
            centerTrajectory M = Ok (map (fun v => translate (centroid v) v) M)).
  { intros Hall. rewrite centerTrajectory_mapM by assumption.
    apply mapM_Ok. rewrite Forall_forall in *. intros v Hv.
    apply centerAtOrigin_multiple; auto. }
  assert (Hbad : forall P v Q, M = P ++ v :: Q ->
            Forall (fun v => vsize v mod 3 = 0) P -> vsize v mod 3 <> 0 ->
            centerTrajectory M = Undefined).
  { intros P v Q HM HP Hv. rewrite centerTrajectory_mapM by assumption.
    rewrite HM in *. apply Forall_app in Hframes. destruct Hframes as [HPs HQs].
    inversion HQs as [|? ? Hvs _]; subst.
    assert (Hu : centerAtOrigin v = Undefined)
      by now apply centerAtOrigin_undefined.
    rewrite (mapM_prefix centerAtOrigin
               (fun v => translate (centroid v) v) P Q v).
    - rewrite Hu. reflexivity.
    - rewrite Forall_forall in *. intros w Hw.
      apply centerAtOrigin_multiple; auto. }
  split; [now apply centerTrajectory_mapM|]. split; [split|split].
  - intros Hdef.
    assert (Hdec : forall l : vMatrix,
              Forall (fun v => vsize v mod 3 = 0) l \/
              exists P v Q, l = P ++ v :: Q /\
                Forall (fun v => vsize v mod 3 = 0) P /\ vsize v mod 3 <> 0).
    { induction l as [|w l [IH|(P & v & Q & -> & HP & Hv)]].
      - left. constructor.
      - destruct (Z.eq_dec (vsize w mod 3) 0) as [E|E].
        + left. now constructor.
        + right. exists [], w, l. repeat split; auto.
      - destruct (Z.eq_dec (vsize w mod 3) 0) as [E|E].
        + right. exists (w :: P), v, Q. repeat split; auto.
        + right. exists [], w, (P ++ v :: Q). repeat split; auto. }
    destruct (Hdec M) as [Hall|(P & v & Q & HM & HP & Hv)]; [exact Hall|].
    rewrite (Hbad P v Q HM HP Hv) in Hdef. contradiction.
  - intros Hall. now rewrite Hgood.
  - exact Hgood.
  - exact Hbad.
Qed.

Lemma centerTrajectory_defined_witness :
  vsize [[1; 2; 3]; [1; 2]]%R < UINT_MOD /\
  Forall (fun v => vsize v < UINT_MOD) [[1; 2; 3]; [1; 2]]%R /\
  centerTrajectory [[1; 2; 3]; [1; 2]]%R = Undefined.
Proof.
  assert (H1 : vsize [[1; 2; 3]; [1; 2]]%R < UINT_MOD) by reflexivity.
  assert (H2 : Forall (fun v => vsize v < UINT_MOD) [[1; 2; 3]; [1; 2]]%R)
    by (repeat constructor).
  split; [exact H1|]. split; [exact H2|].
  destruct (centerTrajectory_defined _ H1 H2) as (_ & _ & _ & Hbad).
  apply (Hbad [[1; 2; 3]%R] [1; 2]%R []).
  - reflexivity.
  - repeat constructor.
  - discriminate.
Defined.

(** ** The contents of the coordinate cache *)

Section CacheContentsProperties.
Variable lib : Library.
Variable model : AtomicGroup lib.
Variable traj : pTraj lib.

Lemma atoms_upto_S (j : Z) (k : nat) :
  atoms_upto lib model traj j (Datatypes.S k)
  = atoms_upto lib model traj j k ++ atom_coords lib model traj j (Z.of_nat k).
Proof.
  unfold atoms_upto. rewrite seq_S, map_app, flat_map_app. cbn [map flat_map].
  now rewrite app_nil_r.
Qed.

Lemma length_atoms_upto (j : Z) (k : nat) :
  length (atoms_upto lib model traj j k) = (3 * k)%nat.
Proof.
  induction k as [|k IH]; [reflexivity|].
  rewrite atoms_upto_S, length_app, IH. unfold atom_coords.
  destruct (frame_coords lib traj j model (Z.of_nat k)) as [[x y] z].
  simpl length. lia.
Qed.

Lemma repeat_three {A : Type} (a : A) (k : nat) :
  repeat a (3 * Datatypes.S k) = a :: a :: a :: repeat a (3 * k).
Proof.
  replace (3 * Datatypes.S k)%nat
    with (Datatypes.S (Datatypes.S (Datatypes.S (3 * k)))) by lia.
  reflexivity.
Qed.

(** One pass of the inner loop of [readCoords] fills row [j]. *)
Lemma store_atoms_row (n : nat) (j : Z) (P Q : vMatrix) :
  3 * Z.of_nat n < UINT_MOD -> j = vsize P ->
  for_uint 0 (Z.of_nat n) 1 (store_atom lib model traj j)
    (P ++ repeat 0%R (3 * n) :: Q)
  = Ok (P ++ atoms_upto lib model traj j n :: Q).
Proof.
  intros Hsmall Hj.
  destruct (for_uint_invariant 0 (Z.of_nat n) 1 n
              (store_atom lib model traj j)
              (fun k M' => M' = P ++ (atoms_upto lib model traj j k
                                      ++ repeat 0%R (3 * (n - k))) :: Q)
              (P ++ repeat 0%R (3 * n) :: Q)) as (M' & HM' & ->).
  - lia.
  - lia.
  - unfold counter. lia.
  - lia.
  - now rewrite Nat.sub_0_r.
  - intros k M' Hk ->.
    replace (counter 0 1 k) with (Z.of_nat k) by (unfold counter; lia).
    replace (n - k)%nat with (Datatypes.S (n - Datatypes.S k)) by lia.
    rewrite repeat_three, atoms_upto_S.
    unfold store_atom, atom_coords.
    destruct (frame_coords lib traj j model (Z.of_nat k)) as [[x y] z].
    rewrite (vget_middle P Q _ j Hj). cbn [bind].
    assert (Hi : Z.of_nat k * 3 = vsize (atoms_upto lib model traj j k)).
    { unfold vsize. rewrite length_atoms_upto. lia. }
    rewrite (wrap_uint_small (Z.of_nat k * 3)) by lia.
    rewrite !wrap_uint_small by lia.
    rewrite (vset_middle _ _ 0%R x _ Hi). cbn [bind].
    rewrite (vset_atom_1 _ _ x 0%R 0%R y _ Hi). cbn [bind].
    rewrite (vset_atom_2 _ _ x y 0%R z _ Hi). cbn [bind].
    rewrite (vset_middle P Q _ _ j Hj).
    eexists. split; [reflexivity|].
    now rewrite <- app_assoc.
  - rewrite HM', Nat.sub_diag. cbn [Nat.mul repeat]. now rewrite app_nil_r.
Qed.

(** The cache holds, frame by frame, the coordinates of the selected
    atoms in the order of the selection. *)
Lemma readCoords_rows (log : list event) :
  3 * wrap_uint (group_size lib model) < UINT_MOD ->
  readCoords lib model traj log
  = Ok (cache_rows lib model traj
          (Z.to_nat (wrap_uint (nframes lib traj)))
          (Z.to_nat (wrap_uint (group_size lib model))),
        log ++ map EvReadFrame (indices (wrap_uint (nframes lib traj)))).
Proof.
  set (l := wrap_uint (nframes lib traj)).
  set (n := wrap_uint (group_size lib model)).
  intros Hsmall.
  pose proof (wrap_uint_range (nframes lib traj)) as Hl.
  pose proof (wrap_uint_range (group_size lib model)) as Hn.
  fold l in Hl. fold n in Hn.
  unfold readCoords. fold l. fold n.
  rewrite (wrap_uint_small (3 * n)) by lia.
  replace (Z.to_nat (3 * n)) with (3 * Z.to_nat n)%nat by lia.
  set (row := fun j => atoms_upto lib model traj j (Z.to_nat n)).
  set (zero := repeat 0%R (3 * Z.to_nat n)).
  destruct (for_uint_invariant 0 l 1 (Z.to_nat l)
    (fun j (st : vMatrix * list event) =>
       let '(M, log) := st in
       let log := log ++ [EvReadFrame j] in
       M <- for_uint 0 n 1 (store_atom lib model traj j) M ;;
       Ok (M, log))
    (fun k st =>
       fst st = map row (map Z.of_nat (seq 0 k))
                ++ repeat zero (Z.to_nat l - k) /\
       snd st = log ++ map EvReadFrame (map Z.of_nat (seq 0 k)))
    (repeat zero (Z.to_nat l), log)) as ([M lg] & Hrun & HM & Hlg).
  - lia.
  - lia.
  - unfold counter. lia.
  - lia.
  - cbn [fst snd seq map app]. rewrite Nat.sub_0_r, app_nil_r. now split.
  - intros k [M lg] Hk [HM Hlg]. cbn [fst snd] in HM, Hlg. subst M lg.
    replace (counter 0 1 k) with (Z.of_nat k) by (unfold counter; lia).
    replace (Z.to_nat l - k)%nat with (Datatypes.S (Z.to_nat l - Datatypes.S k))
      by lia.
    cbn [repeat].
    assert (Hk' : Z.of_nat k = vsize (map row (map Z.of_nat (seq 0 k)))).
    { unfold vsize. now rewrite !length_map, length_seq. }
    assert (Hn' : 3 * Z.of_nat (Z.to_nat n) < UINT_MOD) by lia.
    pose proof (store_atoms_row (Z.to_nat n) (Z.of_nat k) _
                  (repeat zero (Z.to_nat l - Datatypes.S k)) Hn' Hk') as Hrow.
    rewrite Z2Nat.id in Hrow by lia. fold zero in Hrow.
    rewrite Hrow. cbn [bind]. eexists. split; [reflexivity|].
    cbn [fst snd]. split.
    + rewrite seq_S, !map_app. cbn [map]. rewrite <- app_assoc. reflexivity.
    + rewrite seq_S, !map_app. cbn [map]. now rewrite <- app_assoc.
  - cbn [fst snd] in HM, Hlg. subst M lg. etransitivity; [exact Hrun|].
    rewrite Nat.sub_diag. cbn [repeat]. rewrite app_nil_r. reflexivity.
Qed.

Lemma nth_error_atoms_upto (j : Z) (n i : nat) (x y z : double) :
  (i < n)%nat ->
  frame_coords lib traj j model (Z.of_nat i) = (x, y, z) ->
  exists Q, atoms_upto lib model traj j n
            = atoms_upto lib model traj j i ++ x :: y :: z :: Q.
Proof.
  intros Hi Hxyz. induction n as [|n IH]; [lia|].
  rewrite atoms_upto_S.
  destruct (Nat.eq_dec i n) as [->|Hne].
  - exists []. unfold atom_coords. now rewrite Hxyz.
  - destruct IH as (Q & ->); [lia|].
    eexists. rewrite <- app_assoc. reflexivity.
Qed.

(** X5. When three times the number of selected atoms fits in an
    [unsigned int], [readCoords] returns one row per frame, each of
    three doubles per atom, and the doubles at [3*i], [3*i+1], [3*i+2] of
    row [j] are the coordinates that the trajectory gives atom [i] of the
    selection in frame [j]; the frames are read once each, in order. *)
Theorem readCoords_contents (log : list event) :
  3 * wrap_uint (group_size lib model) < UINT_MOD ->
  exists M,
    readCoords lib model traj log
    = Ok (M, log ++ map EvReadFrame (indices (wrap_uint (nframes lib traj)))) /\
    vsize M = wrap_uint (nframes lib traj) /\
    forall j, 0 <= j < wrap_uint (nframes lib traj) ->
      exists row,
        vget M j = Ok row /\
        vsize row = 3 * wrap_uint (group_size lib model) /\
        forall i, 0 <= i < wrap_uint (group_size lib model) ->
          let '(x, y, z) := frame_coords lib traj j model i in
          vget row (3 * i) = Ok x /\
          vget row (3 * i + 1) = Ok y /\
          vget row (3 * i + 2) = Ok z.
Proof.
  intros Hsmall. eexists. split; [now apply readCoords_rows|].
  set (l := wrap_uint (nframes lib traj)).
  set (n := wrap_uint (group_size lib model)).
  pose proof (wrap_uint_range (nframes lib traj)) as Hl.
  pose proof (wrap_uint_range (group_size lib model)) as Hn.
  fold l in Hl. fold n in Hn.
  split.
  - unfold cache_rows, vsize. rewrite !length_map, length_seq. lia.
  - intros j Hj. exists (atoms_upto lib model traj j (Z.to_nat n)).
    split; [|split].
    + unfold cache_rows.
      destruct (vget_in_range
                  (map (fun j => atoms_upto lib model traj j (Z.to_nat n))
                       (map Z.of_nat (seq 0 (Z.to_nat l)))) j)
        as (row & -> & Hnth).
      * unfold vsize. rewrite !length_map, length_seq. lia.
      * rewrite map_map, nth_error_map, nth_error_seq in Hnth.
        destruct (Nat.ltb_spec (Z.to_nat j) (Z.to_nat l)) as [_|Hge]; [|lia].
        cbn in Hnth. injection Hnth as <-. f_equal. f_equal. lia.
    + unfold vsize. rewrite length_atoms_upto. lia.
    + intros i Hi.
      destruct (frame_coords lib traj j model i) as [[x y] z] eqn:Hxyz.
      destruct (nth_error_atoms_upto j (Z.to_nat n) (Z.to_nat i) x y z)
        as (Q & ->).
      * lia.
      * now rewrite Z2Nat.id by lia.
      * apply vget_atom. unfold vsize. rewrite length_atoms_upto. lia.
Qed.

End CacheContentsProperties.

Lemma readCoords_contents_witness :
  3 * wrap_uint (group_size demo_lib [0; 1]%nat) < UINT_MOD /\
  exists M,
    readCoords demo_lib [0; 1]%nat demo_frames []
    = Ok (M, map EvReadFrame (indices 3)) /\
    vsize M = 3.
Proof.
  assert (H : 3 * wrap_uint (group_size demo_lib [0; 1]%nat) < UINT_MOD)
    by reflexivity.
  split; [exact H|].
  destruct (readCoords_contents demo_lib [0; 1]%nat demo_frames [] H)
    as (M & HM & Hsize & _).
  exists M. split; [exact HM | exact Hsize].
Defined.


(** ** The tool, end to end *)
















Lemma vget_map_seq {A : Type} (f : Z -> A) (l : nat) (j : Z) :
  0 <= j < Z.of_nat l ->
  vget (map f (map Z.of_nat (seq 0 l))) j = Ok (f j).
Proof.
  intros Hj.
  destruct (vget_in_range (map f (map Z.of_nat (seq 0 l))) j) as (x & -> & Hnth).
  - unfold vsize. rewrite !length_map, length_seq. lia.
  - rewrite map_map, nth_error_map, nth_error_seq in Hnth.
    destruct (Nat.ltb_spec (Z.to_nat j) l) as [_|Hge]; [|lia].
    cbn in Hnth. injection Hnth as <-. f_equal. f_equal. lia.
Qed.

(** X7. What a run that returns has computed. Once the three loaders
    have answered and three times the number of selected atoms fits in an
    [unsigned int], the matrix has one row and one column per frame of
    the trajectory, and for all frames [i < j] both cells [(j, i)] and
    [(i, j)] hold what [calcRMSD] returns on frame [j] and frame [i] of
    the selection, each centered on its own centroid. All frames are
    read before the first pair is compared, and the matrix is written
    after the last one. *)
Theorem main_end_to_end (lib : Library) (dgesvj : svd_routine)
    (fmt : Z -> R -> string) (header : string) (o : ToolOptions)
    (model subset : AtomicGroup lib) (traj : pTraj lib)
    (R : RealMatrix) (log : list event) :
  createSystem lib (model1 o) = Ok model ->
  createTrajectory lib (traj1 o) model = Ok traj ->
  selectAtoms lib model (sel1 o) = Ok subset ->
  3 * wrap_uint (group_size lib subset) < UINT_MOD ->
  main lib dgesvj fmt header o = Ok (R, log) ->
  let l := wrap_uint (nframes lib traj) in
  rows R = l /\ cols R = l /\
  (forall j i, 0 <= i < j -> j < l ->
     calcRMSD dgesvj (centered_frame lib subset traj j)
       (centered_frame lib subset traj i) = Ok (cell R j i) /\
     cell R i j = cell R j i) /\
  log = map EvReadFrame (indices l)
        ++ flat_map pair_events (schedule (Z.to_nat l))
        ++ report fmt header (noop o) R.
Proof.
  intros Hmodel Htraj Hsubset Hsmall H l.
  pose proof (wrap_uint_range (nframes lib traj)) as Hl. fold l in Hl.
  pose proof (wrap_uint_range (group_size lib subset)) as Hn.
  set (n := Z.to_nat (wrap_uint (group_size lib subset))).
  set (T := map (centered_frame lib subset traj)
                (map Z.of_nat (seq 0 (Z.to_nat l)))).
  assert (HT : vsize T = l).
  { unfold T, vsize. rewrite !length_map, length_seq. lia. }
  assert (Hcenter : centerTrajectory (cache_rows lib subset traj (Z.to_nat l) n)
                    = Ok T).
  { rewrite centerTrajectory_mapM
      by (unfold cache_rows, vsize; rewrite !length_map, length_seq; lia).
    unfold cache_rows. rewrite mapM_map.
    rewrite (mapM_Ok _ (centered_frame lib subset traj)); [reflexivity|].
    apply Forall_forall. intros j _.
    apply centerAtOrigin_multiple; unfold vsize;
      rewrite length_atoms_upto; unfold n.
    - lia.
    - rewrite Nat2Z.inj_mul, Z.mul_comm. apply Z.mod_mul. lia. }
  unfold main in H. rewrite Hmodel in H. cbn [bind] in H.
  rewrite Htraj in H. cbn [bind] in H. rewrite Hsubset in H. cbn [bind] in H.
  rewrite (readCoords_rows lib subset traj [] Hsmall) in H. cbn [bind] in H.
  fold l n in H. rewrite Hcenter in H. cbn [bind app] in H.
  bind_inv H. rename a into st, Ha into Hrun.
  assert (HR : R = st_R st)
    by (destruct (negb (noop o)); injection H as <- _; reflexivity).
  assert (HsmallT : vsize T < UINT_MOD) by lia.
  destruct (rmsds_run_inv dgesvj T _ st HsmallT Hrun)
    as (Hrows & Hcols & Hlog & _ & Hcells & _).
  rewrite <- HR in *. rewrite HT in *.
  assert (Hlen : length T = Z.to_nat l).
  { unfold T. now rewrite !length_map, length_seq. }
  rewrite Hlen in *.
  split; [exact Hrows|]. split; [exact Hcols|]. split.
  - intros j i Hij Hj.
    destruct (Hcells j i) as [Hpair Hsym].
    { apply In_schedule. lia. }
    split; [|exact Hsym].
    unfold pair_rmsd, T in Hpair.
    rewrite !vget_map_seq in Hpair by lia. exact Hpair.
  - unfold report, header_line.
    destruct (noop o); cbn [negb] in H; injection H as <-.
    + now rewrite Hlog, app_nil_r.
    + now rewrite Hlog, <- app_assoc.
Qed.

Lemma main_end_to_end_witness :
  exists R log,
    main demo_lib dgesvj_half demo_fmt "" demo_options = Ok (R, log) /\
    rows R = 3 /\ cols R = 3 /\
    calcRMSD dgesvj_half (centered_frame demo_lib [0; 1]%nat demo_frames 2)
      (centered_frame demo_lib [0; 1]%nat demo_frames 0) = Ok (cell R 2 0).
Proof.
  destruct (demo_run "" demo_options) as (R & log & H).
  exists R, log. split; [exact H|].
  destruct (main_end_to_end demo_lib dgesvj_half demo_fmt "" demo_options
              [0; 1]%nat [0; 1]%nat demo_frames R log
              eq_refl eq_refl eq_refl eq_refl H) as (Hr & Hc & Hcell & _).
  split; [exact Hr|]. split; [exact Hc|].
  destruct (Hcell 2 0) as [Hv _]; [lia | reflexivity | exact Hv].
Defined.

(** ** The pair loop: failures, small inputs, the progress estimate *)

Lemma rmsds_pair_Throw (dgesvj : svd_routine) (M : vMatrix) (j i : Z)
    (st : rmsds_state) (e : exn) :
  pair_rmsd dgesvj M j i = Throw e -> rmsds_pair dgesvj M j i st = Throw e.
Proof.
  unfold pair_rmsd, rmsds_pair. intros H.
  destruct (vget M j) as [mj| | |]; cbn [bind] in *;
    try discriminate; try (injection H as ->; reflexivity).
  destruct (vget M i) as [mi| | |]; cbn [bind] in *;
    try discriminate; try (injection H as ->; reflexivity).
  now rewrite H.
Qed.

Lemma rmsds_pair_Undefined (dgesvj : svd_routine) (M : vMatrix) (j i : Z)
    (st : rmsds_state) :
  pair_rmsd dgesvj M j i = Undefined -> rmsds_pair dgesvj M j i st = Undefined.
Proof.
  unfold pair_rmsd, rmsds_pair. intros H.
  destruct (vget M j) as [mj| | |]; cbn [bind] in *; try discriminate; auto.
  destruct (vget M i) as [mi| | |]; cbn [bind] in *; try discriminate; auto.
  now rewrite H.
Qed.

(** The pairs before the first failing one are all computed. *)
Lemma rmsds_prefix (dgesvj : svd_routine) (M : vMatrix) (log : list event)
    (done rest : list (Z * Z)) (j i : Z) :
  schedule (length M) = done ++ (j, i) :: rest ->
  (forall p, In p done ->
     exists d, pair_rmsd dgesvj M (fst p) (snd p) = Ok d) ->
  exists st, foldM (rmsds_step dgesvj M) done (rmsds_init (vsize M) log) = Ok st.
Proof.
  intros Hsched Hdone.
  destruct (foldM_total (rmsds_step dgesvj M) (rmsds_inv dgesvj M log) done)
    with (s0 := rmsds_init (vsize M) log) as (st & Hst & _).
  - intros done0 [a b] rest0 s Hl Hinv.
    assert (Hs : schedule (length M)
                 = done0 ++ (a, b) :: (rest0 ++ (j, i) :: rest)).
    { rewrite Hsched, Hl, <- app_assoc. reflexivity. }
    destruct (schedule_next _ _ _ _ _ Hs) as (Hi & Hj & N1 & N2).
    destruct (Hdone (a, b)) as (d & Hd).
    { rewrite Hl. apply in_elt. }
    unfold vsize.
    exact (rmsds_inv_step dgesvj M log done0 a b d s Hinv Hi Hj N1 N2 Hd).
  - apply rmsds_inv_init.
  - now exists st.
Qed.

(** X8. [rmsds] returns exactly when [calcRMSD] returns on every pair
    [i < j] of frames. Otherwise the first pair, in the order of the two
    loops, on which it fails decides the outcome: its exception leaves
    [rmsds] unchanged, and its read out of bounds is one of [rmsds]. *)
Theorem rmsds_first_failure (dgesvj : svd_routine) (M : vMatrix) :
  vsize M < UINT_MOD ->
  ((exists R, rmsds dgesvj M = Ok R) <->
   (forall j i, 0 <= i < j -> j < vsize M ->
      exists d, pair_rmsd dgesvj M j i = Ok d)) /\
  (forall done j i rest,
     schedule (length M) = done ++ (j, i) :: rest ->
     (forall p, In p done ->
        exists d, pair_rmsd dgesvj M (fst p) (snd p) = Ok d) ->
     (forall e, pair_rmsd dgesvj M j i = Throw e -> rmsds dgesvj M = Throw e) /\
     (pair_rmsd dgesvj M j i = Undefined -> rmsds dgesvj M = Undefined)).
Proof.
  intros Hsmall. split; [split|].
  - intros (R & HR) j i Hi Hj. unfold rmsds in HR. bind_inv HR.
    destruct (rmsds_run_inv dgesvj M [] a Hsmall Ha)
      as (_ & _ & _ & _ & Hcells & _).
    destruct (Hcells j i) as [Hpair _].
    { apply In_schedule. unfold vsize in Hj. lia. }
    eauto.
  - intros Hpairs.
    destruct (rmsds_run_total dgesvj M [] Hsmall Hpairs) as (st & Hst).
    exists (st_R st). unfold rmsds. now rewrite Hst.
  - intros done j i rest Hsched Hdone.
    destruct (rmsds_prefix dgesvj M [] done rest j i Hsched Hdone)
      as (st & Hst).
    unfold rmsds. rewrite rmsds_run_foldM by exact Hsmall.
    rewrite Hsched, foldM_app, Hst. cbn [bind foldM].
    change (rmsds_step dgesvj M (j, i) st) with (rmsds_pair dgesvj M j i st).
    split.
    + intros e He. now rewrite (rmsds_pair_Throw dgesvj M j i st e He).
    + intros Hu. now rewrite (rmsds_pair_Undefined dgesvj M j i st Hu).
Qed.

Lemma rmsds_first_failure_witness :
  vsize three_frames < UINT_MOD /\
  rmsds dgesvj_fails three_frames = Throw (NumericalError 7).
Proof.
  assert (Hsmall : vsize three_frames < UINT_MOD) by reflexivity.
  split; [exact Hsmall|].
  destruct (rmsds_first_failure dgesvj_fails three_frames Hsmall) as [_ Hfirst].
  destruct (Hfirst [] 1 0 [(2, 0); (2, 1)]) as [Hthrow _].
  - reflexivity.
  - intros p [].
  - apply Hthrow. unfold pair_rmsd.
    change (vget three_frames 1) with (Ok [1 / 2; 0; 0; -1 / 2; 0; 0]%R).
    change (vget three_frames 0) with (Ok [-1 / 2; 0; 0; 1 / 2; 0; 0]%R).
    cbn [bind].
    rewrite (calcRMSD_value dgesvj_fails _ _ 2%nat);
      reflexivity || (vm_compute; discriminate).
Defined.

(** X9. With fewer than two frames there is nothing to compare: [rmsds]
    returns the [N x N] zero matrix ([N] is 0 or 1) without a call of
    [calcRMSD] or of the SVD routine, and the progress counter is
    started with a total of zero and never updated. *)
Theorem rmsds_fewer_than_two_frames (dgesvj : svd_routine) (M : vMatrix)
    (log : list event) :
  vsize M <= 1 ->
  rmsds_run dgesvj M log
  = Ok (mkState (new_matrix (vsize M) (vsize M))
          (mkProgress trigger_fraction 0 0) log) /\
  rmsds dgesvj M = Ok (new_matrix (vsize M) (vsize M)).
Proof.
  intros Hn. pose proof (vsize_nonneg M) as Hpos.
  assert (Hrun : forall lg,
            rmsds_run dgesvj M lg
            = Ok (mkState (new_matrix (vsize M) (vsize M))
                    (mkProgress trigger_fraction 0 0) lg)).
  { intros lg. unfold rmsds_run.
    rewrite (wrap_uint_small (vsize M)) by (unfold UINT_MOD; lia).
    rewrite for_uint_empty by lia. cbn [bind].
    unfold pc_finish, pc_start. cbn [st_R st_slayer st_log pc_fraction pc_total].
    assert (Htotal : rmsds_total (vsize M) = 0).
    { assert (E : vsize M = 0 \/ vsize M = 1) by lia.
      destruct E as [-> | ->]; reflexivity. }
    now rewrite Htotal. }
  split; [apply Hrun|].
  unfold rmsds. now rewrite Hrun.
Qed.

Lemma rmsds_fewer_than_two_frames_witness :
  vsize [[1; 2; 3; 4]%R] <= 1 /\
  rmsds dgesvj_fails [[1; 2; 3; 4]%R] = Ok (new_matrix 1 1).
Proof.
  assert (H : vsize [[1; 2; 3; 4]%R] <= 1) by (vm_compute; discriminate).
  split; [exact H|].
  exact (proj2 (rmsds_fewer_than_two_frames dgesvj_fails [[1; 2; 3; 4]%R] [] H)).
Defined.

Lemma rmsds_total_below (n : Z) : 0 <= rmsds_total n < 2 ^ 31.
Proof.
  unfold rmsds_total.
  pose proof (wrap_uint_range (n * wrap_uint (n - 1))) as H. unfold UINT_MOD in H.
  assert (Hdiv : 0 <= wrap_uint (n * wrap_uint (n - 1)) / 2 < 2 ^ 31).
  { split; [apply Z.div_pos; lia|]. apply Z.div_lt_upper_bound; lia. }
  rewrite wrap_uint_small by (unfold UINT_MOD; lia). exact Hdiv.
Qed.

(** X10. The progress counter is updated once per pair, so it ends at
    [N (N-1) / 2]. The total that the estimator was given is that number
    exactly when [N <= 65536], that is, when [N (N-1)] fits in an
    [unsigned int]; with more frames the total is smaller than the
    number of updates. *)
Theorem rmsds_progress_total (dgesvj : svd_routine) (M : vMatrix)
    (log : list event) (st : rmsds_state) :
  vsize M < UINT_MOD ->
  rmsds_run dgesvj M log = Ok st ->
  let N := vsize M in
  pc_count (st_slayer st) = N * (N - 1) / 2 /\
  updates (st_log st) = updates log + N * (N - 1) / 2 /\
  (pc_total (st_slayer st) = pc_count (st_slayer st) <-> N <= 65536) /\
  (65536 < N -> pc_total (st_slayer st) < pc_count (st_slayer st)).
Proof.
  intros Hsmall Hrun N. pose proof (vsize_nonneg M) as Hpos. fold N in Hpos.
  destruct (rmsds_progress dgesvj M log st Hsmall Hrun)
    as (Hcount & Htotal & _ & Hupd).
  fold N in Hcount, Htotal. rewrite Hcount in Hupd.
  pose proof (rmsds_total_below N) as Hbelow.
  assert (Hbig : 65536 < N -> 2 ^ 31 <= N * (N - 1) / 2).
  { intros HN. apply Z.div_le_lower_bound; [lia|]. nia. }
  split; [exact Hcount|]. split; [exact Hupd|]. split; [split|].
  - intros E. destruct (Z_le_gt_dec N 65536) as [Hle|Hgt]; [exact Hle|].
    rewrite Htotal, Hcount in E. specialize (Hbig ltac:(lia)). lia.
  - intros HN. rewrite Htotal, Hcount. apply rmsds_total_exact; [lia|].
    unfold UINT_MOD. nia.
  - intros HN. rewrite Htotal, Hcount. specialize (Hbig HN). lia.
Qed.

Lemma rmsds_progress_total_witness :
  exists st,
    vsize three_frames < UINT_MOD /\
    rmsds_run dgesvj_half three_frames [] = Ok st /\
    pc_count (st_slayer st) = 3 /\
    pc_total (st_slayer st) = pc_count (st_slayer st).
Proof.
  assert (Hsmall : vsize three_frames < UINT_MOD) by reflexivity.
  destruct (rmsds_run_total dgesvj_half three_frames [] Hsmall) as (st & Hst).
  { intros j i Hi Hj. apply pair_rmsd_total with (m := 2%nat); auto.
    - repeat constructor.
    - vm_compute. discriminate. }
  exists st.
  destruct (rmsds_progress_total dgesvj_half three_frames [] st Hsmall Hst)
    as (Hcount & _ & Hiff & _).
  split; [exact Hsmall|]. split; [exact Hst|]. split; [exact Hcount|].
  apply Hiff. vm_compute. discriminate.
Defined.

(** ** The RMSD and the order of the atoms, the unit of length *)






Section AtomOrder.
Variable ps : list (vec3 * vec3).




End AtomOrder.



Lemma nth_scale (c : R) (v : vDouble) (k : nat) :
  nth k (scale c v) 0%R = (c * nth k v 0)%R.
Proof.
  revert k. induction v as [|x v IH]; intros [|k]; simpl; try ring. apply IH.
Qed.

Lemma coord_scale (c : R) (v : vDouble) (k a : nat) :
  coord (scale c v) k a = (c * coord v k a)%R.
Proof. unfold coord. apply nth_scale. Qed.

Lemma atom_sum_scale (c : R) (f : nat -> R) (n : nat) :
  atom_sum (fun k => c * f k)%R n = (c * atom_sum f n)%R.
Proof. induction n as [|n IH]; simpl; [ring|]. rewrite IH. ring. Qed.

Lemma cross_cov_scale (c : R) (u v : vDouble) (n a b : nat) :
  cross_cov (scale c u) (scale c v) n a b = (c * c * cross_cov u v n a b)%R.
Proof.
  unfold cross_cov. rewrite <- atom_sum_scale. apply atom_sum_ext.
  intros k _. rewrite !coord_scale. ring.
Qed.

Lemma E0_spec_scale (c : R) (u v : vDouble) (n : nat) :
  E0_spec (scale c u) (scale c v) n = (c * c * E0_spec u v n)%R.
Proof.
  unfold E0_spec.
  assert (H : forall w, atom_sum (sq_norm (scale c w)) n
                        = (c * c * atom_sum (sq_norm w) n)%R).
  { intros w. rewrite <- atom_sum_scale. apply atom_sum_ext.
    intros k _. unfold sq_norm. rewrite !coord_scale. ring. }
  rewrite !H. ring.
Qed.

(** The singular values of [k m], [k >= 0], are [k] times those of [m]. *)
Lemma singular_values_scale (k : R) (m : list R) (s0 s1 s2 : R) :
  (0 <= k)%R -> length m = 9%nat ->
  singular_values m (s0, s1, s2) ->
  singular_values (map (Rmult k) m) (k * s0, k * s1, k * s2)%R.
Proof.
  intros Hk Hlen.
  destruct m as [|m0 [|m1 [|m2 [|m3 [|m4 [|m5 [|m6 [|m7 [|m8 [|]]]]]]]]]];
    try discriminate.
  unfold singular_values, gram_trace, gram_minors, gram_det, gram, entry.
  cbn [map nth Nat.add Nat.mul].
  intros (H2 & H1 & H0 & Ht & Hm & Hd).
  repeat split.
  - now apply Rmult_le_pos.
  - now apply Rmult_le_compat_l.
  - now apply Rmult_le_compat_l.
  - transitivity (k * k * (s0 * s0 + s1 * s1 + s2 * s2))%R; [ring|].
    rewrite Ht. ring.
  - transitivity (k * k * k * k
                  * (s0 * s0 * (s1 * s1) + s0 * s0 * (s2 * s2)
                     + s1 * s1 * (s2 * s2)))%R; [ring|].
    rewrite Hm. ring.
  - transitivity (k * k * k * k * k * k
                  * (s0 * s0 * (s1 * s1) * (s2 * s2)))%R; [ring|].
    rewrite Hd. ring.
Qed.

Lemma cov_matrix_scale (c : R) (u v : vDouble) (n : nat) :
  cov_matrix (scale c u) (scale c v) n = map (Rmult (c * c)) (cov_matrix u v n).
Proof. unfold cov_matrix. cbn [map]. now rewrite !cross_cov_scale. Qed.

(** X12. The RMSD is measured in the unit of the coordinates: when every
    coordinate of both frames is multiplied by [c], and the SVD routine
    is exact on the two matrices it is given, the value that [calcRMSD]
    returns is multiplied by [|c|]. *)
Theorem calcRMSD_scale (dgesvj : svd_routine) (c : R) (u v : vDouble) (n : nat) :
  vsize u = 3 * Z.of_nat n -> vsize v = 3 * Z.of_nat n ->
  3 * Z.of_nat n <= INT_MAX ->
  svd_exact dgesvj (cov_matrix u v n) ->
  svd_exact dgesvj (cov_matrix (scale c u) (scale c v) n) ->
  exists d,
    calcRMSD dgesvj u v = Ok d /\
    calcRMSD dgesvj (scale c u) (scale c v) = Ok (Rabs c * d)%R.
Proof.
  intros Hu Hv Hmax [Hinfo Hs] [Hinfo' Hs'].
  rewrite (calcRMSD_value dgesvj u v n) by lia.
  rewrite (calcRMSD_value dgesvj (scale c u) (scale c v) n)
    by (unfold scale, vsize in *; rewrite !length_map; lia).
  unfold rmsd_outcome.
  destruct (dgesvj (cov_matrix u v n)) as [[[s0 s1] s2] info].
  destruct (dgesvj (cov_matrix (scale c u) (scale c v) n))
    as [[[t0 t1] t2] info'].
  cbn [fst snd] in *. subst info info'. cbn [Z.eqb negb].
  eexists. split; [reflexivity|]. f_equal.
  assert (Hc : (0 <= c * c)%R) by nra.
  pose proof (singular_values_scale (c * c) (cov_matrix u v n) s0 s1 s2
                Hc eq_refl Hs) as Hscaled.
  rewrite <- cov_matrix_scale in Hscaled.
  pose proof (singular_values_unique _ _ _ _ eq_refl eq_refl eq_refl Hs' Hscaled)
    as E.
  injection E as -> -> ->.
  rewrite E0_spec_scale.
  replace (c * c * E0_spec u v n - 2 * (c * c * s0 + c * c * s1 + c * c * s2))%R
    with (c * c * (E0_spec u v n - 2 * (s0 + s1 + s2)))%R by ring.
  rewrite Rabs_mult, (Rabs_pos_eq (c * c)) by exact Hc.
  unfold Rdiv. rewrite Rmult_assoc, sqrt_mult_alt by exact Hc.
  f_equal. rewrite <- (sqrt_Rsqr_abs c). reflexivity.
Qed.

Lemma calcRMSD_scale_witness :
  exists d,
    calcRMSD dgesvj_half [-1 / 2; 0; 0; 1 / 2; 0; 0]%R [1 / 2; 0; 0; -1 / 2; 0; 0]%R
    = Ok d /\
    calcRMSD dgesvj_half (scale (-1) [-1 / 2; 0; 0; 1 / 2; 0; 0]%R)
      (scale (-1) [1 / 2; 0; 0; -1 / 2; 0; 0]%R)
    = Ok (Rabs (-1) * d)%R.
Proof.
  apply (calcRMSD_scale dgesvj_half (-1) _ _ 2%nat).
  - reflexivity.
  - reflexivity.
  - vm_compute. discriminate.
  - split; [reflexivity|].
    unfold singular_values, gram_trace, gram_minors, gram_det, gram, entry,
      cov_matrix, cross_cov, coord, dgesvj_half.
    cbn [fst atom_sum nth Nat.add Nat.mul]. repeat split; lra.
  - split; [reflexivity|].
    unfold singular_values, gram_trace, gram_minors, gram_det, gram, entry,
      cov_matrix, cross_cov, coord, dgesvj_half, scale.
    cbn [fst atom_sum nth Nat.add Nat.mul map]. repeat split; lra.
Defined.

(** ** The command line *)

Lemma vm_count_given (m : variables_map) (key : string) :
  (vm_count m key = 1 /\ given m key) \/ (vm_count m key = 0 /\ ~ given m key).
Proof.
  unfold vm_count, given.
  destruct (existsb (fun e => String.eqb (fst e) key) m) eqn:E.
  - left. split; [reflexivity|].
    apply existsb_exists in E. destruct E as ([k v] & Hin & Hk).
    apply String.eqb_eq in Hk. cbn [fst] in Hk. subst k. now exists v.
  - right. split; [reflexivity|]. intros (v & Hin).
    assert (E' : existsb (fun e => String.eqb (fst e) key) m = true).
    { apply existsb_exists. exists (key, v). split; [exact Hin|].
      apply String.eqb_refl. }
    congruence.
Qed.

(** X13. [ToolOptions::check] accepts a command line (returns [false])
    exactly when the first model and the first trajectory are both
    given and the second model and the second trajectory are given
    together or not at all; the other options play no part. *)
Theorem check_accepts (m : variables_map) :
  check m = false <->
  given m "model1" /\ given m "traj1" /\
  (given m "model2" <-> given m "traj2").
Proof.
  unfold check.
  destruct (vm_count_given m "model1") as [[-> H1]|[-> H1]];
  destruct (vm_count_given m "traj1") as [[-> H2]|[-> H2]];
  destruct (vm_count_given m "model2") as [[-> H3]|[-> H3]];
  destruct (vm_count_given m "traj2") as [[-> H4]|[-> H4]];
  cbn; split; try discriminate; try tauto.
Qed.

(** ** The cache when the row length overflows *)

Lemma vset_out_of_range {A : Type} (v : list A) (i : Z) (x : A) :
  vsize v <= i -> vset v i x = Undefined.
Proof.
  intros H. unfold vset.
  assert (E : (i <? vsize v) = false) by (apply Z.ltb_ge; lia).
  rewrite E. now rewrite andb_false_r.
Qed.

Section CacheOverflow.
Variable lib : Library.
Variable model : AtomicGroup lib.
Variable traj : pTraj lib.

(** Rows of [r] doubles: an atom whose three slots exist is stored. *)
Lemma store_atom_rows (l r j i : Z) (M : vMatrix) :
  vsize M = l -> Forall (fun v => vsize v = r) M ->
  0 <= j < l -> 0 <= i -> 3 * i + 2 < r -> r < UINT_MOD ->
  exists M', store_atom lib model traj j i M = Ok M' /\
             vsize M' = l /\ Forall (fun v => vsize v = r) M'.
Proof.
  intros Hl Hrows Hj Hi Hir Hsmall. unfold store_atom.
  destruct (frame_coords lib traj j model i) as [[x y] z].
  destruct (vget_in_range M j) as (row & Hget & Hnth); [lia|].
  rewrite Hget. cbn [bind].
  assert (Hrow : vsize row = r).
  { rewrite Forall_forall in Hrows. eapply Hrows, nth_error_In; eauto. }
  rewrite (wrap_uint_small (i * 3)) by lia.
  rewrite !wrap_uint_small by lia.
  rewrite vset_in_range by lia. cbn [bind].
  rewrite vset_in_range by (rewrite vsize_upd; lia). cbn [bind].
  rewrite vset_in_range by (rewrite !vsize_upd; lia). cbn [bind].
  rewrite vset_in_range by lia.
  eexists. split; [reflexivity|]. split.
  - now rewrite vsize_upd.
  - apply Forall_upd; [exact Hrows|]. now rewrite !vsize_upd.
Qed.

(** The atom whose slots reach the end of the row is written past it. *)
Lemma store_atom_past_row (l r j i : Z) (M : vMatrix) :
  vsize M = l -> Forall (fun v => vsize v = r) M ->
  0 <= j < l -> 0 <= i -> 3 * i <= r <= 3 * i + 2 -> r < UINT_MOD ->
  store_atom lib model traj j i M = Undefined.
Proof.
  intros Hl Hrows Hj Hi Hir Hsmall. unfold store_atom.
  destruct (frame_coords lib traj j model i) as [[x y] z].
  destruct (vget_in_range M j) as (row & Hget & Hnth); [lia|].
  rewrite Hget. cbn [bind].
  assert (Hrow : vsize row = r).
  { rewrite Forall_forall in Hrows. eapply Hrows, nth_error_In; eauto. }
  rewrite (wrap_uint_small (i * 3)) by lia.
  destruct (Z.eq_dec r (3 * i)) as [E0|N0].
  { rewrite vset_out_of_range by lia. reflexivity. }
  rewrite vset_in_range by lia. cbn [bind].
  rewrite (wrap_uint_small (i * 3 + 1)) by lia.
  destruct (Z.eq_dec r (3 * i + 1)) as [E1|N1].
  { rewrite vset_out_of_range by (rewrite vsize_upd; lia). reflexivity. }
  rewrite vset_in_range by (rewrite vsize_upd; lia). cbn [bind].
  rewrite (wrap_uint_small (i * 3 + 2)) by lia.
  rewrite vset_out_of_range by (rewrite !vsize_upd; lia). reflexivity.
Qed.

(** X14. The length of a row of the cache is [3 * n] computed in
    [unsigned int]. When the selection has so many atoms that this
    product wraps ([3 * n >= 2^32]) and the trajectory has a frame, the
    rows are shorter than three doubles per atom and [readCoords] writes
    past the end of the first row. *)
Theorem readCoords_row_overflow (log : list event) :
  UINT_MOD <= 3 * wrap_uint (group_size lib model) ->
  0 < wrap_uint (nframes lib traj) ->
  wrap_uint (3 * wrap_uint (group_size lib model))
    < 3 * wrap_uint (group_size lib model) /\
  readCoords lib model traj log = Undefined.
Proof.
  set (l := wrap_uint (nframes lib traj)).
  set (n := wrap_uint (group_size lib model)).
  set (r := wrap_uint (3 * n)).
  intros Hbig Hl.
  pose proof (wrap_uint_range (nframes lib traj)) as Hlr.
  pose proof (wrap_uint_range (group_size lib model)) as Hnr.
  pose proof (wrap_uint_range (3 * n)) as Hrr.
  fold l in Hlr. fold n in Hnr. fold r in Hrr.
  split; [lia|].
  set (q := Z.to_nat (r / 3)).
  assert (Hq : 3 * Z.of_nat q <= r <= 3 * Z.of_nat q + 2).
  { unfold q. rewrite Z2Nat.id by (apply Z.div_pos; lia).
    pose proof (Z.div_mod r 3). pose proof (Z.mod_pos_bound r 3). lia. }
  assert (Hqn : (q < Z.to_nat n)%nat) by lia.
  set (M0 := repeat (repeat 0%R (Z.to_nat r)) (Z.to_nat l)).
  assert (Hshape : vsize M0 = l /\ Forall (fun v : vDouble => vsize v = r) M0).
  { split.
    - unfold M0, vsize. rewrite repeat_length. lia.
    - apply Forall_forall. intros v Hv. apply repeat_spec in Hv. subst v.
      unfold vsize. rewrite repeat_length. lia. }
  assert (Hinner : for_uint 0 n 1 (store_atom lib model traj 0) M0 = Undefined).
  { rewrite (for_uint_foldM 0 n 1 (Z.to_nat n)) by (unfold counter; lia).
    replace (Z.to_nat n) with (q + Datatypes.S (Z.to_nat n - Datatypes.S q))%nat
      by lia.
    rewrite seq_app, map_app. cbn [seq map Nat.add]. rewrite foldM_app.
    destruct (foldM_total (store_atom lib model traj 0)
      (fun _ M => vsize M = l /\ Forall (fun v : vDouble => vsize v = r) M)
      (map (counter 0 1) (seq 0 q))) with (s0 := M0) as (M1 & -> & HM1).
    - intros done i rest M Hlist [HMl HMr].
      assert (Hin : In i (map (counter 0 1) (seq 0 q)))
        by (rewrite Hlist; apply in_elt).
      apply in_map_iff in Hin. destruct Hin as (k & <- & Hk).
      apply in_seq in Hk. unfold counter.
      apply store_atom_rows with (l := l) (r := r); auto; lia.
    - exact Hshape.
    - cbn [bind foldM]. destruct HM1 as [HMl HMr].
      rewrite (store_atom_past_row l r 0 (counter 0 1 q) M1); auto;
        unfold counter; lia. }
  unfold readCoords. fold l n r M0. unfold for_uint at 1.
  cbn [iterate].
  assert (Hcond : (0 <? l) = true) by (apply Z.ltb_lt; lia).
  rewrite Hcond. cbn [bind]. now rewrite Hinner.
Qed.
End CacheOverflow.

Lemma readCoords_row_overflow_witness :
  wrap_uint (3 * wrap_uint (group_size huge_lib tt)) = 2 /\
  readCoords huge_lib tt tt [] = Undefined.
Proof.
  split; [reflexivity|].
  apply (readCoords_row_overflow huge_lib tt tt []).
  - vm_compute. discriminate.
  - reflexivity.
Defined.


(** ** The RMSD and rigid rotations *)

Lemma length_rotate (Q : mat3) (v : vDouble) : length (rotate Q v) = length v.
Proof.
  assert (H : forall k (w : vDouble), (length w <= k)%nat ->
                length (rotate Q w) = length w).
  { intros k. induction k as [|k IH]; intros w Hw.
    - destruct w; [reflexivity | simpl in Hw; lia].
    - destruct w as [|x [|y [|z w]]]; try reflexivity.
      cbn [rotate length]. rewrite IH by (simpl in Hw; lia). reflexivity. }
  now apply (H (length v)).
Qed.

Lemma coord_rotate (Q : mat3) (v : vDouble) (n k a : nat) :
  length v = (3 * n)%nat -> (k < n)%nat -> (a < 3)%nat ->
  coord (rotate Q v) k a
  = (Q a 0%nat * coord v k 0 + Q a 1%nat * coord v k 1
     + Q a 2%nat * coord v k 2)%R.
Proof.
  revert v k. induction n as [|n IH]; intros v k Hv Hk Ha; [lia|].
  destruct v as [|x [|y [|z v]]]; simpl in Hv; try lia.
  destruct k as [|k].
  - unfold coord. cbn [rotate].
    destruct a as [|[|[|a]]]; [reflexivity | reflexivity | reflexivity | lia].
  - unfold coord in *. cbn [rotate].
    replace (3 * Datatypes.S k + a)%nat
      with (Datatypes.S (Datatypes.S (Datatypes.S (3 * k + a)))) by lia.
    replace (3 * Datatypes.S k + 0)%nat
      with (Datatypes.S (Datatypes.S (Datatypes.S (3 * k + 0)))) by lia.
    replace (3 * Datatypes.S k + 1)%nat
      with (Datatypes.S (Datatypes.S (Datatypes.S (3 * k + 1)))) by lia.
    replace (3 * Datatypes.S k + 2)%nat
      with (Datatypes.S (Datatypes.S (Datatypes.S (3 * k + 2)))) by lia.
    cbn [nth]. apply IH; lia.
Qed.

Lemma atom_sum_plus (f g : nat -> R) (n : nat) :
  atom_sum (fun k => f k + g k)%R n = (atom_sum f n + atom_sum g n)%R.
Proof. induction n as [|n IH]; simpl; [ring|]. rewrite IH. ring. Qed.

Section Rotation.
Variable Q : mat3.
Hypothesis Q_orthogonal : orthogonal Q.
Variables u v : vDouble.
Variable n : nat.
Hypothesis Hu : length u = (3 * n)%nat.

Lemma cross_cov_rotate (a b : nat) :
  (a < 3)%nat ->
  cross_cov (rotate Q u) v n a b
  = (Q a 0%nat * cross_cov u v n 0 b + Q a 1%nat * cross_cov u v n 1 b
     + Q a 2%nat * cross_cov u v n 2 b)%R.
Proof.
  intros Ha. unfold cross_cov.
  rewrite <- !atom_sum_scale, <- !atom_sum_plus.
  apply atom_sum_ext. intros k Hk.
  rewrite (coord_rotate Q u n k a Hu Hk Ha). ring.
Qed.

Lemma sq_norm_rotate (k : nat) :
  (k < n)%nat -> sq_norm (rotate Q u) k = sq_norm u k.
Proof.
  intros Hk. unfold sq_norm.
  rewrite !(coord_rotate Q u n k _ Hu Hk) by lia.
  destruct Q_orthogonal as (H00 & H11 & H22 & H01 & H02 & H12).
  set (x := coord u k 0). set (y := coord u k 1). set (z := coord u k 2).
  transitivity (gram3 Q 0 0 * (x * x) + gram3 Q 1 1 * (y * y)
                + gram3 Q 2 2 * (z * z) + 2 * gram3 Q 0 1 * (x * y)
                + 2 * gram3 Q 0 2 * (x * z) + 2 * gram3 Q 1 2 * (y * z))%R.
  - unfold gram3. ring.
  - rewrite H00, H11, H22, H01, H02, H12. ring.
Qed.

Lemma E0_spec_rotate : E0_spec (rotate Q u) v n = E0_spec u v n.
Proof.
  unfold E0_spec. f_equal. apply atom_sum_ext. intros k Hk.
  now apply sq_norm_rotate.
Qed.

(** The Gram matrix of [Q R] is the one of [R]. *)
Lemma gram_rotate (a b : nat) :
  (a < 3)%nat -> (b < 3)%nat ->
  gram (cov_matrix (rotate Q u) v n) a b = gram (cov_matrix u v n) a b.
Proof.
  intros Ha Hb.
  assert (He : forall (w : vDouble) (c d : nat), (c < 3)%nat -> (d < 3)%nat ->
                 entry (cov_matrix w v n) c d = cross_cov w v n c d).
  { intros w c d Hc Hd. unfold entry, cov_matrix.
    destruct c as [|[|[|c]]]; [| | |lia];
      (destruct d as [|[|[|d]]]; [| | |lia]); reflexivity. }
  unfold gram. rewrite !He by lia.
  rewrite !cross_cov_rotate by lia.
  destruct Q_orthogonal as (H00 & H11 & H22 & H01 & H02 & H12).
  set (r0a := cross_cov u v n 0 a). set (r1a := cross_cov u v n 1 a).
  set (r2a := cross_cov u v n 2 a). set (r0b := cross_cov u v n 0 b).
  set (r1b := cross_cov u v n 1 b). set (r2b := cross_cov u v n 2 b).
  transitivity (gram3 Q 0 0 * (r0a * r0b) + gram3 Q 1 1 * (r1a * r1b)
                + gram3 Q 2 2 * (r2a * r2b)
                + gram3 Q 0 1 * (r0a * r1b + r1a * r0b)
                + gram3 Q 0 2 * (r0a * r2b + r2a * r0b)
                + gram3 Q 1 2 * (r1a * r2b + r2a * r1b))%R.
  - unfold gram3. ring.
  - rewrite H00, H11, H22, H01, H02, H12. ring.
Qed.
End Rotation.

(** The coefficients of the characteristic polynomial of the Gram
    matrix do not see a rotation of the first frame, nor of the second. *)
Lemma gram_coefficients_rotate_left (Q : mat3) (u v : vDouble) (n : nat) :
  orthogonal Q -> length u = (3 * n)%nat ->
  gram_trace (cov_matrix (rotate Q u) v n) = gram_trace (cov_matrix u v n) /\
  gram_minors (cov_matrix (rotate Q u) v n) = gram_minors (cov_matrix u v n) /\
  gram_det (cov_matrix (rotate Q u) v n) = gram_det (cov_matrix u v n).
Proof.
  intros HQ Hlen. unfold gram_trace, gram_minors, gram_det.
  rewrite !(gram_rotate Q HQ u v n Hlen) by lia. repeat split.
Qed.

Lemma gram_coefficients_rotate_right (Q : mat3) (u v : vDouble) (n : nat) :
  orthogonal Q -> length v = (3 * n)%nat ->
  gram_trace (cov_matrix u (rotate Q v) n) = gram_trace (cov_matrix u v n) /\
  gram_minors (cov_matrix u (rotate Q v) n) = gram_minors (cov_matrix u v n) /\
  gram_det (cov_matrix u (rotate Q v) n) = gram_det (cov_matrix u v n).
Proof.
  intros HQ Hlen.
  rewrite (cov_matrix_sym (rotate Q v) u n), (cov_matrix_sym v u n).
  destruct (gram_transpose (cov_matrix (rotate Q v) u n)) as (-> & -> & ->).
  destruct (gram_transpose (cov_matrix v u n)) as (-> & -> & ->).
  now apply gram_coefficients_rotate_left.
Qed.

(** X15. The RMSD is the one of the best superposition: turning the two
    frames rigidly about the origin, each by a rotation or reflection of
    its own, changes neither the sum of the squared norms nor the
    singular values of the cross-covariance matrix, so that with an exact
    SVD routine [calcRMSD] returns the same value. *)
Theorem calcRMSD_rotation_invariant (dgesvj : svd_routine) (Q1 Q2 : mat3)
    (u v : vDouble) (n : nat) :
  orthogonal Q1 -> orthogonal Q2 ->
  vsize u = 3 * Z.of_nat n -> vsize v = 3 * Z.of_nat n ->
  3 * Z.of_nat n <= INT_MAX ->
  svd_exact dgesvj (cov_matrix u v n) ->
  svd_exact dgesvj (cov_matrix (rotate Q1 u) (rotate Q2 v) n) ->
  E0_spec (rotate Q1 u) (rotate Q2 v) n = E0_spec u v n /\
  fst (dgesvj (cov_matrix (rotate Q1 u) (rotate Q2 v) n))
  = fst (dgesvj (cov_matrix u v n)) /\
  calcRMSD dgesvj (rotate Q1 u) (rotate Q2 v) = calcRMSD dgesvj u v.
Proof.
  intros HQ1 HQ2 Hu Hv Hmax [Hinfo Hs] [Hinfo' Hs'].
  assert (Hlenu : length u = (3 * n)%nat) by (unfold vsize in Hu; lia).
  assert (Hlenv : length v = (3 * n)%nat) by (unfold vsize in Hv; lia).
  assert (HE : E0_spec (rotate Q1 u) (rotate Q2 v) n = E0_spec u v n).
  { rewrite (E0_spec_rotate Q1 HQ1 u (rotate Q2 v) n Hlenu).
    rewrite E0_spec_sym, (E0_spec_rotate Q2 HQ2 v u n Hlenv).
    apply E0_spec_sym. }
  destruct (gram_coefficients_rotate_left Q1 u (rotate Q2 v) n HQ1 Hlenu)
    as (Lt & Lm & Ld).
  destruct (gram_coefficients_rotate_right Q2 u v n HQ2 Hlenv)
    as (Rt & Rm & Rd).
  assert (Hsv : fst (dgesvj (cov_matrix (rotate Q1 u) (rotate Q2 v) n))
                = fst (dgesvj (cov_matrix u v n))).
  { apply (singular_values_unique (cov_matrix (rotate Q1 u) (rotate Q2 v) n)
             (cov_matrix u v n)); [| | |exact Hs'|exact Hs]; congruence. }
  split; [exact HE|]. split; [exact Hsv|].
  rewrite (calcRMSD_value dgesvj u v n) by lia.
  rewrite (calcRMSD_value dgesvj (rotate Q1 u) (rotate Q2 v) n)
    by (unfold vsize in *; rewrite ?length_rotate; lia).
  unfold rmsd_outcome. rewrite HE.
  destruct (dgesvj (cov_matrix u v n)) as [[[s0 s1] s2] info].
  destruct (dgesvj (cov_matrix (rotate Q1 u) (rotate Q2 v) n))
    as [[[t0 t1] t2] info'].
  cbn [fst snd] in *. subst info info'. now injection Hsv as -> -> ->.
Qed.

Lemma calcRMSD_rotation_invariant_witness :
  orthogonal half_turn_z /\ orthogonal (fun a b => if Nat.eqb a b then 1 else 0)%R /\
  calcRMSD dgesvj_half (rotate half_turn_z [-1 / 2; 0; 0; 1 / 2; 0; 0]%R)
    (rotate (fun a b => if Nat.eqb a b then 1 else 0)%R
       [1 / 2; 0; 0; -1 / 2; 0; 0]%R)
  = calcRMSD dgesvj_half [-1 / 2; 0; 0; 1 / 2; 0; 0]%R
      [1 / 2; 0; 0; -1 / 2; 0; 0]%R.
Proof.
  assert (HQ1 : orthogonal half_turn_z).
  { unfold orthogonal, gram3, half_turn_z. repeat split; lra. }
  assert (HQ2 : orthogonal (fun a b => if Nat.eqb a b then 1 else 0)%R).
  { unfold orthogonal, gram3. cbn [Nat.eqb]. repeat split; lra. }
  split; [exact HQ1|]. split; [exact HQ2|].
  apply (calcRMSD_rotation_invariant dgesvj_half half_turn_z _ _ _ 2%nat HQ1 HQ2).
  - reflexivity.
  - reflexivity.
  - vm_compute. discriminate.
  - split; [reflexivity|].
    unfold singular_values, gram_trace, gram_minors, gram_det, gram, entry,
      cov_matrix, cross_cov, coord, dgesvj_half.
    cbn [fst atom_sum nth Nat.add Nat.mul]. repeat split; lra.
  - split; [reflexivity|].
    unfold singular_values, gram_trace, gram_minors, gram_det, gram, entry,
      cov_matrix, cross_cov, coord, dgesvj_half, half_turn_z.
    cbn [fst atom_sum nth Nat.add Nat.mul rotate Nat.eqb]. repeat split; lra.
Defined.

(** ** The RMSD when the SVD routine fails *)

(** X22. On two frames of the same number of atoms, the SVD routine
    decides the outcome of [calcRMSD]: when it reports [info = 0] a
    value is returned, and when it reports another [info] for the
    cross-covariance matrix, [calcRMSD] throws [NumericalError] with
    exactly that [info]; the singular values are then not used. *)
Theorem calcRMSD_svd_failure (dgesvj : svd_routine) (u v : vDouble) (n : nat) :
  vsize u = 3 * Z.of_nat n -> vsize u <= vsize v -> vsize u <= INT_MAX ->
  let info := snd (dgesvj (cov_matrix u v n)) in
  (info <> 0 -> calcRMSD dgesvj u v = Throw (NumericalError info)) /\
  (info = 0 -> exists d, calcRMSD dgesvj u v = Ok d) /\
  (forall e, calcRMSD dgesvj u v = Throw e -> e = NumericalError info).
Proof.
  intros Hu Hv Hmax info.
  rewrite (calcRMSD_value dgesvj u v n Hu Hv Hmax).
  unfold rmsd_outcome. subst info.
  destruct (dgesvj (cov_matrix u v n)) as [[[s0 s1] s2] info]. cbn [snd].
  destruct (Z.eqb_spec info 0) as [->|Hne]; cbn [negb].
  - split; [intros H; now destruct H|]. split; [eauto|]. discriminate.
  - split; [reflexivity|]. split; [intros H; now destruct Hne|].
    intros e He. now injection He as <-.
Qed.

Lemma calcRMSD_svd_failure_witness :
  calcRMSD dgesvj_fails [-1 / 2; 0; 0; 1 / 2; 0; 0]%R
    [1 / 2; 0; 0; -1 / 2; 0; 0]%R
  = Throw (NumericalError 7).
Proof.
  apply (calcRMSD_svd_failure dgesvj_fails _ _ 2%nat).
  - reflexivity.
  - vm_compute. discriminate.
  - vm_compute. discriminate.
  - discriminate.
Defined.

(** ** 4 x 4 matrices *)

Lemma Matrix44_cases (k : Z) :
  0 <= k <= 3 -> k = 0 \/ k = 1 \/ k = 2 \/ k = 3.
Proof. lia. Qed.

Ltac m44_index k H :=
  destruct (Matrix44_cases k H) as [?|[?|[?|?]]]; subst k.

Lemma Matrix44_Build_eq (a0 a1 a2 a3 a4 a5 a6 a7 a8 a9 a10 a11 a12 a13 a14 a15
    b0 b1 b2 b3 b4 b5 b6 b7 b8 b9 b10 b11 b12 b13 b14 b15 : R) :
  a0 = b0 ->
  a1 = b1 ->
  a2 = b2 ->
  a3 = b3 ->
  a4 = b4 ->
  a5 = b5 ->
  a6 = b6 ->
  a7 = b7 ->
  a8 = b8 ->
  a9 = b9 ->
  a10 = b10 ->
  a11 = b11 ->
  a12 = b12 ->
  a13 = b13 ->
  a14 = b14 ->
  a15 = b15 ->
  Matrix44.Build a0 a1 a2 a3 a4 a5 a6 a7 a8 a9 a10 a11 a12 a13 a14 a15
  = Matrix44.Build b0 b1 b2 b3 b4 b5 b6 b7 b8 b9 b10 b11 b12 b13 b14 b15.
Proof. intros. subst. reflexivity. Qed.

Lemma Matrix44_Coord_eq (a0 a1 a2 a3 b0 b1 b2 b3 : R) :
  a0 = b0 -> a1 = b1 -> a2 = b2 -> a3 = b3 ->
  (a0, a1, a2, a3) = (b0, b1, b2, b3).
Proof. intros. subst. reflexivity. Qed.

(** X16. The two accessors of a matrix check their indices: [M(j, i)]
    is the element [4*j + i] of the linear array when both indices are
    in [0 .. 3] and throws [range_error] otherwise, [M[i]] is defined for
    [0 .. 15] and throws otherwise. Neither reads outside the array. *)
Theorem Matrix44_access (M : Matrix44.t) (j i : Z) :
  (0 <= j <= 3 /\ 0 <= i <= 3 ->
   Matrix44.at_ M j i = Matrix44.index M (4 * j + i) /\
   Matrix44.at_ M j i = Matrix44.Value (Matrix44.matrix M (4 * j + i))) /\
  (~ (0 <= j <= 3 /\ 0 <= i <= 3) ->
   Matrix44.at_ M j i
   = Matrix44.range_error "Indices into matrix are out of range") /\
  (0 <= i <= 15 -> Matrix44.index M i = Matrix44.Value (Matrix44.matrix M i)) /\
  (~ 0 <= i <= 15 ->
   Matrix44.index M i = Matrix44.range_error "Index into matrix is out of range").
Proof.
  unfold Matrix44.at_, Matrix44.index. repeat split.
  - destruct H as [Hj Hi].
    assert (E1 : (j <? 0) || (i <? 0) || (i >? 3) || (j >? 3) = false).
    { rewrite !orb_false_iff. rewrite !Z.ltb_ge, !Z.gtb_ltb, !Z.ltb_ge. lia. }
    assert (E2 : (4 * j + i <? 0) || (4 * j + i >? 15) = false).
    { rewrite !orb_false_iff. rewrite !Z.ltb_ge, !Z.gtb_ltb, !Z.ltb_ge. lia. }
    rewrite E1, E2. f_equal. f_equal. lia.
  - destruct H as [Hj Hi].
    assert (E1 : (j <? 0) || (i <? 0) || (i >? 3) || (j >? 3) = false).
    { rewrite !orb_false_iff. rewrite !Z.ltb_ge, !Z.gtb_ltb, !Z.ltb_ge. lia. }
    rewrite E1. f_equal. f_equal. lia.
  - intros Hout.
    assert (E1 : (j <? 0) || (i <? 0) || (i >? 3) || (j >? 3) = true).
    { rewrite !orb_true_iff. rewrite !Z.ltb_lt, !Z.gtb_ltb, !Z.ltb_lt. lia. }
    now rewrite E1.
  - intros Hi.
    assert (E2 : (i <? 0) || (i >? 15) = false).
    { rewrite !orb_false_iff. rewrite !Z.ltb_ge, !Z.gtb_ltb, !Z.ltb_ge. lia. }
    now rewrite E2.
  - intros Hout.
    assert (E2 : (i <? 0) || (i >? 15) = true).
    { rewrite !orb_true_iff. rewrite !Z.ltb_lt, !Z.gtb_ltb, !Z.ltb_lt. lia. }
    now rewrite E2.
Qed.

(** X17. The sixteen sums of [operator*=] are the matrix product: the
    element at row [j] and column [i] of [A * B] is the sum over [k] of
    [A(j, k) * B(k, i)]. *)
Theorem Matrix44_mul_entry (A B : Matrix44.t) (j i : Z) :
  0 <= j <= 3 -> 0 <= i <= 3 ->
  Matrix44.matrix (Matrix44.mul A B) (4 * j + i)
  = (Matrix44.matrix A (4 * j + 0) * Matrix44.matrix B (4 * 0 + i)
     + Matrix44.matrix A (4 * j + 1) * Matrix44.matrix B (4 * 1 + i)
     + Matrix44.matrix A (4 * j + 2) * Matrix44.matrix B (4 * 2 + i)
     + Matrix44.matrix A (4 * j + 3) * Matrix44.matrix B (4 * 3 + i))%R.
Proof.
  intros Hj Hi. m44_index j Hj; m44_index i Hi; reflexivity.
Qed.

Lemma Matrix44_mul_entry_witness :
  Matrix44.matrix (Matrix44.mul Matrix44.identity (Matrix44.constant 2)) (4 * 1 + 2)
  = (Matrix44.matrix Matrix44.identity (4 * 1 + 0)
       * Matrix44.matrix (Matrix44.constant 2) (4 * 0 + 2)
     + Matrix44.matrix Matrix44.identity (4 * 1 + 1)
       * Matrix44.matrix (Matrix44.constant 2) (4 * 1 + 2)
     + Matrix44.matrix Matrix44.identity (4 * 1 + 2)
       * Matrix44.matrix (Matrix44.constant 2) (4 * 2 + 2)
     + Matrix44.matrix Matrix44.identity (4 * 1 + 3)
       * Matrix44.matrix (Matrix44.constant 2) (4 * 3 + 2))%R.
Proof.
  apply (Matrix44_mul_entry Matrix44.identity (Matrix44.constant 2) 1 2); lia.
Defined.

(** X18. The matrix that the default constructor builds has ones on the
    diagonal and zeros elsewhere, and it is the unit of the product on
    both sides and leaves every vector unchanged. *)
Theorem Matrix44_identity_unit (M : Matrix44.t) (v : Matrix44.Coord) :
  Matrix44.mul Matrix44.identity M = M /\
  Matrix44.mul M Matrix44.identity = M /\
  Matrix44.mul_vec Matrix44.identity v = v /\
  (forall j i, 0 <= j <= 3 -> 0 <= i <= 3 ->
     Matrix44.at_ Matrix44.identity j i
     = Matrix44.Value (if j =? i then 1 else 0)%R).
Proof.
  destruct M, v as [[[v0 v1] v2] v3].
  split; [|split; [|split]].
  - unfold Matrix44.mul, Matrix44.mul_assign. cbn.
    apply Matrix44_Build_eq; cbn; ring.
  - unfold Matrix44.mul, Matrix44.mul_assign. cbn.
    apply Matrix44_Build_eq; cbn; ring.
  - unfold Matrix44.mul_vec. cbn.
    apply Matrix44_Coord_eq; cbn; ring.
  - intros j i Hj Hi. m44_index j Hj; m44_index i Hi; reflexivity.
Qed.

(** X19. Transformations compose: the product of matrices is
    associative, and applying a product to a vector applies the right
    factor first, then the left one. *)
Theorem Matrix44_mul_assoc (A B C : Matrix44.t) (v : Matrix44.Coord) :
  Matrix44.mul (Matrix44.mul A B) C = Matrix44.mul A (Matrix44.mul B C) /\
  Matrix44.mul_vec (Matrix44.mul A B) v
  = Matrix44.mul_vec A (Matrix44.mul_vec B v).
Proof.
  destruct A, B, C, v as [[[v0 v1] v2] v3]. split.
  - unfold Matrix44.mul, Matrix44.mul_assign. cbn.
    apply Matrix44_Build_eq; cbn; ring.
  - unfold Matrix44.mul_vec, Matrix44.mul, Matrix44.mul_assign. cbn.
    apply Matrix44_Coord_eq; cbn; ring.
Qed.

(** X20. A constant on the left of a matrix: [c + M] adds [c] to every
    element and [c * M] multiplies every element by [c], as [M * c]
    does; but [c - M] subtracts [c] from every element of [M], it is
    [M - c] and not its opposite. So [0 - M] is [M]. *)
Theorem Matrix44_constant_on_the_left (c : double) (M : Matrix44.t) :
  Matrix44.add_const c M = Matrix44.add M (Matrix44.constant c) /\
  Matrix44.sub_const c M = Matrix44.sub M (Matrix44.constant c) /\
  Matrix44.const_mul c M = Matrix44.scale M c /\
  Matrix44.sub_const 0 M = M /\
  (forall i, 0 <= i <= 15 ->
     Matrix44.matrix (Matrix44.add_const c M) i = (Matrix44.matrix M i + c)%R /\
     Matrix44.matrix (Matrix44.sub_const c M) i = (Matrix44.matrix M i - c)%R /\
     Matrix44.matrix (Matrix44.const_mul c M) i = (Matrix44.matrix M i * c)%R).
Proof.
  repeat split; try reflexivity.
  - destruct M. unfold Matrix44.sub_const, Matrix44.sub_assign. cbn.
    apply Matrix44_Build_eq; cbn; ring.
  - assert (Hi : i = 0 \/ i = 1 \/ i = 2 \/ i = 3 \/ i = 4 \/ i = 5 \/ i = 6
                 \/ i = 7 \/ i = 8 \/ i = 9 \/ i = 10 \/ i = 11 \/ i = 12
                 \/ i = 13 \/ i = 14 \/ i = 15) by lia.
    repeat (destruct Hi as [->|Hi]; [reflexivity|]). subst i. reflexivity.
  - assert (Hi : i = 0 \/ i = 1 \/ i = 2 \/ i = 3 \/ i = 4 \/ i = 5 \/ i = 6
                 \/ i = 7 \/ i = 8 \/ i = 9 \/ i = 10 \/ i = 11 \/ i = 12
                 \/ i = 13 \/ i = 14 \/ i = 15) by lia.
    repeat (destruct Hi as [->|Hi]; [reflexivity|]). subst i. reflexivity.
  - assert (Hi : i = 0 \/ i = 1 \/ i = 2 \/ i = 3 \/ i = 4 \/ i = 5 \/ i = 6
                 \/ i = 7 \/ i = 8 \/ i = 9 \/ i = 10 \/ i = 11 \/ i = 12
                 \/ i = 13 \/ i = 14 \/ i = 15) by lia.
    repeat (destruct Hi as [->|Hi]; [reflexivity|]). subst i. reflexivity.
Qed.

(** ** Atoms inside a density blob *)

Section ContainedProperties.
Variable lib : Library.
Variable grid : DensityGrid.
Variable show : Z -> String.string.
Variable subset : AtomicGroup lib.
Variable traj : pTraj lib.
Hypothesis grid_readable :
  forall p, inRange grid p = true -> exists x, value_at grid p = Ok x.

Lemma count_atoms_filter (i : Z) (l : list Z) (n0 : Z) :
  n0 + Z.of_nat (length l) <= LONG_MAX ->
  foldM (fun j n => count_atom grid (frame_coords lib traj i subset j) n) l n0
  = Ok (n0 + Z.of_nat (length (filter (contained lib grid subset traj i) l))).
Proof.
  revert n0. induction l as [|j l IH]; intros n0 Hmax.
  - cbn [foldM filter length Z.of_nat]. f_equal. lia.
  - cbn [foldM filter]. cbn [length] in Hmax.
    unfold count_atom at 1, contained at 1.
    destruct (inRange grid (gridpoint grid (frame_coords lib traj i subset j)))
      eqn:Hin; cbn [negb andb].
    + destruct (grid_readable _ Hin) as (x & ->). cbn [bind].
      destruct (x =? 0); cbn [negb bind].
      * rewrite IH by lia. reflexivity.
      * assert (E : (n0 + 1 <=? LONG_MAX) = true) by (apply Z.leb_le; lia).
        rewrite E. cbn [bind]. rewrite IH by lia.
        cbn [length]. f_equal. lia.
    + cbn [bind]. rewrite IH by lia. reflexivity.
Qed.

Lemma contained_atoms_bounds (i : Z) :
  0 <= contained_atoms lib grid subset traj i <= Z.max 0 (group_size lib subset).
Proof.
  unfold contained_atoms.
  pose proof (filter_length_le (contained lib grid subset traj i)
                (indices (group_size lib subset))) as H.
  rewrite length_indices in H. lia.
Qed.

Lemma count_frame_contained (i : Z) :
  group_size lib subset <= LONG_MAX ->
  count_frame lib grid subset traj i
  = Ok (contained_atoms lib grid subset traj i).
Proof.
  intros Hmax. unfold count_frame, contained_atoms.
  rewrite count_atoms_filter; [reflexivity|].
  rewrite length_indices. unfold LONG_MAX in *. lia.
Qed.

(** X21. For every frame of the list, in order, the tool reads the
    frame and writes one line with the frame index and the number of
    atoms of the selection whose grid point is inside the grid and holds
    a non-zero value. That number is between zero and the number of
    selected atoms, and the grid is never asked for the value of a point
    outside its range. *)
Theorem contained_loop_counts (frames : list Z) (log : list event) :
  group_size lib subset <= LONG_MAX ->
  contained_loop lib grid show subset traj frames log
  = Ok (log ++ flat_map
                 (fun i =>
                    [EvReadFrame i;
                     EvStdout
                       (String.append (show i)
                          (String.append " "
                             (String.append
                                (show (contained_atoms lib grid subset traj i))
                                newline)))])
                 frames) /\
  forall i,
    count_frame lib grid subset traj i
    = Ok (contained_atoms lib grid subset traj i) /\
    0 <= contained_atoms lib grid subset traj i
      <= Z.max 0 (group_size lib subset).
Proof.
  intros Hmax. split.
  - unfold contained_loop. revert log.
    induction frames as [|i frames IH]; intros log.
    + cbn [foldM flat_map]. now rewrite app_nil_r.
    + cbn [foldM flat_map]. rewrite (count_frame_contained i Hmax).
      cbn [bind]. rewrite IH. f_equal.
      rewrite <- !app_assoc. reflexivity.
  - intros i. split; [now apply count_frame_contained|].
    apply contained_atoms_bounds.
Qed.
End ContainedProperties.

Lemma contained_loop_counts_witness :
  group_size demo_lib [0; 1]%nat <= LONG_MAX /\
  exists n,
    count_frame demo_lib half_space_grid [0; 1]%nat demo_frames 2 = Ok n /\
    0 <= n <= 2.
Proof.
  assert (Hgrid : forall p, inRange half_space_grid p = true ->
                    exists x, value_at half_space_grid p = Ok x).
  { intros [|] Hp; [now exists 1 | discriminate]. }
  assert (Hmax : group_size demo_lib [0; 1]%nat <= LONG_MAX)
    by (vm_compute; discriminate).
  split; [exact Hmax|].
  destruct (contained_loop_counts demo_lib half_space_grid (fun _ => ""%string)
              [0; 1]%nat demo_frames Hgrid [] [] Hmax) as [_ Hcount].
  destruct (Hcount 2) as [Hc Hb].
  exists (contained_atoms demo_lib half_space_grid [0; 1]%nat demo_frames 2).
  split; [exact Hc | exact Hb].
Defined.
